(** * Solar-potential overlay: the building-insights section

    A shallow embedding of [src/routes/sections/BuildingInsightsSection.svelte]:
    the panel and roof-segment geometry of [showSolarPotential], the two
    visibility passes [updatePanelVisibility] and [updateSegmentVisibility],
    the capacity ratio, and the request life cycle around the building-insights
    fetch.

    JavaScript numbers are read through the interface [Number] below and the
    source is transcribed once, against that interface.  Two carriers
    implement it:
    - [double], IEEE-754 binary64 as the browser computes (primitive floats);
    - [xnum], the same values without rounding: exact rationals extended with
      [Infinity], [-Infinity] and [NaN].
    What does not depend on arithmetic is proved for every carrier.  Bounds
    on computed numbers are proved on [double], through the rational value
    [toQ] of a finite double and the rounding of the four operations; what
    involves no rounding, or holds only without it, is proved on [xnum].
    Concrete runs are evaluated on [double]. *)

From Stdlib Require Import Ascii String.
From Stdlib Require Import Floats Uint63.
From Stdlib Require Import ZArith QArith Qround Qminmax Qpower Lqa Lia Bool.
From Stdlib Require Import List.
Import ListNotations.

Set Implicit Arguments.

(** ** Numbers *)

Declare Scope js_scope.
Delimit Scope js_scope with js.

Class Number (num : Type) : Type := {
  of_Z : Z -> num;                 (* an integer literal *)
  tenth : num;                     (* the literal [0.1] *)
  Infinity : num;
  nadd : num -> num -> num;
  nsub : num -> num -> num;
  nmul : num -> num -> num;
  ndiv : num -> num -> num;
  nopp : num -> num;
  nlt : num -> num -> bool;        (* [a < b] *)
  nle : num -> num -> bool;        (* [a <= b] *)
  Math_min : num -> num -> num;
  Math_max : num -> num -> num;
  Math_round : num -> num
}.

Infix "+" := nadd : js_scope.
Infix "-" := nsub : js_scope.
Infix "*" := nmul : js_scope.
Infix "/" := ndiv : js_scope.
Notation "- a" := (nopp a) : js_scope.
Infix "<?" := nlt : js_scope.
Infix "<=?" := nle : js_scope.

(** *** Exact carrier *)

Inductive xnum : Type :=
| XFin (q : Q)
| XPInf
| XNInf
| XNaN.

Module Exact.

Definition Qltb (a b : Q) : bool := negb (Qle_bool b a).

(** Sign of a rational as a comparison with zero. *)
Definition sgn (a : Q) : comparison := (0 ?= a)%Q.

Definition opp (a : xnum) : xnum :=
  match a with
  | XFin q => XFin (- q)
  | XPInf => XNInf
  | XNInf => XPInf
  | XNaN => XNaN
  end.

Definition add (a b : xnum) : xnum :=
  match a, b with
  | XNaN, _ | _, XNaN => XNaN
  | XFin p, XFin q => XFin (p + q)
  | XPInf, XNInf | XNInf, XPInf => XNaN
  | XPInf, _ | _, XPInf => XPInf
  | XNInf, _ | _, XNInf => XNInf
  end.

Definition sub (a b : xnum) : xnum := add a (opp b).

(** An infinity scaled by a finite factor. *)
Definition scale_inf (inf : xnum) (q : Q) : xnum :=
  match sgn q with
  | Lt => inf
  | Gt => opp inf
  | Eq => XNaN
  end.

Definition mul (a b : xnum) : xnum :=
  match a, b with
  | XNaN, _ | _, XNaN => XNaN
  | XFin p, XFin q => XFin (p * q)
  | XFin p, inf => scale_inf inf p
  | inf, XFin q => scale_inf inf q
  | XPInf, XPInf | XNInf, XNInf => XPInf
  | XPInf, XNInf | XNInf, XPInf => XNInf
  end.

(** Division; a zero divisor is read as [+0]. *)
Definition div (a b : xnum) : xnum :=
  match a, b with
  | XNaN, _ | _, XNaN => XNaN
  | XFin p, XFin q =>
      match sgn q with
      | Eq => match sgn p with
              | Lt => XPInf
              | Gt => XNInf
              | Eq => XNaN
              end
      | _ => XFin (p / q)
      end
  | XFin _, _ => XFin 0
  | inf, XFin q => match sgn q with Gt => opp inf | _ => inf end
  | _, _ => XNaN
  end.

Definition lt (a b : xnum) : bool :=
  match a, b with
  | XNaN, _ | _, XNaN => false
  | XFin p, XFin q => Qltb p q
  | XNInf, XNInf | XPInf, _ | _, XNInf => false
  | XNInf, _ | _, XPInf => true
  end.

Definition le (a b : xnum) : bool :=
  match a, b with
  | XNaN, _ | _, XNaN => false
  | XFin p, XFin q => Qle_bool p q
  | XNInf, _ | _, XPInf => true
  | XPInf, _ | _, XNInf => false
  end.

Definition min (a b : xnum) : xnum :=
  match a, b with
  | XNaN, _ | _, XNaN => XNaN
  | _, _ => if lt b a then b else a
  end.

Definition max (a b : xnum) : xnum :=
  match a, b with
  | XNaN, _ | _, XNaN => XNaN
  | _, _ => if lt a b then b else a
  end.

(** [Math.round]: the nearest integer, ties towards [+Infinity]. *)
Definition round (a : xnum) : xnum :=
  match a with
  | XFin q => XFin (inject_Z (Qfloor (q + (1 # 2))))
  | other => other
  end.

End Exact.

#[export] Instance xnum_Number : Number xnum := {|
  of_Z := fun z => XFin (inject_Z z);
  tenth := XFin (1 # 10);
  Infinity := XPInf;
  nadd := Exact.add;
  nsub := Exact.sub;
  nmul := Exact.mul;
  ndiv := Exact.div;
  nopp := Exact.opp;
  nlt := Exact.lt;
  nle := Exact.le;
  Math_min := Exact.min;
  Math_max := Exact.max;
  Math_round := Exact.round
|}.

(** *** IEEE-754 binary64 carrier *)

Definition double : Type := float.

Module Double.

Definition of_Z (z : Z) : float :=
  match z with
  | Z0 => PrimFloat.zero
  | Zpos _ => PrimFloat.of_uint63 (Uint63.of_Z z)
  | Zneg p => PrimFloat.opp (PrimFloat.of_uint63 (Uint63.of_Z (Zpos p)))
  end.

(** The double nearest to [0.1]. *)
Definition tenth : float := 0x1.999999999999ap-4%float.

Definition is_neg_zero (a : float) : bool :=
  match PrimFloat.classify a with
  | NZero => true
  | _ => false
  end.

(** [Math.min] and [Math.max]: [NaN] if an argument is, and [-0 < +0]. *)
Definition min (a b : float) : float :=
  if PrimFloat.is_nan a || PrimFloat.is_nan b then PrimFloat.nan
  else if PrimFloat.ltb b a then b
  else if PrimFloat.ltb a b then a
  else if is_neg_zero b then b else a.

Definition max (a b : float) : float :=
  if PrimFloat.is_nan a || PrimFloat.is_nan b then PrimFloat.nan
  else if PrimFloat.ltb a b then b
  else if PrimFloat.ltb b a then a
  else if is_neg_zero a then b else a.

(** The integer [floor (m * 2^e + 1/2)] for a positive mantissa. *)
Definition round_pos (m : positive) (e : Z) : Z :=
  match e with
  | Z0 => Zpos m
  | Zpos k => Z.shiftl (Zpos m) (Zpos k)
  | Zneg k => Z.shiftr (Z.shiftr (Zpos m) (Zpos k - 1) + 1) 1
  end.

(** The integer [ceil (m * 2^e - 1/2)] for a positive mantissa. *)
Definition round_neg (m : positive) (e : Z) : Z :=
  match e with
  | Z0 => Zpos m
  | Zpos k => Z.shiftl (Zpos m) (Zpos k)
  | Zneg k => - Z.shiftr (- Zpos m + Z.shiftl 1 (Zpos k - 1)) (Zpos k)
  end.

(** [Math.round]: integral values, infinities and [NaN] are returned as
    they are; a value that rounds to zero keeps its sign. *)
Definition round (a : float) : float :=
  match Prim2SF a with
  | S754_finite false m e =>
      if (0 <=? e)%Z then a else of_Z (round_pos m e)
  | S754_finite true m e =>
      if (0 <=? e)%Z then a
      else match round_neg m e with
           | Z0 => PrimFloat.neg_zero
           | n => PrimFloat.opp (of_Z n)
           end
  | _ => a
  end.

End Double.

#[export] Instance double_Number : Number double := {|
  of_Z := Double.of_Z;
  tenth := Double.tenth;
  Infinity := PrimFloat.infinity;
  nadd := PrimFloat.add;
  nsub := PrimFloat.sub;
  nmul := PrimFloat.mul;
  ndiv := PrimFloat.div;
  nopp := PrimFloat.opp;
  nlt := PrimFloat.ltb;
  nle := PrimFloat.leb;
  Math_min := Double.min;
  Math_max := Double.max;
  Math_round := Double.round
|}.

(** *** The value of a double

    A double that is finite is [m * 2^e] for an integer mantissa [m] and an
    exponent [e]; this is the rational number that the rounding of the four
    operations is stated about. *)

(** The exponent of the unit in the last place for a number below [2^z]. *)
Definition fexp64 (z : Z) : Z := SpecFloat.fexp prec emax z.

(** [r] is the float of sign [s] whose magnitude is [m * 2^e]. *)
Definition Carries (s : bool) (m e : Z) (r : spec_float) : Prop :=
  (m = 0%Z /\ r = S754_zero s)
  \/ exists (m' : positive) (e' : Z),
       r = S754_finite s m' e' /\ (e <= e')%Z
       /\ (Zpos m' * 2 ^ (e' - e) = m)%Z.

(** [2^e] as a rational. *)
Definition pow2 (e : Z) : Q := 2 ^ e.

(** The value of a finite float; [0] for what has none. *)
Definition SF2Q (x : spec_float) : Q :=
  match x with
  | S754_finite s m e =>
      (if s then - inject_Z (Zpos m) else inject_Z (Zpos m)) * pow2 e
  | _ => 0
  end.

Definition finiteSF (x : spec_float) : bool :=
  match x with
  | S754_zero _ | S754_finite _ _ _ => true
  | _ => false
  end.

Definition signed (s : bool) (q : Q) : Q := if s then - q else q.

Definition toQ (a : float) : Q := SF2Q (Prim2SF a).

(** Neither a zero nor [NaN]. *)
Definition nonzeroSF (r : spec_float) : Prop :=
  match r with
  | S754_finite _ _ _ | S754_infinity _ => True
  | _ => False
  end.

(** ** Strings

    A JavaScript string is a sequence of UTF-16 code units. *)

Definition jsstring : Type := list N.

Definition str (s : string) : jsstring :=
  List.map N_of_ascii (list_ascii_of_string s).

(** ECMAScript [WhiteSpace] and [LineTerminator] code units, the set that
    [String.prototype.trim] and [parseInt] strip. *)
Definition isWhiteSpace (c : N) : bool :=
  ((9 <=? c) && (c <=? 13) || (c =? 32) || (c =? 160) || (c =? 5760)
   || (8192 <=? c) && (c <=? 8202) || (c =? 8232) || (c =? 8233)
   || (c =? 8239) || (c =? 8287) || (c =? 12288) || (c =? 65279))%N.

Fixpoint trimStart (s : jsstring) : jsstring :=
  match s with
  | c :: rest => if isWhiteSpace c then trimStart rest else s
  | [] => []
  end.

Definition trimEnd (s : jsstring) : jsstring := rev (trimStart (rev s)).

Definition trim (s : jsstring) : jsstring := trimEnd (trimStart s).

Definition comma : N := 44.

(** [s.split(',')]: the empty string splits into one empty token. *)
Fixpoint split_comma (s : jsstring) : list jsstring :=
  match s with
  | [] => [[]]
  | c :: rest =>
      if (c =? comma)%N then [] :: split_comma rest
      else match split_comma rest with
           | tok :: toks => (c :: tok) :: toks
           | [] => [[c]]
           end
  end.

Definition digit10 (c : N) : option Z :=
  if ((48 <=? c) && (c <=? 57))%N then Some (Z.of_N c - 48)%Z else None.

Definition digit16 (c : N) : option Z :=
  if ((48 <=? c) && (c <=? 57))%N then Some (Z.of_N c - 48)%Z
  else if ((97 <=? c) && (c <=? 102))%N then Some (Z.of_N c - 87)%Z
  else if ((65 <=? c) && (c <=? 70))%N then Some (Z.of_N c - 55)%Z
  else None.

(** The value of the longest prefix of digits, [None] when it is empty. *)
Fixpoint digits (digit : N -> option Z) (radix : Z) (s : jsstring)
    (acc : option Z) : option Z :=
  match s with
  | [] => acc
  | c :: rest =>
      match digit c with
      | Some d =>
          digits digit radix rest
            (Some (radix * match acc with Some a => a | None => 0 end + d)%Z)
      | None => acc
      end
  end.

(** The result of [parseInt]: an integer, or [NaN]. *)
Inductive jsint : Type :=
| NaN
| Int (z : Z).

Definition isNaN (n : jsint) : bool :=
  match n with
  | NaN => true
  | Int _ => false
  end.

(** [parseInt(s)] with no radix argument.  Leading white space and a sign
    are skipped, a [0x] or [0X] prefix selects radix 16, and parsing stops
    at the first character that is not a digit; with no digit at all the
    result is [NaN].  The integer is exact, which is the number JavaScript
    returns for magnitudes below [2^53]. *)
Definition parseInt (s : jsstring) : jsint :=
  let input := trimStart s in
  let '(sign, body) :=
    match input with
    | 45%N :: rest => ((-1)%Z, rest)
    | 43%N :: rest => (1%Z, rest)
    | _ => (1%Z, input)
    end in
  let mathInt :=
    match body with
    | 48%N :: 120%N :: rest
    | 48%N :: 88%N :: rest => digits digit16 16 rest None
    | _ => digits digit10 10 body None
    end in
  match mathInt with
  | Some n => Int (sign * n)
  | None => NaN
  end.

(** ** Errors *)

Inductive JsError : Type :=
| TypeError (reading : string).   (* property read on [undefined] *)

Inductive completion (A : Type) : Type :=
| Normal (a : A)
| Throw (e : JsError).

Arguments Normal {A} a.
Arguments Throw {A} e.

Definition bind {A B} (c : completion A) (k : A -> completion B)
    : completion B :=
  match c with
  | Normal a => k a
  | Throw e => Throw e
  end.

Notation "x <- c ;; k" := (bind c (fun x => k))
  (at level 61, c at next level, right associativity).

(** [xs.map(f)] for a callback that may throw: elements are visited in
    order and the first exception ends the traversal. *)
Fixpoint mapM {A B} (f : A -> completion B) (xs : list A)
    : completion (list B) :=
  match xs with
  | [] => Normal []
  | a :: rest => b <- f a ;; bs <- mapM f rest ;; Normal (b :: bs)
  end.

(** [o.prop] where [o] may be [undefined]. *)
Definition read {A B} (o : option A) (prop : A -> B) (name : string)
    : completion B :=
  match o with
  | Some a => Normal (prop a)
  | None => Throw (TypeError name)
  end.

(** [xs[i]] for a numeric index: [undefined] outside [0 .. length - 1]. *)
Definition index {A} (xs : list A) (i : Z) : option A :=
  if (i <? 0)%Z then None else nth_error xs (Z.to_nat i).

(** ** Solar API data ([../solar]) *)

Module LatLng.
Record t (num : Type) : Type := { latitude : num; longitude : num }.
End LatLng.

Inductive Orientation : Type := LANDSCAPE | PORTRAIT.

Module SolarPanel.
Record t (num : Type) : Type := {
  center : LatLng.t num;
  orientation : Orientation;
  segmentIndex : Z;
  yearlyEnergyDcKwh : num
}.
End SolarPanel.

Module RoofSegmentStats.
Record t (num : Type) : Type := {
  azimuthDegrees : num;
  center : LatLng.t num
}.
End RoofSegmentStats.

Module SolarPanelConfig.
Record t (num : Type) : Type := {
  panelsCount : Z;
  yearlyEnergyDcKwh : num
}.
End SolarPanelConfig.

Module SolarPotential.
Record t (num : Type) : Type := {
  panelCapacityWatts : num;
  panelWidthMeters : num;
  panelHeightMeters : num;
  solarPanels : list (SolarPanel.t num);
  roofSegmentStats : list (RoofSegmentStats.t num);
  solarPanelConfigs : list (SolarPanelConfig.t num)
}.
End SolarPotential.

Record BuildingInsightsResponse (num : Type) : Type := {
  solarPotential : SolarPotential.t num
}.

(** A [RequestError]: [{ error: { code, status, message } }]. *)
Record RequestErrorBody : Type := {
  code : Z;
  status : string;
  message : string
}.

Record RequestError : Type := {
  error : RequestErrorBody
}.

(** ** Map shapes *)

(** A point of the local frame, in meters. *)
Record XY (num : Type) : Type := mkXY { x : num; y : num }.

(** A [google.maps.LatLngLiteral]. *)
Record LatLngLiteral (num : Type) : Type := { lat : num; lng : num }.

(** A [google.maps.Polygon]: its path, its colours, the map it is attached
    to ([None] is [null], detached) and the custom [segmentIndex] property
    the segment outlines carry.  Opacity, weight and z-index literals are
    styling only and are left out. *)
Record Polygon (GLatLng GMap : Type) : Type := {
  paths : list GLatLng;
  strokeColor : string;
  fillColor : option string;
  getMap : option GMap;
  polygonSegmentIndex : option Z
}.

(** A [google.maps.Marker] used as a segment label. *)
Record Marker (num GMap : Type) : Type := {
  position : LatLngLiteral num;
  labelText : Z;
  markerMap : option GMap;
  markerSegmentIndex : option Z
}.

Definition setMap {L G} (p : Polygon L G) (m : option G) : Polygon L G :=
  {| paths := paths p; strokeColor := strokeColor p; fillColor := fillColor p;
     getMap := m; polygonSegmentIndex := polygonSegmentIndex p |}.

Definition setMarkerMap {num G} (k : Marker num G) (m : option G)
    : Marker num G :=
  {| position := position k; labelText := labelText k;
     markerMap := m; markerSegmentIndex := markerSegmentIndex k |}.

(** [xs.slice(-1)]: the last element alone, or nothing. *)
Definition slice_last {A} (xs : list A) : list A :=
  skipn (length xs - 1) xs.

(** [xs.map((a, i) => f(a, i))] and [xs.forEach((a, i) => ...)]. *)
Fixpoint mapi_from {A B} (i : nat) (f : A -> nat -> B) (xs : list A)
    : list B :=
  match xs with
  | [] => []
  | a :: rest => f a i :: mapi_from (S i) f rest
  end.

Definition mapi {A B} (f : A -> nat -> B) (xs : list A) : list B :=
  mapi_from 0 f xs.

(** ** [Map<number, V>]: entries in insertion order, one per key *)

Module JsMap.

Definition t (V : Type) : Type := list (Z * V).

Fixpoint get {V} (m : t V) (k : Z) : option V :=
  match m with
  | [] => None
  | (k', v) :: rest => if (k' =? k)%Z then Some v else get rest k
  end.

Definition has {V} (m : t V) (k : Z) : bool :=
  match get m k with
  | Some _ => true
  | None => false
  end.

(** [m.set(k, v)]: a present key keeps its place, a new key goes last. *)
Fixpoint set {V} (m : t V) (k : Z) (v : V) : t V :=
  match m with
  | [] => [(k, v)]
  | (k', v') :: rest =>
      if (k' =? k)%Z then (k, v) :: rest else (k', v') :: set rest k v
  end.

(** The value stored under [k] is changed in place (the value is a shared
    array that the caller pushes to). *)
Fixpoint update {V} (m : t V) (k : Z) (f : V -> V) : t V :=
  match m with
  | [] => []
  | (k', v') :: rest =>
      if (k' =? k)%Z then (k', f v') :: rest else (k', v') :: update rest k f
  end.

Definition keys {V} (m : t V) : list Z := List.map fst m.

End JsMap.

(** ** The component *)

Section Component.

Context {num : Type} `{Number num}.

Local Open Scope js_scope.

(** The map SDK's point and map objects. *)
Variables GLatLng GMap : Type.

(** [Math.sqrt], [Math.atan2], [Math.sin], [Math.cos] and [Math.PI]. *)
Variable Math_sqrt : num -> num.
Variable Math_atan2 : num -> num -> num.
Variable Math_sin : num -> num.
Variable Math_cos : num -> num.
Variable Math_PI : num.

(** [geometryLibrary.spherical]. *)
Variable computeOffset : LatLngLiteral num -> num -> num -> GLatLng.
Variable computeHeading : LatLngLiteral num -> LatLngLiteral num -> num.
Variable computeDistanceBetween
  : LatLngLiteral num -> LatLngLiteral num -> num.

(** [palette[i]], the colour table built from [panelsPalette]. *)
Variable palette : num -> option string.

(** Modelled from the spec: the clamping that [normalize] applies; [clamp]
    is part of [../visualize], which is not among the sources. *)
Definition clamp (v lo hi : num) : num := Math_min (Math_max v lo) hi.

(** Modelled from the spec: [normalize] of [../visualize], which is not
    among the sources.  The value is mapped linearly,
    [(value - min) / (max - min)], and clamped to the domain [0 .. 1]. *)
Definition normalize (value max min : num) : num :=
  clamp ((value - min) / (max - min)) (of_Z 0) (of_Z 1).

(** *** Solar panels (lines 171-201) *)

Definition colorIndex (energy maxEnergy minEnergy : num) : num :=
  Math_round (normalize energy maxEnergy minEnergy * of_Z 255).

(** The five local points of a panel: the four corners, then the first
    corner again. *)
Definition points (w h : num) : list (XY num) :=
  [ mkXY w h;          (* top right *)
    mkXY w (- h);      (* bottom right *)
    mkXY (- w) (- h);  (* bottom left *)
    mkXY (- w) h;      (* top left *)
    mkXY w h ].        (* top right *)

Definition orientationDegrees (o : Orientation) : num :=
  match o with
  | PORTRAIT => of_Z 90
  | LANDSCAPE => of_Z 0
  end.

Definition panelCenter (panel : SolarPanel.t num) : LatLngLiteral num :=
  {| lat := LatLng.latitude (SolarPanel.center panel);
     lng := LatLng.longitude (SolarPanel.center panel) |}.

(** [roofSegmentStats[i].azimuthDegrees], with no guard on [i]. *)
Definition azimuthOf (roofSegmentStats : list (RoofSegmentStats.t num))
    (i : Z) : completion num :=
  read (index roofSegmentStats i) (@RoofSegmentStats.azimuthDegrees num)
    "azimuthDegrees".

(** One point of a panel ring. *)
Definition panelVertex (center : LatLngLiteral num)
    (orientation azimuth : num) (p : XY num) : GLatLng :=
  let '(mkXY x y) := p in
  computeOffset center
    (Math_sqrt (x * x + y * y))
    (Math_atan2 y x * (of_Z 180 / Math_PI) + orientation + azimuth).

Definition panelPolygon (sp : SolarPotential.t num)
    (maxEnergy minEnergy : num) (panel : SolarPanel.t num)
    : completion (Polygon GLatLng GMap) :=
  let w := SolarPotential.panelWidthMeters sp / of_Z 2 in
  let h := SolarPotential.panelHeightMeters sp / of_Z 2 in
  let orientation := orientationDegrees (SolarPanel.orientation panel) in
  azimuth <- azimuthOf (SolarPotential.roofSegmentStats sp)
               (SolarPanel.segmentIndex panel) ;;
  let colorIndex :=
    colorIndex (SolarPanel.yearlyEnergyDcKwh panel) maxEnergy minEnergy in
  Normal {| paths := List.map (panelVertex (panelCenter panel)
                                 orientation azimuth) (points w h);
            strokeColor := "#B0BEC5";
            fillColor := palette colorIndex;
            getMap := None;
            polygonSegmentIndex := None |}.

Definition createSolarPanels (sp : SolarPotential.t num)
    : completion (list (Polygon GLatLng GMap)) :=
  let panels := SolarPotential.solarPanels sp in
  minEnergy <- read (index (slice_last panels) 0)
                 (@SolarPanel.yearlyEnergyDcKwh num) "yearlyEnergyDcKwh" ;;
  maxEnergy <- read (index panels 0)
                 (@SolarPanel.yearlyEnergyDcKwh num) "yearlyEnergyDcKwh" ;;
  mapM (panelPolygon sp maxEnergy minEnergy) panels.

(** The invariant on segment indices: [i] is an index into
    [roofSegmentStats]. *)
Definition validSegment (sp : SolarPotential.t num) (i : Z) : Prop :=
  (0 <= i < Z.of_nat (List.length (SolarPotential.roofSegmentStats sp)))%Z.

(** *** Panels grouped by segment (lines 205-211) *)

Definition addPanel (segmentPanels : JsMap.t (list (SolarPanel.t num)))
    (panel : SolarPanel.t num) : JsMap.t (list (SolarPanel.t num)) :=
  let k := SolarPanel.segmentIndex panel in
  let segmentPanels :=
    if negb (JsMap.has segmentPanels k) then JsMap.set segmentPanels k []
    else segmentPanels in
  JsMap.update segmentPanels k (fun panels => panels ++ [panel]).

Definition groupPanels (panels : list (SolarPanel.t num))
    : JsMap.t (list (SolarPanel.t num)) :=
  fold_left addPanel panels [].

(** *** Segment outlines (lines 217-366) *)

Record Box : Type := {
  minX : num;
  maxX : num;
  minY : num;
  maxY : num
}.

(** A panel's position in the roof-aligned frame of its segment. *)
Definition relativePosition (center : LatLngLiteral num) (azimuth : num)
    (panel : SolarPanel.t num) : XY num :=
  let bearing := computeHeading center (panelCenter panel) in
  let distance := computeDistanceBetween center (panelCenter panel) in
  let adjustedBearing := bearing - azimuth in
  let radians := adjustedBearing * Math_PI / of_Z 180 in
  mkXY (distance * Math_sin radians) (distance * Math_cos radians).

(** The body of [relativePositions.forEach] (lines 269-274). *)
Definition extend (b : Box) (pos : XY num) : Box :=
  {| minX := Math_min (minX b) (x pos);
     maxX := Math_max (maxX b) (x pos);
     minY := Math_min (minY b) (y pos);
     maxY := Math_max (maxY b) (y pos) |}.

(** The tight box, folded from [Infinity] and [-Infinity] (lines 267-274). *)
Definition tightBox (relativePositions : list (XY num)) : Box :=
  fold_left extend relativePositions
    {| minX := Infinity; maxX := - Infinity;
       minY := Infinity; maxY := - Infinity |}.

Definition width (b : Box) : num := maxX b - minX b.
Definition height (b : Box) : num := maxY b - minY b.

(** Ten percent of the extent is added on each side (lines 282-288). *)
Definition padBox (b : Box) : Box :=
  let paddingX := (maxX b - minX b) * tenth in
  let paddingY := (maxY b - minY b) * tenth in
  {| minX := minX b - paddingX;
     maxX := maxX b + paddingX;
     minY := minY b - paddingY;
     maxY := maxY b + paddingY |}.

Definition minSize : num := of_Z 2.

(** An axis shorter than [minSize] is re-centred (lines 291-301). *)
Definition ensureMinSize (lo hi : num) : num * num :=
  if (hi - lo) <? minSize then
    let center := (hi + lo) / of_Z 2 in
    (center - minSize / of_Z 2, center + minSize / of_Z 2)
  else (lo, hi).

Definition clampBox (b : Box) : Box :=
  let '(minX', maxX') := ensureMinSize (minX b) (maxX b) in
  let '(minY', maxY') := ensureMinSize (minY b) (maxY b) in
  {| minX := minX'; maxX := maxX'; minY := minY'; maxY := maxY' |}.

Definition boundingBox (relativePositions : list (XY num)) : Box :=
  clampBox (padBox (tightBox relativePositions)).

Definition corners (b : Box) : list (XY num) :=
  [ mkXY (minX b) (minY b);   (* bottom left *)
    mkXY (maxX b) (minY b);   (* bottom right *)
    mkXY (maxX b) (maxY b);   (* top right *)
    mkXY (minX b) (maxY b) ]. (* top left *)

Definition segmentVertex (center : LatLngLiteral num) (azimuth : num)
    (p : XY num) : GLatLng :=
  let '(mkXY x y) := p in
  let distance := Math_sqrt (x * x + y * y) in
  let bearing := Math_atan2 x y * (of_Z 180 / Math_PI) in
  let bearing := bearing + azimuth in
  computeOffset center distance bearing.

Definition Shapes : Type :=
  (list (Polygon GLatLng GMap) * list (Marker num GMap))%type.

(** The body of [segmentPanels.forEach]: at most one outline and one label
    are pushed. *)
Definition drawSegment (sp : SolarPotential.t num) (shapes : Shapes)
    (entry : Z * list (SolarPanel.t num)) : completion Shapes :=
  let '(segmentIndex, panels) := entry in
  let segmentInfo := index (SolarPotential.roofSegmentStats sp) segmentIndex in
  azimuth <- read segmentInfo (@RoofSegmentStats.azimuthDegrees num)
               "azimuthDegrees" ;;
  let panelPositions := List.map panelCenter panels in
  if (0 <? length panelPositions)%nat then
    segCenter <- read segmentInfo (@RoofSegmentStats.center num) "center" ;;
    let center := {| lat := LatLng.latitude segCenter;
                     lng := LatLng.longitude segCenter |} in
    let relativePositions :=
      List.map (relativePosition center azimuth) panels in
    let box := boundingBox relativePositions in
    let segmentPolygon :=
      {| paths := List.map (segmentVertex center azimuth) (corners box);
         strokeColor := "#FF0000";
         fillColor := Some "#FF0000"%string;
         getMap := None;
         polygonSegmentIndex := Some segmentIndex |} in
    let label :=
      {| position := center;
         labelText := segmentIndex;
         markerMap := None;
         markerSegmentIndex := Some segmentIndex |} in
    Normal (fst shapes ++ [segmentPolygon], snd shapes ++ [label])
  else Normal shapes.

(** [forEach] over the entries: the shapes pushed before an exception
    stay pushed. *)
Fixpoint drawSegments (sp : SolarPotential.t num) (shapes : Shapes)
    (entries : list (Z * list (SolarPanel.t num)))
    : Shapes * completion unit :=
  match entries with
  | [] => (shapes, Normal tt)
  | entry :: rest =>
      match drawSegment sp shapes entry with
      | Normal shapes' => drawSegments sp shapes' rest
      | Throw e => (shapes, Throw e)
      end
  end.


(** *** Component state (lines 38-60 and 120-135) *)

Record State : Type := {
  (* properties *)
  buildingInsights : option (BuildingInsightsResponse num);
  configId : option Z;
  panelCapacityWatts : num;
  showPanels : bool;
  theMap : GMap;                        (* the property [map] *)
  (* variables *)
  requestSent : bool;
  requestError : option RequestError;
  showSegments : bool;
  segmentFilter : jsstring;
  disableAnimation : bool;
  panelConfig : option (SolarPanelConfig.t num);
  solarPanels : list (Polygon GLatLng GMap);
  roofSegmentPolygons : list (Polygon GLatLng GMap);
  roofSegmentLabels : list (Marker num GMap);
  panelCapacityRatio : num
}.

(** The state a component starts from (lines 52-60 and 120-135). *)
Definition initialState (m : GMap) (watts : num) (show : bool) : State :=
  {| buildingInsights := None; configId := None;
     panelCapacityWatts := watts; showPanels := show; theMap := m;
     requestSent := false; requestError := None;
     showSegments := true; segmentFilter := [];
     disableAnimation := true; panelConfig := None;
     solarPanels := []; roofSegmentPolygons := []; roofSegmentLabels := [];
     panelCapacityRatio := of_Z 1 |}.

Definition withShapes (st : State) (panels : list (Polygon GLatLng GMap))
    (segments : list (Polygon GLatLng GMap))
    (labels : list (Marker num GMap)) : State :=
  {| buildingInsights := buildingInsights st; configId := configId st;
     panelCapacityWatts := panelCapacityWatts st;
     showPanels := showPanels st; theMap := theMap st;
     requestSent := requestSent st; requestError := requestError st;
     showSegments := showSegments st; segmentFilter := segmentFilter st;
     disableAnimation := disableAnimation st; panelConfig := panelConfig st;
     solarPanels := panels; roofSegmentPolygons := segments;
     roofSegmentLabels := labels;
     panelCapacityRatio := panelCapacityRatio st |}.

Definition withRequest (st : State)
    (insights : option (BuildingInsightsResponse num))
    (err : option RequestError) (sent : bool) : State :=
  {| buildingInsights := insights; configId := configId st;
     panelCapacityWatts := panelCapacityWatts st;
     showPanels := showPanels st; theMap := theMap st;
     requestSent := sent; requestError := err;
     showSegments := showSegments st; segmentFilter := segmentFilter st;
     disableAnimation := disableAnimation st; panelConfig := panelConfig st;
     solarPanels := solarPanels st;
     roofSegmentPolygons := roofSegmentPolygons st;
     roofSegmentLabels := roofSegmentLabels st;
     panelCapacityRatio := panelCapacityRatio st |}.

Definition withDerived (st : State)
    (config : option (SolarPanelConfig.t num)) (ratio : num) : State :=
  {| buildingInsights := buildingInsights st; configId := configId st;
     panelCapacityWatts := panelCapacityWatts st;
     showPanels := showPanels st; theMap := theMap st;
     requestSent := requestSent st; requestError := requestError st;
     showSegments := showSegments st; segmentFilter := segmentFilter st;
     disableAnimation := disableAnimation st; panelConfig := config;
     solarPanels := solarPanels st;
     roofSegmentPolygons := roofSegmentPolygons st;
     roofSegmentLabels := roofSegmentLabels st;
     panelCapacityRatio := ratio |}.

(** What the user and the parent component set: the exported properties
    that the state holds (lines 39-42 and 47) and the toggles of the form. *)
Inductive Input : Type :=
| SetBuildingInsights (b : option (BuildingInsightsResponse num))
| SetMap (m : GMap)
| SetShowPanels (b : bool)
| SetDisableAnimation (b : bool)
| SetShowSegments (b : bool)
| SetSegmentFilter (s : jsstring)
| SetConfigId (c : option Z)
| SetPanelCapacityWatts (w : num).

Definition assign (st : State) (i : Input) : State :=
  {| buildingInsights :=
       match i with
       | SetBuildingInsights b => b
       | _ => buildingInsights st
       end;
     configId := match i with SetConfigId c => c | _ => configId st end;
     panelCapacityWatts :=
       match i with
       | SetPanelCapacityWatts w => w
       | _ => panelCapacityWatts st
       end;
     showPanels :=
       match i with SetShowPanels b => b | _ => showPanels st end;
     theMap := match i with SetMap m => m | _ => theMap st end;
     requestSent := requestSent st; requestError := requestError st;
     showSegments :=
       match i with SetShowSegments b => b | _ => showSegments st end;
     segmentFilter :=
       match i with SetSegmentFilter s => s | _ => segmentFilter st end;
     disableAnimation :=
       match i with
       | SetDisableAnimation b => b
       | _ => disableAnimation st
       end;
     panelConfig := panelConfig st;
     solarPanels := solarPanels st;
     roofSegmentPolygons := roofSegmentPolygons st;
     roofSegmentLabels := roofSegmentLabels st;
     panelCapacityRatio := panelCapacityRatio st |}.

(** *** Visibility (lines 63-97) *)

Definition panelShown (st : State) (i : nat) : bool :=
  if disableAnimation st then showPanels st
  else showPanels st
       && match panelConfig st with
          | Some config =>
              (Z.of_nat i <? SolarPanelConfig.panelsCount config)%Z
          | None => false
          end.

Definition attach (st : State) (shown : bool) : option GMap :=
  if shown then Some (theMap st) else None.

Definition updatePanelVisibility (st : State) : State :=
  if (List.length (solarPanels st) =? 0)%nat then st
  else
    withShapes st
      (mapi (fun panel i => setMap panel (attach st (panelShown st i)))
            (solarPanels st))
      (roofSegmentPolygons st) (roofSegmentLabels st).

(** [null] when the filter is blank, else the tokens that parse. *)
Definition segmentNumbers (filter : jsstring) : option (list jsint) :=
  match trim filter with
  | [] => None
  | _ :: _ =>
      Some (List.filter (fun n => negb (isNaN n))
              (List.map (fun s => parseInt (trim s)) (split_comma filter)))
  end.

(** [segmentNumbers.includes(segmentIndex)]; a shape without the custom
    property is never included. *)
Definition includes (numbers : list jsint) (segmentIndex : option Z)
    : bool :=
  match segmentIndex with
  | Some i =>
      existsb (fun n => match n with
                        | Int z => (z =? i)%Z
                        | NaN => false
                        end) numbers
  | None => false
  end.

Definition shouldShow (showSegments : bool) (filter : jsstring)
    (segmentIndex : option Z) : bool :=
  showSegments
  && match segmentNumbers filter with
     | None => true
     | Some numbers => includes numbers segmentIndex
     end.

Definition updateSegmentVisibility (st : State) : State :=
  if (List.length (roofSegmentPolygons st) =? 0)%nat then st
  else
    withShapes st (solarPanels st)
      (List.map
         (fun segment =>
            setMap segment
              (attach st (shouldShow (showSegments st) (segmentFilter st)
                            (polygonSegmentIndex segment))))
         (roofSegmentPolygons st))
      (List.map
         (fun label =>
            setMarkerMap label
              (attach st (shouldShow (showSegments st) (segmentFilter st)
                            (markerSegmentIndex label))))
         (roofSegmentLabels st)).

(** *** Derived values (lines 120-139) *)

(** The two reactive statements on [buildingInsights]. *)
Definition react (st : State) : State :=
  match buildingInsights st with
  | Some insights =>
      let sp := solarPotential insights in
      withDerived st
        (match configId st with
         | Some c => index (SolarPotential.solarPanelConfigs sp) c
         | None => panelConfig st
         end)
        (panelCapacityWatts st / SolarPotential.panelCapacityWatts sp)
  | None => st
  end.

(** The value of the "Yearly energy" gauge (lines 547-555) of the expanded
    section.  The markup draws it when there is no request error, the
    insights have arrived and a configuration is selected (lines 378-401). *)
Definition yearlyEnergyGauge (st : State) : option num :=
  match requestError st, buildingInsights st, configId st, panelConfig st with
  | None, Some _, Some _, Some config =>
      Some (SolarPanelConfig.yearlyEnergyDcKwh config * panelCapacityRatio st)
  | _, _, _, _ => None
  end.

(** *** [showSolarPotential] (lines 141-373)

    The function runs up to the [await], and again from it once the
    request has settled. *)

Inductive Settled : Type :=
| Resolved (insights : BuildingInsightsResponse num)
| Rejected (e : RequestError).

(** Up to the [await]: the state, and the location of the request that
    was issued, if one was. *)
Definition showSolarPotential_call (st : State) (location : GLatLng)
    : State * option GLatLng :=
  if requestSent st then (st, None)
  else
    let st := withRequest st None None (requestSent st) in
    let st := withShapes st [] [] [] in
    let st := withRequest st (buildingInsights st) (requestError st) true in
    (st, Some location).

(** From the [await] on. *)
Definition showSolarPotential_resume (st : State) (r : Settled)
    : State * completion unit :=
  match r with
  | Rejected e =>
      (withRequest st (buildingInsights st) (Some e) false, Normal tt)
  | Resolved insights =>
      let st := withRequest st (Some insights) (requestError st) false in
      let sp := solarPotential insights in
      match createSolarPanels sp with
      | Throw e => (st, Throw e)
      | Normal panels =>
          let st := withShapes st panels (roofSegmentPolygons st)
                      (roofSegmentLabels st) in
          let '(shapes, outcome) :=
            drawSegments sp (roofSegmentPolygons st, roofSegmentLabels st)
              (groupPanels (SolarPotential.solarPanels sp)) in
          (withShapes st (solarPanels st) (fst shapes) (snd shapes), outcome)
      end
  end.

(** *** Counting shapes *)

Definition tagged (s : Z) (tag : option Z) : bool :=
  match tag with
  | Some i => (i =? s)%Z
  | None => false
  end.

(** The outlines and the labels that carry the segment index [s]. *)
Definition outlinesOf (s : Z) (polygons : list (Polygon GLatLng GMap))
    : list (Polygon GLatLng GMap) :=
  List.filter (fun p => tagged s (polygonSegmentIndex p)) polygons.

Definition labelsOf (s : Z) (labels : list (Marker num GMap))
    : list (Marker num GMap) :=
  List.filter (fun k => tagged s (markerSegmentIndex k)) labels.

(** Whether some panel lies on segment [s]. *)
Definition hasPanels (sp : SolarPotential.t num) (s : Z) : bool :=
  existsb (fun panel => (SolarPanel.segmentIndex panel =? s)%Z)
    (SolarPotential.solarPanels sp).

(** *** The event loop *)

(** The component and the requests that are in flight. *)
Record System : Type := {
  component : State;
  inFlight : list GLatLng
}.

Inductive step : System -> System -> Prop :=
| step_show : forall sys location st issued,
    showSolarPotential_call (component sys) location = (st, issued) ->
    step sys
      {| component := st;
         inFlight := inFlight sys ++ match issued with
                                     | Some l => [l]
                                     | None => []
                                     end |}
| step_settle : forall sys before location after r st outcome,
    inFlight sys = before ++ location :: after ->
    showSolarPotential_resume (component sys) r = (st, outcome) ->
    step sys {| component := st; inFlight := before ++ after |}
| step_input : forall sys i,
    step sys
      {| component := assign (component sys) i;
         inFlight := inFlight sys |}
| step_react : forall sys,
    step sys
      {| component := react (component sys);
         inFlight := inFlight sys |}
| step_panels : forall sys,
    step sys
      {| component := updatePanelVisibility (component sys);
         inFlight := inFlight sys |}
| step_segments : forall sys,
    step sys
      {| component := updateSegmentVisibility (component sys);
         inFlight := inFlight sys |}.

Inductive reachable (init : State) : System -> Prop :=
| reachable_init :
    reachable init {| component := init; inFlight := [] |}
| reachable_step : forall sys sys',
    reachable init sys -> step sys sys' -> reachable init sys'.

(** Entries of the grouping: distinct keys, and no empty array. *)
Definition grouped (m : JsMap.t (list (SolarPanel.t num))) : Prop :=
  NoDup (JsMap.keys m) /\ forall k v, In (k, v) m -> v <> [].

(** The flag is set exactly while one request is in flight. *)
Definition oneRequest (sys : System) : Prop :=
  (requestSent (component sys) = true /\ exists l, inFlight sys = [l])
  \/ (requestSent (component sys) = false /\ inFlight sys = []).

End Component.

Arguments SetBuildingInsights {num GMap} b.
Arguments SetMap {num GMap} m.
Arguments SetShowPanels {num GMap} b.
Arguments SetDisableAnimation {num GMap} b.
Arguments SetShowSegments {num GMap} b.
Arguments SetSegmentFilter {num GMap} s.
Arguments SetConfigId {num GMap} c.
Arguments SetPanelCapacityWatts {num GMap} w.

(** ** The extents of a segment box *)

(** Whether both extents of the box of some local points reach [minSize]. *)
Definition reachesMinSize {num : Type} `{Number num}
    (relativePositions : list (XY num)) : bool :=
  (minSize <=? width (boundingBox relativePositions))%js
  && (minSize <=? height (boundingBox relativePositions))%js.

(** *** Positions within reach, on doubles *)

(** The farthest a local coordinate is taken to lie from the segment
    centre: [2^25] metres, more than any two points on Earth are apart. *)
Definition reach : double := 0x1p25%float.

Definition nearby (p : XY double) : bool :=
  (PrimFloat.leb (PrimFloat.abs (x p)) reach
   && PrimFloat.leb (PrimFloat.abs (y p)) reach)%bool.

(** One axis of [boundingBox]: the padded and clamped interval of the
    tight interval from [a] to [b]. *)
Definition axis (a b : double) : double * double :=
  ensureMinSize (a - (b - a) * tenth)%js (b + (b - a) * tenth)%js.

(** A finite double of magnitude at most [2^25]. *)
Definition inReach (c : double) : Prop :=
  PrimFloat.is_finite c = true /\ - (33554432) <= toQ c <= 33554432.

(** The distance between opposite sides of a box of doubles, as a number. *)
Definition spanX (b : Box (num := double)) : Q := toQ (maxX b) - toQ (minX b).
Definition spanY (b : Box (num := double)) : Q := toQ (maxY b) - toQ (minY b).

Definition finiteSides (b : Box (num := double)) : bool :=
  (PrimFloat.is_finite (minX b) && PrimFloat.is_finite (maxX b)
   && PrimFloat.is_finite (minY b) && PrimFloat.is_finite (maxY b))%bool.

(** ** Finite inputs on the exact carrier *)

Definition finite (p : Q * Q) : XY xnum :=
  mkXY (XFin (fst p)) (XFin (snd p)).

Definition finiteBox (a b c d : Q) : Box (num := xnum) :=
  {| minX := XFin a; maxX := XFin b; minY := XFin c; maxY := XFin d |}.

(** ** Concrete runs

    Stand-ins for the map SDK and for the trigonometric functions, so that
    the component can be run on doubles.  A point returned by the offset
    primitive is the triple of arguments it was called with. *)

Module Run.

Definition GLatLng : Type := (LatLngLiteral double * double * double)%type.
Definition GMap : Type := unit.

Definition Math_sqrt : double -> double := PrimFloat.sqrt.
Definition Math_atan2 (b a : double) : double := PrimFloat.zero.
Definition Math_sin (a : double) : double := PrimFloat.zero.
Definition Math_cos (a : double) : double := PrimFloat.one.
Definition Math_PI : double := 0x1.921fb54442d18p+1%float.

Definition computeOffset (from : LatLngLiteral double)
    (distance heading : double) : GLatLng :=
  (from, distance, heading).
Definition computeHeading (from to : LatLngLiteral double) : double :=
  PrimFloat.zero.
Definition computeDistanceBetween (from to : LatLngLiteral double) : double :=
  PrimFloat.zero.
Definition palette (i : double) : option string := None.

Definition resume : State GLatLng GMap -> Settled ->
                    State GLatLng GMap * completion unit :=
  showSolarPotential_resume Math_sqrt Math_atan2 Math_sin Math_cos Math_PI
    computeOffset computeHeading computeDistanceBetween palette.

Definition here : LatLng.t double :=
  {| LatLng.latitude := 40%float; LatLng.longitude := (-105)%float |}.

Definition here' : LatLngLiteral double :=
  {| lat := 40%float; lng := (-105)%float |}.

Definition panel (segment : Z) (energy : double) : SolarPanel.t double :=
  {| SolarPanel.center := here;
     SolarPanel.orientation := PORTRAIT;
     SolarPanel.segmentIndex := segment;
     SolarPanel.yearlyEnergyDcKwh := energy |}.

Definition segment (azimuth : double) : RoofSegmentStats.t double :=
  {| RoofSegmentStats.azimuthDegrees := azimuth;
     RoofSegmentStats.center := here |}.

(** A building with [panels] on two roof segments, rated for 250 W panels,
    with one configuration of three panels that yields 1000 kWh a year. *)
Definition building (panels : list (SolarPanel.t double))
    : BuildingInsightsResponse double :=
  {| solarPotential :=
       {| SolarPotential.panelCapacityWatts := 250%float;
          SolarPotential.panelWidthMeters := 1%float;
          SolarPotential.panelHeightMeters := 2%float;
          SolarPotential.solarPanels := panels;
          SolarPotential.roofSegmentStats :=
            [segment 0%float; segment 180%float];
          SolarPotential.solarPanelConfigs :=
            [{| SolarPanelConfig.panelsCount := 3;
                SolarPanelConfig.yearlyEnergyDcKwh := 1000%float |}] |} |}.

Definition threePanels : BuildingInsightsResponse double :=
  building [panel 0 200%float; panel 0 150%float; panel 0 100%float].

Definition noPanels : BuildingInsightsResponse double := building [].

(** The double nearest to [1e308]. *)
Definition huge : double := 0x1.1ccf385ebc8a0p+1023%float.

(** A fresh component. *)
Definition idle : State GLatLng GMap :=
  initialState GLatLng tt 250%float true.

(** The component once [threePanels] has arrived, with the configuration
    selected and 300 W panels chosen. *)
Definition selected : State GLatLng GMap :=
  assign
    (assign (withRequest idle (Some threePanels) None false)
       (SetConfigId (Some 0%Z)))
    (SetPanelCapacityWatts 300%float).

(** The component after one render of [threePanels]. *)
Definition drawn : State GLatLng GMap :=
  fst (resume (fst (showSolarPotential_call idle (here', 0%float, 0%float)))
         (Resolved threePanels)).

End Run.

(** ** The rest of the component *)

(** An [InputBool] switch ([components/InputBool.svelte]). *)
Module InputBool.

Record t : Type := {
  label : string;
  value : bool;
  disabled : bool
}.

(** [onClick]: a disabled switch returns at once; otherwise a timer is set
    whose callback stores [target.selected] in [value] and passes it to
    [onChange].  The result is the value the callback will store and pass
    on, if a callback was scheduled. *)
Definition onClick (c : t) (selected : bool) : option bool :=
  if disabled c then None else Some selected.

End InputBool.

(** The text of a label, [`${segmentIndex}`] (line 344), for an integer
    index: the decimal digits, most significant first, after a minus sign
    when the index is negative; this is what JavaScript prints for an
    integer of magnitude below [1e21].  The fuel is the bit length of the
    number, which bounds its number of decimal digits. *)
Fixpoint decimalDigits (fuel : nat) (n : Z) (tail : jsstring) : jsstring :=
  match fuel with
  | O => tail
  | S fuel' =>
      let d := Z.to_N (48 + n mod 10) in
      if (n <? 10)%Z then d :: tail
      else decimalDigits fuel' (n / 10) (d :: tail)
  end.

Definition toDecimal (n : Z) : jsstring :=
  if (n <? 0)%Z
  then 45%N :: decimalDigits (S (Z.to_nat (Z.log2 (- n)))) (- n) []
  else decimalDigits (S (Z.to_nat (Z.log2 n))) n [].

(** The text of a filter as the field asks for it (lines 466-474): tokens
    with a comma between each two. *)
Fixpoint joinComma (tokens : list jsstring) : jsstring :=
  match tokens with
  | [] => []
  | [token] => token
  | token :: rest => token ++ comma :: joinComma rest
  end.

(** The elements of a list in the order of their first occurrence. *)
Fixpoint firstOccurrences (l : list Z) : list Z :=
  match l with
  | [] => []
  | a :: rest =>
      a :: List.filter (fun b => negb (b =? a)%Z) (firstOccurrences rest)
  end.

Section Markup.

Context {num : Type} `{Number num}.
Variables GLatLng GMap : Type.

Local Open Scope js_scope.

(** Twice the signed area of a polygon of the local frame, by the shoelace
    formula over its edges, the one from the last point back to the first
    included: positive for a counter-clockwise polygon. *)
Definition cross (p q : XY num) : num := x p * y q - x q * y p.

Fixpoint shoelaceFrom (first : XY num) (ring : list (XY num)) : num :=
  match ring with
  | [] => of_Z 0
  | p :: rest =>
      cross p (match rest with q :: _ => q | [] => first end)
      + shoelaceFrom first rest
  end.

Definition twiceArea (ring : list (XY num)) : num :=
  match ring with
  | [] => of_Z 0
  | first :: _ => shoelaceFrom first ring
  end.

(** What the markup shows (lines 378-401): the error card, the progress
    spinner, the controls of the selected configuration, or nothing. *)
Inductive View : Type :=
| ErrorCard (e : RequestError)
| Spinner
| Controls (config : SolarPanelConfig.t num)
| Blank.

Definition view (st : State (num := num) GLatLng GMap) : View :=
  match requestError st with
  | Some e => ErrorCard e
  | None =>
      match buildingInsights st with
      | None => Spinner
      | Some _ =>
          match configId st, panelConfig st with
          | Some _, Some config => Controls config
          | _, _ => Blank
          end
      end
  end.

(** The [max] of the "Yearly energy" gauge (lines 552-553):
    [solarPanelConfigs.slice(-1)[0].yearlyEnergyDcKwh * panelCapacityRatio]. *)
Definition yearlyEnergyGaugeMax (st : State (num := num) GLatLng GMap)
    : completion num :=
  insights <- read (buildingInsights st) (fun i => i) "solarPotential" ;;
  energy <- read (index (slice_last (SolarPotential.solarPanelConfigs
                                       (solarPotential insights))) 0)
              (@SolarPanelConfig.yearlyEnergyDcKwh num)
              "yearlyEnergyDcKwh" ;;
  Normal (energy * panelCapacityRatio st).

(** The three switches of the form (lines 431-463).  The animation switch
    is disabled while the panels are hidden. *)
Inductive Switch : Type :=
| PanelsSwitch
| AnimationSwitch
| SegmentsSwitch.

Definition switch (st : State (num := num) GLatLng GMap) (s : Switch)
    : InputBool.t :=
  match s with
  | PanelsSwitch =>
      {| InputBool.label := "Show Solar Panels";
         InputBool.value := showPanels st;
         InputBool.disabled := false |}
  | AnimationSwitch =>
      {| InputBool.label := "Show All Panels (No Animation)";
         InputBool.value := disableAnimation st;
         InputBool.disabled := negb (showPanels st) |}
  | SegmentsSwitch =>
      {| InputBool.label := "Show Roof Segments";
         InputBool.value := showSegments st;
         InputBool.disabled := false |}
  end.

(** A click on a switch, once the timers it sets have run: the bound
    variable takes the value of the switch and the [onChange] handler has
    run its visibility pass. *)
Definition click (st : State (num := num) GLatLng GMap) (s : Switch)
    (selected : bool)
    : State (num := num) GLatLng GMap :=
  match InputBool.onClick (switch st s) selected with
  | None => st
  | Some v =>
      match s with
      | PanelsSwitch => updatePanelVisibility (assign st (SetShowPanels v))
      | AnimationSwitch =>
          updatePanelVisibility (assign st (SetDisableAnimation v))
      | SegmentsSwitch =>
          updateSegmentVisibility (assign st (SetShowSegments v))
      end
  end.

(** Whether a shape is on the map. *)
Definition onMap (m : option GMap) : bool :=
  match m with
  | Some _ => true
  | None => false
  end.

(** The panels that are on the map. *)
Definition attachedPanels (st : State (num := num) GLatLng GMap)
    : list (Polygon GLatLng GMap) :=
  List.filter (fun p => onMap (getMap p)) (solarPanels st).

(** Outlines and labels go in pairs that carry the same segment index. *)
Definition paired (st : State (num := num) GLatLng GMap) : Prop :=
  List.map (@polygonSegmentIndex _ _) (roofSegmentPolygons st)
  = List.map (@markerSegmentIndex _ _) (roofSegmentLabels st).

(** Nothing is drawn and no error is kept. *)
Definition quiet (st : State (num := num) GLatLng GMap) : Prop :=
  solarPanels st = [] /\ roofSegmentPolygons st = []
  /\ roofSegmentLabels st = [] /\ requestError st = None.

(** While the error card is up, nothing is drawn. *)
Definition errorAlone (st : State (num := num) GLatLng GMap) : Prop :=
  requestError st <> None ->
  solarPanels st = [] /\ roofSegmentPolygons st = []
  /\ roofSegmentLabels st = [].

(** What every reachable state satisfies. *)
Definition settled (sys : System (num := num) GLatLng GMap) : Prop :=
  oneRequest sys
  /\ (requestSent (component sys) = true -> quiet (component sys))
  /\ errorAlone (component sys)
  /\ paired (component sys).

End Markup.

(** ** Auxiliary notions of the statements *)

(** The panels of segment [k], in the order of the panel list. *)
Definition panelsOf {num : Type} (k : Z) (panels : list (SolarPanel.t num))
    : list (SolarPanel.t num) :=
  List.filter (fun panel => (SolarPanel.segmentIndex panel =? k)%Z) panels.

(** An entry that is there, extended by the panels that follow. *)
Definition extended {num : Type}
    (entry : option (list (SolarPanel.t num)))
    (more : list (SolarPanel.t num)) : option (list (SolarPanel.t num)) :=
  match entry, more with
  | None, [] => None
  | None, _ :: _ => Some more
  | Some panels, _ => Some (panels ++ more)
  end.

(** A side of a box is where the fold started or passes through a point. *)
Definition through (coordinate : Q * Q -> Q) (pts : list (Q * Q))
    (start side : Q) : Prop :=
  side = start \/ exists p, In p pts /\ side = coordinate p.

(** ** A short life of the component *)

(** The systems a fresh component goes through when its first request
    fails, and when it brings [threePanels]. *)
Module Trace.

Definition location : Run.GLatLng := (Run.here', 0%float, 0%float).

Definition start : System Run.GLatLng Run.GMap :=
  {| component := Run.idle; inFlight := [] |}.

Definition loading : System Run.GLatLng Run.GMap :=
  {| component := fst (showSolarPotential_call Run.idle location);
     inFlight := [location] |}.

(** The parent writes insights of its own while the request is pending. *)
Definition overwritten : System Run.GLatLng Run.GMap :=
  {| component :=
       assign (component loading) (SetBuildingInsights (Some Run.threePanels));
     inFlight := [location] |}.

Definition failure : RequestError :=
  {| error := {| code := 404; status := "NOT_FOUND";
                 message := "Requested entity was not found." |} |}.

Definition failed : System Run.GLatLng Run.GMap :=
  {| component := fst (Run.resume (component loading) (Rejected failure));
     inFlight := [] |}.

Definition rendered : System Run.GLatLng Run.GMap :=
  {| component :=
       fst (Run.resume (component loading) (Resolved Run.threePanels));
     inFlight := [] |}.

(** The rendered component with the segments switched off. *)
Definition hidden : State Run.GLatLng Run.GMap :=
  assign (component rendered) (SetShowSegments false).

(** A building one of whose panels names a segment that is not there. *)
Definition strayPanel : BuildingInsightsResponse double :=
  Run.building [Run.panel 0 200%float; Run.panel 7 150%float].

End Trace.

(** * Properties *)

(** ** Lists and completions *)

Lemma nth_error_mapi_from {A B} (f : A -> nat -> B) (xs : list A) :
  forall k i,
    nth_error (mapi_from k f xs) i
    = option_map (fun a => f a (k + i)%nat) (nth_error xs i).
Proof.
  induction xs as [|a xs IH]; intros k i.
  - destruct i; reflexivity.
  - destruct i as [|i]; cbn.
    + now rewrite Nat.add_0_r.
    + rewrite IH. now rewrite Nat.add_succ_r.
Qed.

Lemma nth_error_mapi {A B} (f : A -> nat -> B) (xs : list A) (i : nat) :
  nth_error (mapi f xs) i = option_map (fun a => f a i) (nth_error xs i).
Proof. unfold mapi. now rewrite nth_error_mapi_from. Qed.

Lemma index_Some {A} (xs : list A) (i : Z) :
  (0 <= i < Z.of_nat (List.length xs))%Z ->
  exists a, index xs i = Some a.
Proof.
  intros Hi. unfold index.
  destruct (Z.ltb_spec i 0) as [Hneg|_]; [lia|].
  destruct (nth_error xs (Z.to_nat i)) as [a|] eqn:E; [now exists a|].
  apply nth_error_None in E. lia.
Qed.

Lemma index_None {A} (xs : list A) (i : Z) :
  ~ (0 <= i < Z.of_nat (List.length xs))%Z ->
  index xs i = None.
Proof.
  intros Hi. unfold index.
  destruct (Z.ltb_spec i 0) as [Hneg|Hpos]; [reflexivity|].
  apply nth_error_None. lia.
Qed.

Lemma index_inv {A} (xs : list A) (i : Z) (a : A) :
  index xs i = Some a ->
  (0 <= i < Z.of_nat (List.length xs))%Z /\ In a xs.
Proof.
  unfold index. destruct (Z.ltb_spec i 0) as [Hneg|Hpos]; [discriminate|].
  intros E. split.
  - assert (Z.to_nat i < List.length xs)%nat
      by (apply nth_error_Some; congruence).
    lia.
  - eapply nth_error_In; eassumption.
Qed.

Lemma mapM_Normal {A B} (f : A -> completion B) (xs : list A) :
  (forall a, In a xs -> exists b, f a = Normal b) ->
  exists bs, mapM f xs = Normal bs /\ List.length bs = List.length xs.
Proof.
  induction xs as [|a xs IH]; intros Hf.
  - exists []. split; reflexivity.
  - destruct (Hf a (or_introl eq_refl)) as [b Hb].
    destruct IH as [bs [Hbs Hlen]].
    { intros a' Ha'. apply Hf. now right. }
    exists (b :: bs). cbn. rewrite Hb. cbn. rewrite Hbs. cbn.
    split; [reflexivity | now rewrite Hlen].
Qed.

Lemma mapM_Throw {A B} (f : A -> completion B) (xs : list A) (a : A) e :
  In a xs -> f a = Throw e ->
  exists e', mapM f xs = Throw e'.
Proof.
  induction xs as [|a0 xs IH]; intros Hin Hthrow; [contradiction|].
  cbn. destruct (f a0) as [b|e0] eqn:E0; cbn; [|now exists e0].
  destruct Hin as [->|Hin]; [congruence|].
  destruct (IH Hin Hthrow) as [e' ->]. cbn. now exists e'.
Qed.

Section ComponentFacts.

Context {num : Type} `{Number num}.
Variables GLatLng GMap : Type.
Variable Math_sqrt : num -> num.
Variable Math_atan2 : num -> num -> num.
Variable Math_sin : num -> num.
Variable Math_cos : num -> num.
Variable Math_PI : num.
Variable computeOffset : LatLngLiteral num -> num -> num -> GLatLng.
Variable computeHeading : LatLngLiteral num -> LatLngLiteral num -> num.
Variable computeDistanceBetween : LatLngLiteral num -> LatLngLiteral num -> num.
Variable palette : num -> option string.

Local Abbreviation State' := (State (num := num) GLatLng GMap).
Local Abbreviation panelPolygon' :=
  (panelPolygon GMap Math_sqrt Math_atan2 Math_PI computeOffset palette).
Local Abbreviation createSolarPanels' :=
  (createSolarPanels GMap Math_sqrt Math_atan2 Math_PI computeOffset palette).
Local Abbreviation drawSegment' :=
  (drawSegment (GMap := GMap) Math_sqrt Math_atan2 Math_sin Math_cos Math_PI
     computeOffset computeHeading computeDistanceBetween).
Local Abbreviation drawSegments' :=
  (drawSegments (GMap := GMap) Math_sqrt Math_atan2 Math_sin Math_cos Math_PI
     computeOffset computeHeading computeDistanceBetween).
Local Abbreviation resume' :=
  (showSolarPotential_resume (GMap := GMap) Math_sqrt Math_atan2 Math_sin
     Math_cos Math_PI computeOffset computeHeading computeDistanceBetween
     palette).

(** ** The azimuth lookup *)

(** C4.  The azimuth of a segment is read as
    [roofSegmentStats[i].azimuthDegrees] with no guard on [i].  For an index
    inside the array the read succeeds, in the panel pass and in the segment
    pass alike; for an index outside it both passes end in the [TypeError]
    of a property read on [undefined], not in an error of their own. *)
Theorem azimuth_lookup_unguarded
    (sp : SolarPotential.t num) (maxEnergy minEnergy : num)
    (panel : SolarPanel.t num) (panels : list (SolarPanel.t num))
    (shapes : Shapes GLatLng GMap) (i : Z) :
  SolarPanel.segmentIndex panel = i ->
  (validSegment sp i ->
     exists seg,
       index (SolarPotential.roofSegmentStats sp) i = Some seg
       /\ azimuthOf (SolarPotential.roofSegmentStats sp) i
          = Normal (RoofSegmentStats.azimuthDegrees seg)
       /\ (exists polygon, panelPolygon' sp maxEnergy minEnergy panel
                           = Normal polygon)
       /\ (exists shapes', drawSegment' sp shapes (i, panels)
                           = Normal shapes'))
  /\ (~ validSegment sp i ->
        azimuthOf (SolarPotential.roofSegmentStats sp) i
        = Throw (TypeError "azimuthDegrees")
        /\ panelPolygon' sp maxEnergy minEnergy panel
           = Throw (TypeError "azimuthDegrees")
        /\ drawSegment' sp shapes (i, panels)
           = Throw (TypeError "azimuthDegrees")).
Proof.
  intros Hidx. split; intros Hi.
  - destruct (index_Some _ Hi) as [seg Hseg].
    exists seg. unfold azimuthOf. rewrite Hseg. cbn.
    repeat split.
    + unfold panelPolygon, azimuthOf. rewrite Hidx, Hseg. cbn.
      eexists. reflexivity.
    + unfold drawSegment. rewrite Hseg. cbn.
      destruct panels; cbn; eexists; reflexivity.
  - pose proof (index_None _ Hi) as Hnone.
    unfold panelPolygon, drawSegment, azimuthOf.
    rewrite Hidx, Hnone. cbn. repeat split.
Qed.

(** ** A building without panels *)

(** C9.  With an empty panel list, [solarPanels.slice(-1)[0]] is
    [undefined] and reading its [yearlyEnergyDcKwh] throws: the render does
    not finish with fewer shapes, it ends in a [TypeError], after the
    insights were stored and the request flag was cleared. *)
Theorem zero_panels_throw
    (st : State') (insights : BuildingInsightsResponse num) :
  SolarPotential.solarPanels (solarPotential insights) = [] ->
  resume' st (Resolved insights)
  = (withRequest st (Some insights) (requestError st) false,
     Throw (TypeError "yearlyEnergyDcKwh")).
Proof.
  intros Hempty. unfold showSolarPotential_resume, createSolarPanels.
  rewrite Hempty. reflexivity.
Qed.

(** ** Panel visibility *)

Lemma getMap_setMap (p : Polygon GLatLng GMap) (m : option GMap) :
  getMap (setMap p m) = m.
Proof. reflexivity. Qed.

Lemma attach_Some (st : State') (b : bool) :
  attach st b = Some (theMap st) <-> b = true.
Proof. unfold attach. destruct b; split; congruence. Qed.

(** C10.  After [updatePanelVisibility], the panel at index [i] is the same
    polygon, attached to the map or detached.  Without animation it is
    attached iff [showPanels] is set; with animation and a selected
    configuration, iff [showPanels] is set and [i < panelsCount]; with
    animation and no configuration it is detached. *)
Theorem panel_visibility
    (st : State') (i : nat) (panel : Polygon GLatLng GMap) :
  nth_error (solarPanels st) i = Some panel ->
  exists shown : bool,
    nth_error (solarPanels (updatePanelVisibility st)) i
    = Some (setMap panel (if shown then Some (theMap st) else None))
    /\ (disableAnimation st = true -> (shown = true <-> showPanels st = true))
    /\ (disableAnimation st = false ->
        forall config, panelConfig st = Some config ->
          (shown = true <->
           showPanels st = true
           /\ (Z.of_nat i < SolarPanelConfig.panelsCount config)%Z))
    /\ (disableAnimation st = false -> panelConfig st = None ->
        shown = false).
Proof using Type.
  intros Hnth. exists (panelShown st i). split.
  - unfold updatePanelVisibility.
    destruct (solarPanels st) as [|p ps] eqn:E.
    + destruct i; discriminate.
    + cbn [List.length Nat.eqb solarPanels withShapes].
      rewrite nth_error_mapi, Hnth. reflexivity.
  - unfold panelShown. split; [|split].
    + intros ->. reflexivity.
    + intros -> config ->. rewrite andb_true_iff, Z.ltb_lt. reflexivity.
    + intros -> ->. apply andb_false_r.
Qed.

(** ** Capacity scaling *)

Lemma gauge_after_react
    (st : State') (insights : BuildingInsightsResponse num) (c : Z)
    (config : SolarPanelConfig.t num) :
  requestError st = None ->
  buildingInsights st = Some insights ->
  configId st = Some c ->
  index (SolarPotential.solarPanelConfigs (solarPotential insights)) c
  = Some config ->
  yearlyEnergyGauge (react st)
  = Some (SolarPanelConfig.yearlyEnergyDcKwh config
          * (panelCapacityWatts st
             / SolarPotential.panelCapacityWatts (solarPotential insights)))%js.
Proof.
  intros He Hb Hc Hconfig. unfold react, yearlyEnergyGauge.
  rewrite Hb, Hc, Hconfig. cbn. rewrite He, Hb, Hc. reflexivity.
Qed.

(** ** One request at a time *)

Local Abbreviation call' :=
  (showSolarPotential_call (num := num) (GLatLng := GLatLng) (GMap := GMap)).
Local Abbreviation step' :=
  (step (GMap := GMap) Math_sqrt Math_atan2 Math_sin Math_cos Math_PI
     computeOffset computeHeading computeDistanceBetween palette).
Local Abbreviation reachable' :=
  (reachable (GMap := GMap) Math_sqrt Math_atan2 Math_sin Math_cos Math_PI
     computeOffset computeHeading computeDistanceBetween palette).

Lemma call_while_sent (st : State') (location : GLatLng) :
  requestSent st = true ->
  call' st location = (st, None).
Proof. intros Hsent. unfold showSolarPotential_call. now rewrite Hsent. Qed.

Lemma call_when_idle (st : State') (location : GLatLng) :
  requestSent st = false ->
  exists st',
    call' st location = (st', Some location)
    /\ requestSent st' = true
    /\ solarPanels st' = []
    /\ roofSegmentPolygons st' = []
    /\ roofSegmentLabels st' = [].
Proof.
  intros Hidle. unfold showSolarPotential_call. rewrite Hidle.
  eexists. split; [reflexivity|]. cbn. repeat split.
Qed.

Lemma resume_clears_flag (st : State') (r : Settled) :
  requestSent (fst (resume' st r)) = false.
Proof.
  unfold showSolarPotential_resume. destruct r as [insights|e]; cbn.
  - destruct (createSolarPanels' (solarPotential insights)) as [panels|e];
      cbn; [|reflexivity].
    destruct (drawSegments _ _ _ _ _ _ _ _ _ _ _) as [shapes outcome].
    reflexivity.
  - reflexivity.
Qed.

Lemma requestSent_updatePanelVisibility (st : State') :
  requestSent (updatePanelVisibility st) = requestSent st.
Proof.
  unfold updatePanelVisibility.
  destruct (List.length (solarPanels st) =? 0)%nat; reflexivity.
Qed.

Lemma requestSent_updateSegmentVisibility (st : State') :
  requestSent (updateSegmentVisibility st) = requestSent st.
Proof.
  unfold updateSegmentVisibility.
  destruct (List.length (roofSegmentPolygons st) =? 0)%nat; reflexivity.
Qed.

Lemma requestSent_react (st : State') :
  requestSent (react st) = requestSent st.
Proof. unfold react. destruct (buildingInsights st); reflexivity. Qed.

Lemma oneRequest_step sys sys' :
  oneRequest sys -> step' sys sys' -> oneRequest sys'.
Proof.
  intros Inv Hstep.
  destruct Hstep as [sys location st issued Hcall
                    |sys before location after r st outcome Hfly Hresume
                    |sys i|sys|sys|sys]; unfold oneRequest in *; cbn.
  - destruct Inv as [[Hsent [l Hl]]|[Hidle Hnone]].
    + rewrite (call_while_sent _ location Hsent) in Hcall.
      injection Hcall as <- <-. left. split; [exact Hsent|].
      exists l. rewrite Hl. reflexivity.
    + destruct (call_when_idle _ location Hidle) as [st' [Hc [Hs _]]].
      rewrite Hc in Hcall. injection Hcall as <- <-.
      left. split; [exact Hs|]. exists location. now rewrite Hnone.
  - right. split.
    + pose proof (resume_clears_flag (component sys) r) as Hclear.
      now rewrite Hresume in Hclear.
    + destruct Inv as [[_ [l Hl]]|[_ Hnone]].
      * rewrite Hl in Hfly.
        destruct before as [|b before].
        -- injection Hfly as _ <-. reflexivity.
        -- destruct before; discriminate.
      * rewrite Hnone in Hfly. destruct before; discriminate.
  - destruct i; exact Inv.
  - rewrite requestSent_react. exact Inv.
  - rewrite requestSent_updatePanelVisibility. exact Inv.
  - rewrite requestSent_updateSegmentVisibility. exact Inv.
Qed.

Lemma oneRequest_reachable (init : State') sys :
  requestSent init = false ->
  reachable' init sys -> oneRequest sys.
Proof.
  intros Hidle Hreach. induction Hreach as [|sys sys' _ IH Hstep].
  - right. split; [exact Hidle | reflexivity].
  - eapply oneRequest_step; eassumption.
Qed.

(** C8.  While [requestSent] is set, a call of [showSolarPotential] returns
    at once: the state, shapes included, is unchanged and no request is
    issued.  Whether the request resolves or fails, and whether or not the
    drawing that follows throws, the flag is cleared.  From an idle
    component the event loop therefore never has two requests in flight,
    and the flag is set exactly while one is. *)
Theorem at_most_one_request
    (init : State') (sys : System (num := num) GLatLng GMap) :
  requestSent init = false ->
  reachable' init sys ->
  (List.length (inFlight sys) <= 1)%nat
  /\ (requestSent (component sys) = true <-> inFlight sys <> [])
  /\ (requestSent (component sys) = true ->
      forall location,
        call' (component sys) location = (component sys, None))
  /\ (forall r, requestSent (fst (resume' (component sys) r)) = false).
Proof.
  intros Hidle Hreach.
  pose proof (oneRequest_reachable Hidle Hreach) as Inv.
  repeat split.
  - destruct Inv as [[_ [l ->]]|[_ ->]]; cbn; lia.
  - destruct Inv as [[_ [l ->]]|[Hf _]]; congruence.
  - destruct Inv as [[Hs _]|[_ ->]]; congruence.
  - intros Hsent location. now apply call_while_sent.
  - intros r. apply resume_clears_flag.
Qed.

(** ** Segment outlines *)

Lemma JsMap_has_In {V} (m : JsMap.t V) (k : Z) :
  JsMap.has m k = true <-> In k (JsMap.keys m).
Proof.
  unfold JsMap.has. induction m as [|[k' v'] m IH]; cbn.
  - split; [discriminate | contradiction].
  - destruct (Z.eqb_spec k' k) as [->|Hne].
    + split; [now left | reflexivity].
    + rewrite IH. split; [now right|].
      intros [E|Hin]; [contradiction | exact Hin].
Qed.

Lemma JsMap_set_absent {V} (m : JsMap.t V) (k : Z) (v : V) :
  JsMap.has m k = false -> JsMap.set m k v = m ++ [(k, v)].
Proof.
  unfold JsMap.has. induction m as [|[k' v'] m IH]; cbn; [reflexivity|].
  destruct (Z.eqb_spec k' k) as [->|Hne]; [discriminate|].
  intros Habs. now rewrite IH.
Qed.

Lemma JsMap_update_last {V} (m : JsMap.t V) (k : Z) (v : V) (f : V -> V) :
  JsMap.has m k = false ->
  JsMap.update (m ++ [(k, v)]) k f = m ++ [(k, f v)].
Proof.
  unfold JsMap.has. induction m as [|[k' v'] m IH]; cbn.
  - now rewrite Z.eqb_refl.
  - destruct (Z.eqb_spec k' k) as [->|Hne]; [discriminate|].
    intros Habs. now rewrite IH.
Qed.

Lemma JsMap_keys_update {V} (m : JsMap.t V) (k : Z) (f : V -> V) :
  JsMap.keys (JsMap.update m k f) = JsMap.keys m.
Proof.
  unfold JsMap.keys. induction m as [|[k' v'] m IH]; cbn; [reflexivity|].
  destruct (k' =? k)%Z; cbn; [reflexivity | now rewrite IH].
Qed.

Lemma JsMap_In_update {V} (m : JsMap.t V) (k : Z) (f : V -> V) k' v' :
  In (k', v') (JsMap.update m k f) ->
  In (k', v') m \/ exists v, v' = f v.
Proof.
  induction m as [|[k0 v0] m IH]; cbn; [contradiction|].
  destruct (k0 =? k)%Z; cbn.
  - intros [E|Hin]; [right; exists v0; congruence | left; now right].
  - intros [E|Hin]; [left; now left|].
    destruct (IH Hin) as [Hm|Hf]; [left; now right | now right].
Qed.

Lemma keys_addPanel m (panel : SolarPanel.t num) :
  JsMap.keys (addPanel m panel)
  = if JsMap.has m (SolarPanel.segmentIndex panel) then JsMap.keys m
    else JsMap.keys m ++ [SolarPanel.segmentIndex panel].
Proof.
  unfold addPanel.
  destruct (JsMap.has m (SolarPanel.segmentIndex panel)) eqn:Hhas;
    cbn [negb].
  - apply JsMap_keys_update.
  - rewrite JsMap_keys_update, JsMap_set_absent by exact Hhas.
    unfold JsMap.keys. now rewrite map_app.
Qed.

Lemma grouped_addPanel m (panel : SolarPanel.t num) :
  grouped m -> grouped (addPanel m panel).
Proof.
  intros [Hnodup Hfull]. split.
  - rewrite keys_addPanel.
    destruct (JsMap.has m (SolarPanel.segmentIndex panel)) eqn:Hhas;
      [exact Hnodup|].
    apply NoDup_app; [exact Hnodup | repeat constructor; intros [] |].
    intros k Hk [<-|[]].
    apply JsMap_has_In in Hk. congruence.
  - intros k v. unfold addPanel.
    destruct (JsMap.has m (SolarPanel.segmentIndex panel)) eqn:Hhas;
      cbn [negb].
    + intros Hin. destruct (JsMap_In_update _ _ _ _ _ Hin) as [Hm|[v0 ->]].
      * eapply Hfull; eassumption.
      * now destruct v0.
    + rewrite JsMap_set_absent, JsMap_update_last by exact Hhas.
      intros Hin. apply in_app_or in Hin. destruct Hin as [Hm|[E|[]]].
      * eapply Hfull; eassumption.
      * injection E as _ <-. discriminate.
Qed.

Lemma grouped_fold (panels : list (SolarPanel.t num)) :
  forall m, grouped m -> grouped (fold_left addPanel panels m).
Proof.
  induction panels as [|panel panels IH]; intros m Hm; cbn; [exact Hm|].
  apply IH, grouped_addPanel, Hm.
Qed.

Lemma keys_fold (panels : list (SolarPanel.t num)) :
  forall m k,
    In k (JsMap.keys (fold_left addPanel panels m))
    <-> In k (JsMap.keys m)
        \/ exists panel, In panel panels /\ SolarPanel.segmentIndex panel = k.
Proof.
  induction panels as [|panel panels IH]; intros m k; cbn [fold_left].
  - split; [now left | intros [Hk|[p [[] _]]]; exact Hk].
  - rewrite IH, keys_addPanel.
    assert (Hstep :
      In k (if JsMap.has m (SolarPanel.segmentIndex panel)
            then JsMap.keys m
            else JsMap.keys m ++ [SolarPanel.segmentIndex panel])
      <-> In k (JsMap.keys m) \/ SolarPanel.segmentIndex panel = k).
    { destruct (JsMap.has m (SolarPanel.segmentIndex panel)) eqn:Hhas.
      - split; [now left|]. intros [Hk| <-]; [exact Hk|].
        now apply JsMap_has_In.
      - rewrite in_app_iff. cbn. split.
        + intros [Hk|[E|[]]]; [now left | now right].
        + intros [Hk|E]; [now left | right; now left]. }
    rewrite Hstep. split.
    + intros [[Hk|E]|[p [Hp E]]].
      * now left.
      * right. exists panel. split; [now left | exact E].
      * right. exists p. split; [now right | exact E].
    + intros [Hk|[p [[->|Hp] E]]].
      * left. now left.
      * left. now right.
      * right. exists p. split; assumption.
Qed.

Lemma groupPanels_grouped (panels : list (SolarPanel.t num)) :
  grouped (groupPanels panels).
Proof.
  apply grouped_fold. split; [constructor | intros k v []].
Qed.

Lemma groupPanels_keys (sp : SolarPotential.t num) (s : Z) :
  In s (JsMap.keys (groupPanels (SolarPotential.solarPanels sp)))
  <-> hasPanels sp s = true.
Proof.
  unfold groupPanels, hasPanels. rewrite keys_fold, existsb_exists. cbn.
  split.
  - intros [[]|[p [Hp E]]]. exists p. split; [exact Hp | now apply Z.eqb_eq].
  - intros [p [Hp E]]. right. exists p. split; [exact Hp | now apply Z.eqb_eq].
Qed.

Lemma drawSegment_empty (sp : SolarPotential.t num)
    (shapes : Shapes (num := num) GLatLng GMap) (k : Z) :
  validSegment sp k ->
  drawSegment' sp shapes (k, []) = Normal shapes.
Proof.
  intros Hk. destruct (index_Some _ Hk) as [seg Hseg].
  unfold drawSegment. rewrite Hseg. reflexivity.
Qed.

Lemma drawSegment_full (sp : SolarPotential.t num)
    (shapes : Shapes (num := num) GLatLng GMap) (k : Z)
    (panels : list (SolarPanel.t num)) :
  validSegment sp k -> panels <> [] ->
  exists polygon label,
    drawSegment' sp shapes (k, panels)
    = Normal (fst shapes ++ [polygon], snd shapes ++ [label])
    /\ polygonSegmentIndex polygon = Some k
    /\ markerSegmentIndex label = Some k.
Proof.
  intros Hk Hfull. destruct (index_Some _ Hk) as [seg Hseg].
  unfold drawSegment. rewrite Hseg.
  destruct panels as [|panel panels]; [contradiction|].
  cbn. eexists. eexists. split; [reflexivity|]. split; reflexivity.
Qed.

Lemma drawSegments_grouped (sp : SolarPotential.t num)
    (entries : JsMap.t (list (SolarPanel.t num))) :
  (forall k v, In (k, v) entries -> validSegment sp k /\ v <> []) ->
  forall shapes : Shapes (num := num) GLatLng GMap,
  exists polygons labels,
    drawSegments' sp shapes entries
    = ((fst shapes ++ polygons, snd shapes ++ labels), Normal tt)
    /\ List.map (@polygonSegmentIndex _ _) polygons
       = List.map Some (JsMap.keys entries)
    /\ List.map (@markerSegmentIndex _ _) labels
       = List.map Some (JsMap.keys entries).
Proof.
  induction entries as [|[k v] entries IH]; intros Hentries shapes.
  - exists [], []. cbn. rewrite !app_nil_r.
    destruct shapes; repeat split.
  - destruct (Hentries k v (or_introl eq_refl)) as [Hk Hv].
    destruct (drawSegment_full shapes Hk Hv) as [p [l [Hdraw [Hp Hl]]]].
    destruct (IH (fun k' v' Hin => Hentries k' v' (or_intror Hin))
                 (fst shapes ++ [p], snd shapes ++ [l]))
      as [ps [ls [Hrest [Hps Hls]]]].
    exists (p :: ps), (l :: ls).
    cbn [drawSegments]. rewrite Hdraw, Hrest. cbn.
    rewrite <- !app_assoc, Hp, Hl, Hps, Hls. repeat split.
Qed.

Lemma length_filter_map {A B} (f : A -> B) (test : B -> bool) (xs : list A) :
  List.length (List.filter (fun a => test (f a)) xs)
  = List.length (List.filter test (List.map f xs)).
Proof.
  induction xs as [|a xs IH]; cbn; [reflexivity|].
  destruct (test (f a)); cbn; now rewrite IH.
Qed.

Lemma tagged_once (s : Z) (keys : list Z) (b : bool) :
  NoDup keys -> (In s keys <-> b = true) ->
  List.length (List.filter (tagged s) (List.map Some keys))
  = if b then 1%nat else 0%nat.
Proof.
  intros Hnodup. revert b.
  induction Hnodup as [|k keys Hfresh Hnodup IH]; intros b Hb; cbn.
  - destruct b; [|reflexivity]. now destruct (proj2 Hb eq_refl).
  - destruct (Z.eqb_spec k s) as [->|Hne]; cbn.
    + rewrite (IH false).
      * destruct b; [reflexivity|].
        assert (false = true) by (apply Hb; now left). discriminate.
      * split; [contradiction | discriminate].
    + apply IH. rewrite <- Hb. cbn. split; [now right|].
      intros [E|Hin]; [contradiction | exact Hin].
Qed.

Lemma slice_last_head {A} (xs : list A) :
  xs <> [] -> exists a, index (slice_last xs) 0 = Some a.
Proof.
  intros Hfull. apply index_Some. unfold slice_last.
  rewrite length_skipn. destruct xs; [contradiction | cbn [List.length]; lia].
Qed.

Lemma createSolarPanels_Normal (sp : SolarPotential.t num) :
  SolarPotential.solarPanels sp <> [] ->
  (forall panel, In panel (SolarPotential.solarPanels sp) ->
                 validSegment sp (SolarPanel.segmentIndex panel)) ->
  exists polygons,
    createSolarPanels' sp = Normal polygons
    /\ List.length polygons = List.length (SolarPotential.solarPanels sp).
Proof.
  intros Hfull Hvalid. unfold createSolarPanels.
  destruct (slice_last_head Hfull) as [lastPanel ->].
  destruct (SolarPotential.solarPanels sp) as [|first rest] eqn:E;
    [contradiction|].
  cbn [index Z.ltb Z.compare Z.to_nat nth_error read bind].
  apply mapM_Normal. intros panel Hin.
  destruct (index_Some _ (Hvalid panel Hin)) as [seg Hseg].
  unfold panelPolygon, azimuthOf. rewrite Hseg. cbn. eexists. reflexivity.
Qed.

Lemma segment_stage (sp : SolarPotential.t num) :
  (forall panel, In panel (SolarPotential.solarPanels sp) ->
                 validSegment sp (SolarPanel.segmentIndex panel)) ->
  exists polygons labels,
    drawSegments' sp ([], []) (groupPanels (SolarPotential.solarPanels sp))
    = ((polygons, labels), Normal tt)
    /\ forall s,
         List.length (outlinesOf s polygons)
         = (if hasPanels sp s then 1 else 0)%nat
         /\ List.length (labelsOf s labels)
            = (if hasPanels sp s then 1 else 0)%nat.
Proof.
  intros Hvalid.
  pose proof (groupPanels_grouped (SolarPotential.solarPanels sp))
    as [Hnodup Hnonempty].
  assert (Hentries : forall k v,
             In (k, v) (groupPanels (SolarPotential.solarPanels sp)) ->
             validSegment sp k /\ v <> []).
  { intros k v Hin. split; [|eapply Hnonempty; eassumption].
    assert (Hk : In k (JsMap.keys
                         (groupPanels (SolarPotential.solarPanels sp))))
      by (apply (in_map fst) in Hin; exact Hin).
    apply groupPanels_keys in Hk. unfold hasPanels in Hk.
    apply existsb_exists in Hk. destruct Hk as [panel [Hin' E]].
    apply Z.eqb_eq in E. subst k. now apply Hvalid. }
  destruct (drawSegments_grouped _ Hentries ([], []))
    as [polygons [labels [Hdraw [Htags Hmarks]]]].
  exists polygons, labels. split; [exact Hdraw|].
  intros s. unfold outlinesOf, labelsOf.
  rewrite (length_filter_map (@polygonSegmentIndex _ _) (tagged s)),
          (length_filter_map (@markerSegmentIndex _ _) (tagged s)),
          Htags, Hmarks.
  split; apply tagged_once; try exact Hnodup; apply groupPanels_keys.
Qed.

(** C6.  For panels whose segment indices are valid, the grouping and the
    loop over its entries end normally.  A segment with no panel on it,
    whether or not it is listed in [roofSegmentStats], gets no outline and
    no label; a segment with at least one panel gets exactly one outline and
    one label.  The loop body itself, given an empty panel array, pushes
    nothing and does not throw.  When the building has a panel, a render
    from the call on ends normally with these shapes as the segment
    shapes of the component. *)
Theorem segment_outlines (sp : SolarPotential.t num) :
  (forall panel, In panel (SolarPotential.solarPanels sp) ->
                 validSegment sp (SolarPanel.segmentIndex panel)) ->
  exists polygons labels,
    drawSegments' sp ([], []) (groupPanels (SolarPotential.solarPanels sp))
    = ((polygons, labels), Normal tt)
    /\ (forall s,
          List.length (outlinesOf s polygons)
          = (if hasPanels sp s then 1 else 0)%nat
          /\ List.length (labelsOf s labels)
             = (if hasPanels sp s then 1 else 0)%nat)
    /\ (forall s shapes,
          validSegment sp s -> drawSegment' sp shapes (s, []) = Normal shapes)
    /\ (forall (st : State') location insights,
          solarPotential insights = sp ->
          requestSent st = false ->
          SolarPotential.solarPanels sp <> [] ->
          exists st',
            resume' (fst (call' st location)) (Resolved insights)
            = (st', Normal tt)
            /\ roofSegmentPolygons st' = polygons
            /\ roofSegmentLabels st' = labels).
Proof.
  intros Hvalid.
  destruct (segment_stage Hvalid) as [polygons [labels [Hdraw Hcount]]].
  exists polygons, labels. split; [exact Hdraw|]. split; [exact Hcount|].
  split.
  - intros s shapes Hs. now apply drawSegment_empty.
  - intros st location insights Hsp Hidle Hfull.
    destruct (call_when_idle st location Hidle)
      as [st1 [Hcall [_ [_ [Hpolys Hlabels]]]]].
    rewrite Hcall. cbn [fst].
    destruct (createSolarPanels_Normal Hfull Hvalid) as [panels [Hpanels _]].
    unfold showSolarPotential_resume. rewrite Hsp, Hpanels.
    cbn [roofSegmentPolygons roofSegmentLabels withShapes withRequest].
    rewrite Hpolys, Hlabels, Hdraw. cbn [fst snd].
    eexists. split; [reflexivity|]. split; reflexivity.
Qed.

End ComponentFacts.

(** ** The segment filter *)

Lemma split_comma_nonempty (s : jsstring) : split_comma s <> [].
Proof.
  destruct s as [|c s]; cbn; [discriminate|].
  destruct (c =? comma)%N; [discriminate|].
  destruct (split_comma s); discriminate.
Qed.

(** Tokens on both sides of a comma are split independently. *)
Lemma split_comma_app (a b : jsstring) :
  split_comma (a ++ comma :: b) = split_comma a ++ split_comma b.
Proof.
  induction a as [|c a IH]; cbn.
  - reflexivity.
  - destruct (c =? comma)%N; rewrite IH; [reflexivity|].
    pose proof (split_comma_nonempty a) as Hne.
    destruct (split_comma a); [contradiction | reflexivity].
Qed.

(** A token holds no comma. *)
Lemma split_comma_token (t : jsstring) :
  ~ In comma t -> split_comma t = [t].
Proof.
  induction t as [|c t IH]; intros Hfree; cbn; [reflexivity|].
  destruct (N.eqb_spec c comma) as [->|Hne].
  - exfalso. apply Hfree. now left.
  - rewrite IH; [reflexivity|]. intros Hin. apply Hfree. now right.
Qed.

Lemma forallb_trimStart (s : jsstring) :
  forallb isWhiteSpace (trimStart s) = forallb isWhiteSpace s.
Proof.
  induction s as [|c s IH]; cbn; [reflexivity|].
  destruct (isWhiteSpace c) eqn:E; cbn; [exact IH | now rewrite E].
Qed.

Lemma trimStart_nil (s : jsstring) :
  trimStart s = [] <-> forallb isWhiteSpace s = true.
Proof.
  induction s as [|c s IH]; cbn; [tauto|].
  destruct (isWhiteSpace c); cbn; [exact IH|].
  split; discriminate.
Qed.

Lemma forallb_rev {A} (f : A -> bool) (xs : list A) :
  forallb f (rev xs) = forallb f xs.
Proof.
  induction xs as [|a xs IH]; cbn; [reflexivity|].
  rewrite forallb_app, IH. cbn. rewrite andb_true_r. apply andb_comm.
Qed.

(** A string trims to the empty string exactly when it is blank. *)
Lemma trim_nil (s : jsstring) :
  trim s = [] <-> forallb isWhiteSpace s = true.
Proof.
  unfold trim, trimEnd.
  rewrite <- (forallb_trimStart s), <- (forallb_rev _ (trimStart s)),
          <- trimStart_nil.
  split; intros E.
  - apply (f_equal (@rev N)) in E. now rewrite rev_involutive in E.
  - now rewrite E.
Qed.

Lemma includes_In (numbers : list jsint) (i : Z) :
  includes numbers (Some i) = true <-> In (Int i) numbers.
Proof.
  unfold includes. rewrite existsb_exists. split.
  - intros [[|z] [Hin E]]; [discriminate|].
    apply Z.eqb_eq in E. now subst z.
  - intros Hin. exists (Int i). split; [exact Hin | apply Z.eqb_refl].
Qed.

(** The numbers of a filter are the integers its tokens parse to. *)
Lemma segmentNumbers_spec (filter : jsstring) (numbers : list jsint) :
  segmentNumbers filter = Some numbers ->
  ~ In NaN numbers
  /\ forall z, In (Int z) numbers
               <-> exists token, In token (split_comma filter)
                                 /\ parseInt (trim token) = Int z.
Proof.
  unfold segmentNumbers. destruct (trim filter); [discriminate|].
  intros E. injection E as <-. split.
  - intros Hin. apply filter_In in Hin. now destruct Hin.
  - intros z. rewrite filter_In, in_map_iff. cbn. split.
    + intros [[token [E Hin]] _]. now exists token.
    + intros [token [Hin E]]. split; [now exists token | reflexivity].
Qed.

Lemma segmentNumbers_skip (a t b : jsstring) :
  ~ In comma t -> parseInt (trim t) = NaN ->
  segmentNumbers (a ++ comma :: t ++ comma :: b)
  = segmentNumbers (a ++ comma :: b).
Proof.
  intros Hfree Hnan.
  assert (Hfull : forall s, trim (a ++ comma :: s) <> []).
  { intros s E. apply trim_nil in E. rewrite forallb_app in E.
    cbn in E. now rewrite andb_false_r in E. }
  unfold segmentNumbers.
  pose proof (Hfull (t ++ comma :: b)) as H1. pose proof (Hfull b) as H2.
  destruct (trim (a ++ comma :: t ++ comma :: b)); [contradiction|].
  destruct (trim (a ++ comma :: b)); [contradiction|].
  rewrite !split_comma_app, (@split_comma_token t Hfree).
  rewrite !map_app, !filter_app. cbn. now rewrite Hnan.
Qed.

(** C5, as stated, fails when the segments are switched off: the filter
    ["0,2"] parses to the list [0, 2], and the shape of segment 0 is hidden. *)
Lemma segment_filter_off_hides :
  segmentNumbers (str "0,2") = Some [Int 0; Int 2]
  /\ ~ (forall (showSegments : bool) (i : Z),
          shouldShow showSegments (str "0,2") (Some i) = true
          <-> i = 0%Z \/ i = 2%Z).
Proof.
  split; [reflexivity|].
  intros Hclaim.
  assert (E : shouldShow false (str "0,2") (Some 0%Z) = true)
    by (apply Hclaim; now left).
  discriminate E.
Qed.

(** C5, amended.  With [showSegments] set and a blank filter every shape is
    shown.  With a filter that parses to the list of 0 and 2, a shape is
    shown iff [showSegments] is set and its segment index is 0 or 2: with
    the flag cleared nothing is shown, so no other segment is shown in
    either state.  The list is made of the tokens that parse: a token that
    does not parse adds nothing, and taking it out of the string does not
    change the list. *)
Theorem segment_filter
    (filter : jsstring) (showSegments : bool) (i : Z) :
  (trim filter = [] ->
     forall segmentIndex, shouldShow true filter segmentIndex = true)
  /\ (forall numbers,
        segmentNumbers filter = Some numbers ->
        (forall z, In (Int z) numbers <-> z = 0%Z \/ z = 2%Z) ->
        (shouldShow showSegments filter (Some i) = true
         <-> showSegments = true /\ (i = 0%Z \/ i = 2%Z)))
  /\ (forall numbers,
        segmentNumbers filter = Some numbers ->
        forall z, In (Int z) numbers
                  <-> exists token, In token (split_comma filter)
                                    /\ parseInt (trim token) = Int z)
  /\ (forall a t b,
        filter = a ++ comma :: t ++ comma :: b ->
        ~ In comma t -> parseInt (trim t) = NaN ->
        segmentNumbers filter = segmentNumbers (a ++ comma :: b)).
Proof.
  split; [|split; [|split]].
  - intros Hblank [j|]; unfold shouldShow, segmentNumbers;
      now rewrite Hblank.
  - intros numbers Hnum Hlist. unfold shouldShow. rewrite Hnum.
    rewrite andb_true_iff, includes_In, Hlist. tauto.
  - intros numbers Hnum. now apply segmentNumbers_spec.
  - intros a t b -> Hfree Hnan. now apply segmentNumbers_skip.
Qed.

(** ** Double arithmetic

    The four operations on doubles round the exact result to a neighbouring
    double.  From the reference implementation of the Standard Library
    ([SpecFloat]) this section derives what the proofs below use: if the
    exact result is below [2^k] in magnitude, the computed one is finite
    and differs from it by at most [2^(k-53)], one unit in the last place;
    and comparisons of finite doubles are comparisons of their values. *)

Lemma fexp64_eq (z : Z) : fexp64 z = Z.max (z - 53) (-1074).
Proof. reflexivity. Qed.

(** *** Digits *)

Lemma digits2_size (p : positive) : digits2_pos p = Pos.size p.
Proof. induction p as [p IH|p IH|]; cbn; now rewrite ?IH. Qed.

Lemma digits2_bounds (p : positive) :
  (2 ^ (Zpos (digits2_pos p) - 1) <= Zpos p < 2 ^ Zpos (digits2_pos p))%Z.
Proof.
  rewrite digits2_size. split.
  - pose proof (Pos.size_le p) as Hle.
    assert (H2 : (2 ^ Zpos (Pos.size p) <= 2 * Zpos p)%Z).
    { change (2 * Zpos p)%Z with (Zpos p~0).
      rewrite <- (Pos2Z.inj_pow 2 (Pos.size p)). exact Hle. }
    replace (Zpos (Pos.size p)) with (Z.succ (Zpos (Pos.size p) - 1)) in H2
      by lia.
    rewrite Z.pow_succ_r in H2 by lia. lia.
  - pose proof (Pos.size_gt p) as Hgt.
    rewrite <- (Pos2Z.inj_pow 2 (Pos.size p)). exact Hgt.
Qed.

Lemma Zdigits2_nonneg (m : Z) : (0 <= Zdigits2 m)%Z.
Proof. destruct m; cbn; lia. Qed.

Lemma Zdigits2_bounds (m : Z) :
  (0 < m)%Z -> (2 ^ (Zdigits2 m - 1) <= m < 2 ^ Zdigits2 m)%Z.
Proof.
  destruct m as [|p|p]; try lia. intros _. apply digits2_bounds.
Qed.

Lemma Zdigits2_le (m k : Z) :
  (0 <= m)%Z -> (0 <= k)%Z -> (m < 2 ^ k)%Z -> (Zdigits2 m <= k)%Z.
Proof.
  intros Hm Hk Hlt. destruct (Z.eq_dec m 0) as [->|Hne]; [cbn; lia|].
  destruct (Zdigits2_bounds (m := m)) as [Hlo _]; [lia|].
  destruct (Z.le_gt_cases (Zdigits2 m) k) as [Hle|Hgt]; [exact Hle|].
  exfalso.
  assert (H2 : (2 ^ k <= 2 ^ (Zdigits2 m - 1))%Z)
    by (apply Z.pow_le_mono_r; lia).
  lia.
Qed.

Lemma Zdigits2_ge (m k : Z) :
  (0 <= k)%Z -> (2 ^ k <= m)%Z -> (k + 1 <= Zdigits2 m)%Z.
Proof.
  intros Hk Hle.
  assert (Hpos : (0 < m)%Z) by (pose proof (Z.pow_pos_nonneg 2 k); lia).
  destruct (Zdigits2_bounds Hpos) as [_ Hhi].
  destruct (Z.le_gt_cases (k + 1) (Zdigits2 m)) as [H|H]; [exact H|].
  exfalso.
  assert (H2 : (2 ^ Zdigits2 m <= 2 ^ k)%Z).
  { apply Z.pow_le_mono_r; [lia|]. lia. }
  lia.
Qed.

(** *** Shifts *)

Lemma shr_1_m (r : shr_record) :
  (0 <= shr_m r)%Z ->
  shr_m (shr_1 r) = (shr_m r / 2)%Z.
Proof.
  destruct r as [m b s]. cbn [shr_m]. intros Hm.
  destruct m as [|p|p]; [reflexivity| |lia].
  destruct p as [p|p|]; cbn [shr_1 shr_m].
  - rewrite Pos2Z.inj_xI. symmetry.
    rewrite Z.mul_comm, Z.div_add_l by lia. reflexivity.
  - rewrite Pos2Z.inj_xO. symmetry.
    rewrite Z.mul_comm, Z.div_mul by lia. reflexivity.
  - reflexivity.
Qed.

Lemma shr_iter_m (p : positive) :
  forall r : shr_record,
    (0 <= shr_m r)%Z ->
    shr_m (SpecFloat.iter_pos shr_1 p r) = (shr_m r / 2 ^ Zpos p)%Z.
Proof.
  induction p as [p IH|p IH|]; intros r Hr; cbn [SpecFloat.iter_pos].
  - assert (H1 : (0 <= shr_m (shr_1 r))%Z)
      by (rewrite shr_1_m by exact Hr; apply Z.div_pos; lia).
    assert (H2 : (0 <= shr_m (SpecFloat.iter_pos shr_1 p (shr_1 r)))%Z).
    { rewrite IH by exact H1. apply Z.div_pos; [exact H1|].
      apply Z.pow_pos_nonneg; lia. }
    rewrite IH by exact H2. rewrite IH by exact H1. rewrite shr_1_m by exact Hr.
    rewrite !Z.div_div by (try apply Z.pow_pos_nonneg; lia).
    f_equal. change (Zpos p~1) with (2 * Zpos p + 1)%Z.
    replace (2 * Zpos p + 1)%Z with (1 + Zpos p + Zpos p)%Z by lia.
    rewrite !Z.pow_add_r by lia. change (2 ^ 1)%Z with 2%Z. ring.
  - assert (H2 : (0 <= shr_m (SpecFloat.iter_pos shr_1 p r))%Z).
    { rewrite IH by exact Hr. apply Z.div_pos; [exact Hr|].
      apply Z.pow_pos_nonneg; lia. }
    rewrite IH by exact H2. rewrite IH by exact Hr.
    rewrite !Z.div_div by (try apply Z.pow_pos_nonneg; lia).
    f_equal. change (Zpos p~0) with (2 * Zpos p)%Z.
    replace (2 * Zpos p)%Z with (Zpos p + Zpos p)%Z by lia.
    now rewrite Z.pow_add_r by lia.
  - rewrite shr_1_m by exact Hr. reflexivity.
Qed.

(** A shift by [n >= 0] places divides the mantissa by [2^n]. *)
Lemma shr_m_shift (r : shr_record) (e n : Z) :
  (0 <= shr_m r)%Z -> (0 <= n)%Z ->
  shr_m (fst (shr r e n)) = (shr_m r / 2 ^ n)%Z
  /\ snd (shr r e n) = (e + n)%Z.
Proof.
  intros Hr Hn. unfold shr. destruct n as [|p|p]; cbn [fst snd].
  - rewrite Z.div_1_r. split; [reflexivity | lia].
  - split; [now apply shr_iter_m | reflexivity].
  - lia.
Qed.

Lemma shr_idle (r : shr_record) (e n : Z) :
  (n <= 0)%Z -> shr r e n = (r, e).
Proof.
  intros Hn. unfold shr. destruct n; [reflexivity | lia | reflexivity].
Qed.

Lemma shr_m_of_loc (m : Z) (l : location) :
  shr_m (shr_record_of_loc m l) = m.
Proof. destruct l as [|[| |]]; reflexivity. Qed.

Lemma round_nearest_even_bounds (m : Z) (l : location) :
  (m <= round_nearest_even m l <= m + 1)%Z.
Proof.
  unfold round_nearest_even. destruct l as [|[| |]]; try lia.
  destruct (Z.even m); lia.
Qed.

(** *** Rounding *)


(** What [binary_round_aux] returns for a mantissa that is wide enough:
    the mantissa is cut at the exponent of the format and then left as it
    is or raised by one; the result overflows to an infinity only at the
    top of the exponent range. *)
Lemma round_aux_shape (s : bool) (m e : Z) (l : location) :
  (0 <= m)%Z ->
  (e <= fexp64 (Zdigits2 m + e))%Z ->
  exists m2 : Z,
    (m / 2 ^ (fexp64 (Zdigits2 m + e) - e) <= m2
     <= m / 2 ^ (fexp64 (Zdigits2 m + e) - e) + 1)%Z
    /\ (Carries s m2 (fexp64 (Zdigits2 m + e))
          (binary_round_aux prec emax s m e l)
        \/ (binary_round_aux prec emax s m e l = S754_infinity s
            /\ (0 < m2)%Z /\ (971 <= fexp64 (Zdigits2 m + e))%Z)).
Proof.
  intros Hm Hwide.
  set (e1 := fexp64 (Zdigits2 m + e)) in *.
  set (n := (e1 - e)%Z).
  assert (Hn : (0 <= n)%Z) by (unfold n; lia).
  assert (Hemin : (-1074 <= e1)%Z) by (unfold e1; rewrite fexp64_eq; lia).
  unfold binary_round_aux, shr_fexp.
  change (SpecFloat.fexp prec emax (Zdigits2 m + e)) with e1.
  fold n.
  destruct (@shr_m_shift (shr_record_of_loc m l) e n) as [Hm1 He1];
    [rewrite shr_m_of_loc; exact Hm | exact Hn |].
  destruct (shr (shr_record_of_loc m l) e n) as [mrs' e'].
  cbn [fst snd] in Hm1, He1. rewrite shr_m_of_loc in Hm1.
  assert (Ee' : e' = e1) by (unfold n in He1; lia).
  rewrite Ee'. clear He1 Ee' e'.
  set (m1 := (m / 2 ^ n)%Z) in *.
  set (m2 := round_nearest_even (shr_m mrs') (loc_of_shr_record mrs')).
  assert (Hm2 : (m1 <= m2 <= m1 + 1)%Z).
  { unfold m2. rewrite Hm1. apply round_nearest_even_bounds. }
  assert (Hm1lo : (0 <= m1)%Z)
    by (unfold m1; apply Z.div_pos; [exact Hm | apply Z.pow_pos_nonneg; lia]).
  assert (Hm1hi : (m1 < 2 ^ 53)%Z).
  { unfold m1. destruct (Z.eq_dec m 0) as [->|Hne].
    - rewrite Z.div_0_l by (apply Z.pow_nonzero; lia). lia.
    - destruct (@Zdigits2_bounds m) as [_ Hhi]; [lia|].
      apply Z.div_lt_upper_bound; [apply Z.pow_pos_nonneg; lia|].
      rewrite <- Z.pow_add_r by lia.
      eapply Z.lt_le_trans; [exact Hhi|].
      apply Z.pow_le_mono_r; [lia|].
      unfold n. unfold e1. rewrite fexp64_eq. lia. }
  exists m2. split; [exact Hm2|].
  destruct (Z.eq_dec m2 (2 ^ 53)) as [Etop|Hlow].
  - (* the mantissa carried into a 54th digit *)
    rewrite Etop.
    change (Zdigits2 (2 ^ 53)) with 54%Z.
    replace (SpecFloat.fexp prec emax (54 + e1) - e1)%Z with 1%Z
      by (change (SpecFloat.fexp prec emax (54 + e1)) with (fexp64 (54 + e1));
          rewrite fexp64_eq; lia).
    cbn [shr SpecFloat.iter_pos shr_record_of_loc shr_1 shr_m].
    change (2 ^ 53)%Z with 9007199254740992%Z. cbn [shr_1 shr_m].
    destruct (Z.leb_spec (e1 + 1) (emax - prec)) as [Hfit|Hover].
    + left. right. exists 4503599627370496%positive, (e1 + 1)%Z.
      split; [reflexivity|]. split; [lia|].
      replace (e1 + 1 - e1)%Z with 1%Z by lia. reflexivity.
    + right. split; [reflexivity|]. unfold emax, prec in Hover. lia.
  - assert (Hd2 : (Zdigits2 m2 <= 53)%Z)
      by (apply Zdigits2_le; lia).
    rewrite shr_idle
      by (change (SpecFloat.fexp prec emax (Zdigits2 m2 + e1))
            with (fexp64 (Zdigits2 m2 + e1));
          rewrite fexp64_eq; lia).
    cbn [shr_record_of_loc shr_m].
    destruct m2 as [|p|p] eqn:Em2; [left; left; now split | | lia].
    destruct (Z.leb_spec e1 (emax - prec)) as [Hfit|Hover].
    + left. right. exists p, e1. split; [reflexivity|]. split; [lia|].
      rewrite Z.sub_diag. cbn. lia.
    + right. split; [reflexivity|]. unfold emax, prec in Hover. lia.
Qed.

Lemma round_aux_spec (s : bool) (m e : Z) (l : location) :
  (0 <= m)%Z ->
  (e <= fexp64 (Zdigits2 m + e))%Z ->
  (fexp64 (Zdigits2 m + e) < 971)%Z ->
  exists m2 : Z,
    (m / 2 ^ (fexp64 (Zdigits2 m + e) - e) <= m2
     <= m / 2 ^ (fexp64 (Zdigits2 m + e) - e) + 1)%Z
    /\ Carries s m2 (fexp64 (Zdigits2 m + e))
         (binary_round_aux prec emax s m e l).
Proof.
  intros Hm Hwide Hfit.
  destruct (@round_aux_shape s m e l Hm Hwide) as (m2 & Hm2 & [Hc|Hinf]).
  - exists m2. now split.
  - lia.
Qed.


(** *** Values *)





Lemma pow2_pos (e : Z) : 0 < pow2 e.
Proof. apply Qpower_0_lt. reflexivity. Qed.

Lemma pow2_add (a b : Z) : pow2 (a + b) == pow2 a * pow2 b.
Proof. apply Qpower_plus. discriminate. Qed.

Lemma pow2_Z (e : Z) : (0 <= e)%Z -> pow2 e == inject_Z (2 ^ e).
Proof. intros He. unfold pow2. now rewrite Zpower_Qpower. Qed.

Lemma pow2_le (a b : Z) : (a <= b)%Z -> pow2 a <= pow2 b.
Proof. intros Hle. apply Qpower_le_compat_l; [exact Hle | discriminate]. Qed.

Lemma pow2_lt (a b : Z) : (a < b)%Z -> pow2 a < pow2 b.
Proof. intros Hlt. apply Qpower_lt_compat_l; [exact Hlt | reflexivity]. Qed.

Lemma pow2_split (a b : Z) : pow2 a == pow2 (a - b) * pow2 b.
Proof. rewrite <- pow2_add. now replace (a - b + b)%Z with a by lia. Qed.

(** An integer inequality read at the scale [2^e]. *)
Lemma scale_le (a b e : Z) :
  (a <= b)%Z -> inject_Z a * pow2 e <= inject_Z b * pow2 e.
Proof.
  intros Hle. apply Qmult_le_compat_r; [|apply Qlt_le_weak, pow2_pos].
  now rewrite <- Zle_Qle.
Qed.

Lemma scale_lt (a b e : Z) :
  (a < b)%Z -> inject_Z a * pow2 e < inject_Z b * pow2 e.
Proof.
  intros Hlt. apply Qmult_lt_compat_r; [apply pow2_pos|].
  now rewrite <- Zlt_Qlt.
Qed.

Lemma scale_lt_inv (a b e : Z) :
  inject_Z a * pow2 e < inject_Z b * pow2 e -> (a < b)%Z.
Proof.
  intros Hlt. destruct (Z.lt_ge_cases a b) as [H|H]; [exact H|].
  exfalso. pose proof (scale_le e H) as Hle. lra.
Qed.

Lemma scale_shift (m e n : Z) :
  (0 <= n)%Z ->
  inject_Z (m * 2 ^ n) * pow2 e == inject_Z m * pow2 (e + n).
Proof.
  intros Hn. rewrite inject_Z_mult, pow2_add, <- (pow2_Z Hn). ring.
Qed.

Lemma Carries_Q (s : bool) (m e : Z) (r : spec_float) :
  Carries s m e r ->
  finiteSF r = true /\ SF2Q r == signed s (inject_Z m * pow2 e).
Proof.
  intros [[-> ->]|(m' & e' & -> & He & <-)]; (split; [reflexivity|]).
  - cbn. destruct s; cbn; ring.
  - cbn [SF2Q].
    assert (E : inject_Z (Zpos m' * 2 ^ (e' - e)) * pow2 e
                == inject_Z (Zpos m') * pow2 e').
    { rewrite scale_shift by lia. now replace (e + (e' - e))%Z with e' by lia. }
    destruct s; cbn [signed]; rewrite E; ring.
Qed.

(** The quotient by [2^n], read at scale. *)
Lemma floor_scale (m e n : Z) :
  (0 <= n)%Z ->
  inject_Z (m / 2 ^ n) * pow2 (e + n) <= inject_Z m * pow2 e
  /\ inject_Z (m + 1) * pow2 e <= inject_Z (m / 2 ^ n + 1) * pow2 (e + n).
Proof.
  intros Hn.
  assert (Hpos : (0 < 2 ^ n)%Z) by (apply Z.pow_pos_nonneg; lia).
  rewrite <- !scale_shift by exact Hn. split; apply scale_le.
  - rewrite Z.mul_comm. apply Z.mul_div_le. exact Hpos.
  - pose proof (Z.mul_succ_div_gt m (2 ^ n) Hpos) as Hgt. lia.
Qed.

(** The float that [binary_round_aux] returns for a number [t >= 0] given
    by its truncation [m * 2^e] is within one unit in the last place of
    [t], and not above a power of two that [t] is below. *)
Lemma round_aux_Q (s : bool) (m e : Z) (l : location) (t : Q) (k : Z) :
  (0 <= m)%Z ->
  (e <= fexp64 (Zdigits2 m + e))%Z ->
  inject_Z m * pow2 e <= t ->
  t < inject_Z (m + 1) * pow2 e ->
  t < pow2 k -> (-1021 <= k <= 1023)%Z ->
  exists y : Q,
    finiteSF (binary_round_aux prec emax s m e l) = true
    /\ SF2Q (binary_round_aux prec emax s m e l) == signed s y
    /\ t - pow2 (k - 53) <= y <= t + pow2 (k - 53)
    /\ 0 <= y <= pow2 k.
Proof.
  intros Hm Hwide Hlo Hhi Hk Hrange.
  set (e1 := fexp64 (Zdigits2 m + e)) in *.
  assert (He1 : (e1 <= k - 53)%Z).
  { unfold e1. rewrite fexp64_eq.
    destruct (Z.eq_dec m 0) as [->|Hne].
    - cbn [Zdigits2] in *. unfold e1 in Hwide. rewrite fexp64_eq in Hwide.
      lia.
    - assert (Hek : (e < k)%Z).
      { apply Qpower_lt_compat_l_inv with (q := 2); [|reflexivity].
        fold (pow2 e) (pow2 k).
        assert (H1 : inject_Z 1 * pow2 e <= inject_Z m * pow2 e)
          by (apply scale_le; lia).
        assert (H2 : inject_Z 1 * pow2 e == pow2 e) by ring.
        lra. }
      assert (Hd : (Zdigits2 m <= k - e)%Z).
      { apply Zdigits2_le; [exact Hm | lia |].
        apply scale_lt_inv with (e := e).
        rewrite <- pow2_Z by lia.
        rewrite <- pow2_add. replace (k - e + e)%Z with k by lia. lra. }
      lia. }
  destruct (@round_aux_spec s m e l Hm Hwide) as (m2 & Hm2 & Hcarry);
    [fold e1; lia|].
  fold e1 in Hm2, Hcarry.
  set (n := (e1 - e)%Z) in *.
  assert (Hn : (0 <= n)%Z) by (unfold n; lia).
  destruct (Carries_Q Hcarry) as [Hfin Hval].
  destruct (@floor_scale m e n Hn) as [Hfloor Hceil].
  replace (e + n)%Z with e1 in Hfloor, Hceil by (unfold n; lia).
  set (m1 := (m / 2 ^ n)%Z) in *.
  assert (Hm1 : (0 <= m1)%Z)
    by (unfold m1; apply Z.div_pos; [exact Hm | apply Z.pow_pos_nonneg; lia]).
  pose proof (pow2_le He1) as Hulp.
  assert (Hunit : inject_Z (m1 + 1) * pow2 e1
                  == inject_Z m1 * pow2 e1 + pow2 e1)
    by (rewrite inject_Z_plus; ring).
  assert (Hy1 : inject_Z m1 * pow2 e1 <= inject_Z m2 * pow2 e1)
    by (apply scale_le; lia).
  assert (Hy2 : inject_Z m2 * pow2 e1 <= inject_Z (m1 + 1) * pow2 e1)
    by (apply scale_le; lia).
  assert (Htop : inject_Z (m1 + 1) * pow2 e1 <= pow2 k).
  { rewrite (pow2_split k e1), (pow2_Z (e := k - e1)) by lia.
    apply scale_le.
    assert (Hlt : (m1 < 2 ^ (k - e1))%Z).
    { apply scale_lt_inv with (e := e1).
      rewrite <- pow2_Z by lia. rewrite <- pow2_split. lra. }
    lia. }
  exists (inject_Z m2 * pow2 e1).
  split; [exact Hfin|]. split; [exact Hval|].
  assert (H0 : 0 <= inject_Z m1 * pow2 e1).
  { apply Qmult_le_0_compat; [|apply Qlt_le_weak, pow2_pos].
    change 0 with (inject_Z 0). now rewrite <- Zle_Qle. }
  split; split; lra.
Qed.


(** *** Alignment and normalisation *)

Lemma iter_xO (m d : positive) :
  Zpos (Pos.iter xO m d) = (Zpos m * 2 ^ Zpos d)%Z.
Proof.
  induction d as [|d IH] using Pos.peano_ind.
  - cbn. lia.
  - rewrite Pos.iter_succ, Pos2Z.inj_xO, IH, Pos2Z.inj_succ.
    rewrite Z.pow_succ_r by lia. ring.
Qed.

Lemma digits2_iter_xO (m d : positive) :
  digits2_pos (Pos.iter xO m d) = (digits2_pos m + d)%positive.
Proof.
  induction d as [|d IH] using Pos.peano_ind.
  - cbn. lia.
  - rewrite Pos.iter_succ. cbn [digits2_pos]. rewrite IH. lia.
Qed.

(** [shl_align] keeps the value and the position of the leading digit, and
    lowers the exponent to the one asked for if it was above. *)
Lemma shl_align_spec (m : positive) (e e' : Z) :
  snd (shl_align m e e') = Z.min e e'
  /\ (Zpos (fst (shl_align m e e'))
      = Zpos m * 2 ^ (e - Z.min e e'))%Z
  /\ (Zpos (digits2_pos (fst (shl_align m e e'))) + Z.min e e'
      = Zpos (digits2_pos m) + e)%Z.
Proof.
  unfold shl_align. destruct (e' - e)%Z as [|d|d] eqn:Ed; cbn [fst snd].
  - replace (Z.min e e') with e by lia. rewrite Z.sub_diag. cbn. lia.
  - replace (Z.min e e') with e by lia. rewrite Z.sub_diag. cbn. lia.
  - replace (Z.min e e') with e' by lia.
    rewrite iter_xO, digits2_iter_xO.
    replace (e - e')%Z with (Zpos d) by lia. lia.
Qed.

Lemma align_Q (s : bool) (m : positive) (e e' : Z) :
  (e' <= e)%Z ->
  inject_Z (cond_Zopp s (Zpos (fst (shl_align m e e')))) * pow2 e'
  == SF2Q (S754_finite s m e).
Proof.
  intros Hle. destruct (shl_align_spec m e e') as (_ & Hm & _).
  replace (Z.min e e') with e' in Hm by lia.
  assert (E : inject_Z (Zpos (fst (shl_align m e e'))) * pow2 e'
              == inject_Z (Zpos m) * pow2 e).
  { rewrite Hm, scale_shift by lia.
    now replace (e' + (e - e'))%Z with e by lia. }
  cbn [SF2Q]. destruct s; cbn [cond_Zopp]; [|exact E].
  rewrite inject_Z_opp. lra.
Qed.

(** [binary_round] on a number below [2^k]. *)
Lemma round_Q (s : bool) (m : positive) (e k : Z) :
  inject_Z (Zpos m) * pow2 e < pow2 k -> (-1021 <= k <= 1023)%Z ->
  exists y : Q,
    finiteSF (binary_round prec emax s m e) = true
    /\ SF2Q (binary_round prec emax s m e) == signed s y
    /\ inject_Z (Zpos m) * pow2 e - pow2 (k - 53) <= y
       <= inject_Z (Zpos m) * pow2 e + pow2 (k - 53)
    /\ 0 <= y <= pow2 k.
Proof.
  intros Hk Hrange. unfold binary_round.
  set (f := SpecFloat.fexp prec emax (Zpos (digits2_pos m) + e)).
  destruct (shl_align_spec m e f) as (He & Hm & Hd).
  destruct (shl_align m e f) as [mz ez]. cbn [fst snd] in He, Hm, Hd.
  assert (E : inject_Z (Zpos mz) * pow2 ez == inject_Z (Zpos m) * pow2 e).
  { rewrite Hm, scale_shift by lia. rewrite He.
    now replace (Z.min e f + (e - Z.min e f))%Z with e by lia. }
  apply round_aux_Q with (t := inject_Z (Zpos m) * pow2 e).
  - lia.
  - cbn [Zdigits2]. unfold fexp64. rewrite He, Hd. fold f. lia.
  - rewrite E. apply Qle_refl.
  - rewrite <- E. apply scale_lt. lia.
  - exact Hk.
  - exact Hrange.
Qed.

Lemma scale_pos (p : positive) (e : Z) : 0 < inject_Z (Zpos p) * pow2 e.
Proof.
  apply Qmult_lt_0_compat; [|apply pow2_pos].
  change 0 with (inject_Z 0). rewrite <- Zlt_Qlt. lia.
Qed.

(** [binary_normalize] on a number of magnitude below [2^k]: the result
    is finite, within one unit in the last place, of magnitude at most
    [2^k], and on the same side of zero. *)
Lemma normalize_Q (m e k : Z) :
  - pow2 k < inject_Z m * pow2 e < pow2 k -> (-1021 <= k <= 1023)%Z ->
  let r := binary_normalize prec emax m e false in
  finiteSF r = true
  /\ inject_Z m * pow2 e - pow2 (k - 53) <= SF2Q r
     <= inject_Z m * pow2 e + pow2 (k - 53)
  /\ - pow2 k <= SF2Q r <= pow2 k
  /\ (0 <= inject_Z m * pow2 e -> 0 <= SF2Q r)
  /\ (inject_Z m * pow2 e <= 0 -> SF2Q r <= 0).
Proof.
  intros [Hlo Hhi] Hrange. pose proof (pow2_pos k) as Hk.
  pose proof (pow2_pos (k - 53)) as Hu.
  destruct m as [|p|p]; cbn [binary_normalize]; cbv zeta.
  - cbn [SF2Q finiteSF]. assert (E : inject_Z 0 * pow2 e == 0) by ring.
    split; [reflexivity|].
    split; [split; lra|]. split; [split; lra|]. split; intros _; lra.
  - destruct (@round_Q false p e k Hhi Hrange)
      as (y & Hfin & Hval & Hy & Hpos).
    pose proof (scale_pos p e) as Hxpos.
    cbn [signed] in Hval. split; [exact Hfin|]. rewrite Hval.
    split; [split; lra|]. split; [split; lra|]. split; intros Hsign; lra.
  - assert (E : inject_Z (Zneg p) * pow2 e == - (inject_Z (Zpos p) * pow2 e)).
    { change (Zneg p) with (- Zpos p)%Z. rewrite inject_Z_opp. ring. }
    pose proof (scale_pos p e) as Hxpos.
    destruct (@round_Q true p e k) as (y & Hfin & Hval & Hy & Hpos);
      [lra | exact Hrange |].
    cbn [signed] in Hval. split; [exact Hfin|]. rewrite Hval, E.
    split; [split; lra|]. split; [split; lra|]. split; intros Hsign; lra.
Qed.

(** *** Validity *)

Lemma bounded_cases (m : positive) (e : Z) :
  bounded prec emax m e = true ->
  (Zpos (digits2_pos m) <= 53)%Z /\ (-1074 <= e <= 971)%Z
  /\ (e = (-1074)%Z \/ Zpos (digits2_pos m) = 53%Z).
Proof.
  unfold bounded, canonical_mantissa. intros H.
  apply andb_true_iff in H. destruct H as [Hc He].
  apply Z.eqb_eq in Hc. apply Z.leb_le in He.
  change (SpecFloat.fexp prec emax (Zpos (digits2_pos m) + e))
    with (fexp64 (Zpos (digits2_pos m) + e)) in Hc.
  rewrite fexp64_eq in Hc. unfold emax, prec in He. lia.
Qed.

(** *** The four operations *)

Section Operations.

Variables x y : spec_float.
Hypothesis Hx : finiteSF x = true.
Hypothesis Hy : finiteSF y = true.
Variable k : Z.
Hypothesis Hrange : (-1021 <= k <= 1023)%Z.

Lemma SFadd_Q :
  - pow2 k < SF2Q x + SF2Q y < pow2 k ->
  finiteSF (SFadd prec emax x y) = true
  /\ SF2Q x + SF2Q y - pow2 (k - 53) <= SF2Q (SFadd prec emax x y)
     <= SF2Q x + SF2Q y + pow2 (k - 53)
  /\ - pow2 k <= SF2Q (SFadd prec emax x y) <= pow2 k.
Proof.
  intros Hk. pose proof (pow2_pos (k - 53)) as Hu.
  destruct x as [sx| | |sx mx ex]; try discriminate Hx;
    destruct y as [sy| | |sy my ey]; try discriminate Hy.
  - cbn [SFadd]. assert (E : SF2Q (if Bool.eqb sx sy then S754_zero sx
                                  else S754_zero false) == 0)
      by (destruct (Bool.eqb sx sy); reflexivity).
    cbn [SF2Q] in *. destruct sx, sy; cbn [SF2Q finiteSF];
      (split; [reflexivity|]); split; split; lra.
  - cbn [SFadd]. destruct sx; cbn [finiteSF]; (split; [reflexivity|]);
      cbn [SF2Q] in *; split; split; lra.
  - cbn [SFadd]. split; [reflexivity|]. cbn [SF2Q] in *. split; split; lra.
  - cbn [SFadd]. cbv zeta.
    set (ez := Z.min ex ey).
    pose proof (@align_Q sx mx ex ez ltac:(unfold ez; lia)) as Ex.
    pose proof (@align_Q sy my ey ez ltac:(unfold ez; lia)) as Ey.
    set (M := (cond_Zopp sx (Zpos (fst (shl_align mx ex ez)))
               + cond_Zopp sy (Zpos (fst (shl_align my ey ez))))%Z).
    assert (EM : inject_Z M * pow2 ez
                 == SF2Q (S754_finite sx mx ex) + SF2Q (S754_finite sy my ey)).
    { unfold M. rewrite inject_Z_plus, <- Ex, <- Ey. ring. }
    destruct (@normalize_Q M ez k) as (Hfin & Hval & Hmag & _);
      [rewrite EM; exact Hk | exact Hrange |].
    rewrite EM in Hval. split; [exact Hfin|]. split; [exact Hval | exact Hmag].
Qed.

Lemma SFsub_Q :
  - pow2 k < SF2Q x - SF2Q y < pow2 k ->
  finiteSF (SFsub prec emax x y) = true
  /\ SF2Q x - SF2Q y - pow2 (k - 53) <= SF2Q (SFsub prec emax x y)
     <= SF2Q x - SF2Q y + pow2 (k - 53)
  /\ - pow2 k <= SF2Q (SFsub prec emax x y) <= pow2 k.
Proof.
  intros Hk. pose proof (pow2_pos (k - 53)) as Hu.
  destruct x as [sx| | |sx mx ex]; try discriminate Hx;
    destruct y as [sy| | |sy my ey]; try discriminate Hy.
  - cbn [SFsub]. cbn [SF2Q] in *. destruct sx, sy; cbn [SF2Q finiteSF];
      (split; [reflexivity|]); split; split; lra.
  - cbn [SFsub]. split; [reflexivity|]. cbn [SF2Q] in *.
    destruct sy; cbn [negb]; split; split; lra.
  - cbn [SFsub]. split; [reflexivity|]. cbn [SF2Q] in *. split; split; lra.
  - cbn [SFsub]. cbv zeta.
    set (ez := Z.min ex ey).
    pose proof (@align_Q sx mx ex ez ltac:(unfold ez; lia)) as Ex.
    pose proof (@align_Q sy my ey ez ltac:(unfold ez; lia)) as Ey.
    set (M := (cond_Zopp sx (Zpos (fst (shl_align mx ex ez)))
               - cond_Zopp sy (Zpos (fst (shl_align my ey ez))))%Z).
    assert (EM : inject_Z M * pow2 ez
                 == SF2Q (S754_finite sx mx ex) - SF2Q (S754_finite sy my ey)).
    { unfold M, Z.sub. rewrite inject_Z_plus, inject_Z_opp, <- Ex, <- Ey.
      ring. }
    destruct (@normalize_Q M ez k) as (Hfin & Hval & Hmag & _);
      [rewrite EM; exact Hk | exact Hrange |].
    rewrite EM in Hval. split; [exact Hfin|]. split; [exact Hval | exact Hmag].
Qed.

End Operations.


(** [binary_round] of a mantissa at an exponent of the format never gives a
    zero nor [NaN]. *)
Lemma round_nonzero (s : bool) (m : positive) (e : Z) :
  (-1074 <= e)%Z ->
  (exists m' e', binary_round prec emax s m e = S754_finite s m' e')
  \/ binary_round prec emax s m e = S754_infinity s.
Proof.
  intros He. unfold binary_round.
  set (f := SpecFloat.fexp prec emax (Zpos (digits2_pos m) + e)).
  assert (Ef : f = Z.max (Zpos (digits2_pos m) + e - 53) (-1074))
    by reflexivity.
  destruct (shl_align_spec m e f) as (Hez & Hmz & Hd).
  destruct (shl_align m e f) as [mz ez]. cbn [fst snd] in Hez, Hmz, Hd.
  assert (Hwide : (ez <= fexp64 (Zdigits2 (Zpos mz) + ez))%Z).
  { cbn [Zdigits2]. unfold fexp64. rewrite Hez, Hd. fold f. lia. }
  destruct (@round_aux_shape s (Zpos mz) ez loc_Exact ltac:(lia) Hwide)
    as (m2 & Hm2 & Hshape).
  assert (Hf : fexp64 (Zdigits2 (Zpos mz) + ez) = f).
  { cbn [Zdigits2]. unfold fexp64. rewrite Hez, Hd. reflexivity. }
  rewrite Hf in Hm2, Hshape.
  assert (Hone : (1 <= Zpos mz / 2 ^ (f - ez))%Z).
  { apply Z.div_le_lower_bound; [apply Z.pow_pos_nonneg; lia|].
    rewrite Z.mul_1_r.
    destruct (Z.le_gt_cases f e) as [Hle|Hgt].
    - replace (f - ez)%Z with 0%Z by lia. cbn. lia.
    - pose proof (digits2_bounds mz) as [Hlo _].
      eapply Z.le_trans; [|exact Hlo].
      apply Z.pow_le_mono_r; lia. }
  destruct Hshape as [[[Hzero _]|(m' & e' & Hr & _)]|[Hr _]].
  - lia.
  - left. now exists m', e'.
  - now right.
Qed.

Lemma normalize_nonzero (m e : Z) :
  m <> 0%Z -> (-1074 <= e)%Z ->
  match binary_normalize prec emax m e false with
  | S754_finite _ _ _ | S754_infinity _ => True
  | _ => False
  end.
Proof.
  intros Hm He. destruct m as [|p|p]; [contradiction| |];
    cbn [binary_normalize].
  - destruct (@round_nonzero false p e He) as [(m' & e' & ->)| ->]; exact I.
  - destruct (@round_nonzero true p e He) as [(m' & e' & ->)| ->]; exact I.
Qed.

(** [binary_round_aux] never gives [NaN]. *)
Lemma round_aux_not_nan (s : bool) (m e : Z) (l : location) :
  (0 <= m)%Z -> binary_round_aux prec emax s m e l <> S754_nan.
Proof.
  intros Hm. unfold binary_round_aux, shr_fexp.
  set (n := (SpecFloat.fexp prec emax (Zdigits2 m + e) - e)%Z).
  assert (H1 : (0 <= shr_m (fst (shr (shr_record_of_loc m l) e n)))%Z).
  { destruct (Z.le_gt_cases 0 n) as [Hn|Hn].
    - destruct (@shr_m_shift (shr_record_of_loc m l) e n) as [-> _];
        [rewrite shr_m_of_loc; exact Hm | exact Hn |].
      rewrite shr_m_of_loc. apply Z.div_pos; [exact Hm|].
      apply Z.pow_pos_nonneg; lia.
    - rewrite shr_idle by lia. cbn [fst]. now rewrite shr_m_of_loc. }
  destruct (shr (shr_record_of_loc m l) e n) as [mrs' e']. cbn [fst] in H1.
  set (m2 := round_nearest_even (shr_m mrs') (loc_of_shr_record mrs')).
  assert (Hm2 : (0 <= m2)%Z).
  { pose proof (round_nearest_even_bounds (shr_m mrs')
                  (loc_of_shr_record mrs')). unfold m2. lia. }
  set (n2 := (SpecFloat.fexp prec emax (Zdigits2 m2 + e') - e')%Z).
  assert (H2 : (0 <= shr_m (fst (shr (shr_record_of_loc m2 loc_Exact)
                                   e' n2)))%Z).
  { destruct (Z.le_gt_cases 0 n2) as [Hn|Hn].
    - destruct (@shr_m_shift (shr_record_of_loc m2 loc_Exact) e' n2)
        as [-> _]; [cbn; exact Hm2 | exact Hn |].
      cbn [shr_record_of_loc shr_m]. apply Z.div_pos; [exact Hm2|].
      apply Z.pow_pos_nonneg; lia.
    - rewrite shr_idle by lia. exact Hm2. }
  destruct (shr (shr_record_of_loc m2 loc_Exact) e' n2) as [mrs'' e''].
  cbn [fst] in H2.
  destruct (shr_m mrs'') as [|p|p]; [discriminate | | lia].
  destruct (e'' <=? emax - prec)%Z; discriminate.
Qed.

Lemma scale_mul (a b : positive) (e f : Z) :
  inject_Z (Zpos (a * b)) * pow2 (e + f)
  == (inject_Z (Zpos a) * pow2 e) * (inject_Z (Zpos b) * pow2 f).
Proof. rewrite Pos2Z.inj_mul, inject_Z_mult, pow2_add. ring. Qed.

Section Products.

Variables x y : spec_float.
Hypothesis Hx : finiteSF x = true.
Hypothesis Hy : finiteSF y = true.
Hypothesis Vx : valid_binary x = true.
Hypothesis Vy : valid_binary y = true.
Variable k : Z.
Hypothesis Hrange : (-1021 <= k <= 1023)%Z.

Lemma SFmul_Q :
  - pow2 k < SF2Q x * SF2Q y < pow2 k ->
  finiteSF (SFmul prec emax x y) = true
  /\ SF2Q x * SF2Q y - pow2 (k - 53) <= SF2Q (SFmul prec emax x y)
     <= SF2Q x * SF2Q y + pow2 (k - 53)
  /\ - pow2 k <= SF2Q (SFmul prec emax x y) <= pow2 k
  /\ (0 <= SF2Q x * SF2Q y -> 0 <= SF2Q (SFmul prec emax x y)).
Proof.
  intros Hk. pose proof (pow2_pos (k - 53)) as Hu.
  pose proof (pow2_pos k) as Hpk.
  destruct x as [sx| | |sx mx ex]; try discriminate Hx;
    destruct y as [sy| | |sy my ey]; try discriminate Hy;
    cbn [SFmul].
  - cbn [SF2Q finiteSF] in *. split; [reflexivity|].
    split; [split; lra|]. split; [split; lra|]. intros _. lra.
  - cbn [SF2Q finiteSF] in *. split; [reflexivity|].
    set (q := (if sy then - inject_Z (Zpos my) else inject_Z (Zpos my))
              * pow2 ey) in *.
    assert (E : 0 * q == 0) by ring.
    split; [split; lra|]. split; [split; lra|]. intros _. lra.
  - cbn [SF2Q finiteSF] in *. split; [reflexivity|].
    set (q := (if sx then - inject_Z (Zpos mx) else inject_Z (Zpos mx))
              * pow2 ex) in *.
    assert (E : q * 0 == 0) by ring.
    split; [split; lra|]. split; [split; lra|]. intros _. lra.
  - cbn [valid_binary] in Vx, Vy.
    destruct (@bounded_cases _ _ Vx) as (Hdx & Hex & Hnx).
    destruct (@bounded_cases _ _ Vy) as (Hdy & Hey & Hny).
    pose proof (digits2_bounds mx) as [Hlx _].
    pose proof (digits2_bounds my) as [Hly _].
    assert (Hdpos : (1 <= Zpos (digits2_pos mx))%Z
                    /\ (1 <= Zpos (digits2_pos my))%Z) by lia.
    assert (Hd : (Zpos (digits2_pos mx) + Zpos (digits2_pos my) - 1
                  <= Zdigits2 (Zpos (mx * my)))%Z).
    { replace (Zpos (digits2_pos mx) + Zpos (digits2_pos my) - 1)%Z
        with (Zpos (digits2_pos mx) - 1 + (Zpos (digits2_pos my) - 1) + 1)%Z
        by lia.
      apply Zdigits2_ge; [lia|].
      rewrite Z.pow_add_r, Pos2Z.inj_mul by lia.
      apply Z.mul_le_mono_nonneg; try lia; apply Z.pow_nonneg; lia. }
    set (t := inject_Z (Zpos (mx * my)) * pow2 (ex + ey)).
    assert (Et : t == (inject_Z (Zpos mx) * pow2 ex)
                      * (inject_Z (Zpos my) * pow2 ey))
      by apply scale_mul.
    pose proof (scale_pos mx ex) as Hpx. pose proof (scale_pos my ey) as Hpy.
    assert (Htpos : 0 < t) by (unfold t; apply scale_pos).
    assert (Exy : SF2Q (S754_finite sx mx ex) * SF2Q (S754_finite sy my ey)
                  == signed (xorb sx sy) t).
    { cbn [SF2Q]. destruct sx, sy; cbn [xorb signed]; rewrite Et; ring. }
    destruct (@round_aux_Q (xorb sx sy) (Zpos (mx * my)) (ex + ey)
                loc_Exact t k) as (v & Hfin & Hval & Hv & Hpos).
    + lia.
    + rewrite fexp64_eq. lia.
    + apply Qle_refl.
    + unfold t. apply scale_lt. lia.
    + rewrite Exy in Hk. destruct (xorb sx sy); cbn [signed] in Hk; lra.
    + exact Hrange.
    + split; [exact Hfin|]. rewrite Hval, Exy.
      destruct (xorb sx sy); cbn [signed];
        (split; [split; lra|]); (split; [split; lra|]); intros Hs; lra.
Qed.

End Products.


(** *** Division *)

(** The quotient that [SFdiv_core_binary] hands to the rounding: it is
    wide enough, and it is the truncation of the exact quotient. *)
Lemma div_core_spec (mx my : positive) (ex ey : Z) :
  bounded prec emax mx ex = true -> bounded prec emax my ey = true ->
  exists (q e' : Z) (l : location),
    SFdiv_core_binary prec emax (Zpos mx) ex (Zpos my) ey = (q, e', l)
    /\ (0 <= q)%Z
    /\ (e' <= fexp64 (Zdigits2 q + e'))%Z
    /\ inject_Z q * pow2 e' * (inject_Z (Zpos my) * pow2 ey)
       <= inject_Z (Zpos mx) * pow2 ex
    /\ inject_Z (Zpos mx) * pow2 ex
       < inject_Z (q + 1) * pow2 e' * (inject_Z (Zpos my) * pow2 ey).
Proof.
  intros Vx Vy.
  destruct (@bounded_cases _ _ Vx) as (Hdx & Hex & Hnx).
  destruct (@bounded_cases _ _ Vy) as (Hdy & Hey & Hny).
  pose proof (digits2_bounds mx) as [Hlx Hhx].
  pose proof (digits2_bounds my) as [Hly Hhy].
  unfold SFdiv_core_binary. cbn [Zdigits2].
  set (d1 := Zpos (digits2_pos mx)) in *.
  set (d2 := Zpos (digits2_pos my)) in *.
  assert (Hd1 : (1 <= d1)%Z) by (unfold d1; lia).
  assert (Hd2 : (1 <= d2)%Z) by (unfold d2; lia).
  change (SpecFloat.fexp prec emax (d1 + ex - (d2 + ey)))
    with (fexp64 (d1 + ex - (d2 + ey))).
  set (e' := Z.min (fexp64 (d1 + ex - (d2 + ey))) (ex - ey)).
  set (s := (ex - ey - e')%Z).
  assert (Hs : (0 <= s)%Z) by (unfold s, e'; lia).
  set (m' := match s with
             | 0%Z => Zpos mx
             | Zpos _ => Z.shiftl (Zpos mx) s
             | Zneg _ => 0%Z
             end).
  assert (Em' : m' = (Zpos mx * 2 ^ s)%Z).
  { unfold m'. destruct s as [|p|p] eqn:Es.
    - cbn. lia.
    - apply Z.shiftl_mul_pow2. lia.
    - lia. }
  assert (Hdiv : Z.div_eucl m' (Zpos my) = (m' / Zpos my, m' mod Zpos my)%Z).
  { unfold Z.div, Z.modulo. now destruct (Z.div_eucl m' (Zpos my)). }
  rewrite Hdiv.
  set (q := (m' / Zpos my)%Z).
  exists q, e', (new_location (Zpos my) (m' mod Zpos my)).
  split; [reflexivity|].
  assert (Hm' : (0 < m')%Z)
    by (rewrite Em'; apply Z.mul_pos_pos; [lia | apply Z.pow_pos_nonneg; lia]).
  assert (Hq : (0 <= q)%Z) by (unfold q; apply Z.div_pos; lia).
  split; [exact Hq|].
  assert (Hlo : (q * Zpos my <= m')%Z)
    by (unfold q; rewrite Z.mul_comm; apply Z.mul_div_le; lia).
  assert (Hhi : (m' < (q + 1) * Zpos my)%Z).
  { unfold q. pose proof (Z.mul_succ_div_gt m' (Zpos my) ltac:(lia)). lia. }
  split.
  - (* wide enough *)
    rewrite fexp64_eq.
    destruct (Z.le_gt_cases e' (-1074)) as [Hsub|Hnorm]; [lia|].
    assert (Ee' : e' = (d1 + ex - (d2 + ey) - 53)%Z).
    { unfold e' in *. rewrite fexp64_eq in *. lia. }
    assert (Es : s = (53 - d1 + d2)%Z) by (unfold s; lia).
    assert (Hbig : (2 ^ 52 <= q)%Z).
    { unfold q. apply Z.div_le_lower_bound; [lia|].
      rewrite Em', Es.
      assert (H1 : (Zpos my * 2 ^ 52 <= 2 ^ d2 * 2 ^ 52)%Z)
        by (apply Z.mul_le_mono_nonneg_r; lia).
      assert (H2 : (2 ^ (d1 - 1) * 2 ^ (53 - d1 + d2)
                    <= Zpos mx * 2 ^ (53 - d1 + d2))%Z)
        by (apply Z.mul_le_mono_nonneg_r; [apply Z.pow_nonneg|]; lia).
      rewrite <- Z.pow_add_r in H1, H2 by lia.
      replace (d1 - 1 + (53 - d1 + d2))%Z with (d2 + 52)%Z in H2 by lia.
      lia. }
    pose proof (@Zdigits2_ge q 52 ltac:(lia) Hbig). lia.
  - assert (Escale : inject_Z m' * pow2 (e' + ey)
                     == inject_Z (Zpos mx) * pow2 ex).
    { rewrite Em', scale_shift by exact Hs.
      now replace (e' + ey + s)%Z with ex by (unfold s; lia). }
    assert (Eprod : forall z : Z,
              inject_Z z * pow2 e' * (inject_Z (Zpos my) * pow2 ey)
              == inject_Z (z * Zpos my) * pow2 (e' + ey))
      by (intros z; rewrite inject_Z_mult, pow2_add; ring).
    rewrite !Eprod, <- Escale. split; [apply scale_le | apply scale_lt]; lia.
Qed.

Section Quotients.

Variables x y : spec_float.
Hypothesis Hx : finiteSF x = true.
Hypothesis Hy : finiteSF y = true.
Hypothesis Vx : valid_binary x = true.
Hypothesis Vy : valid_binary y = true.
Variable k : Z.
Hypothesis Hrange : (-1021 <= k <= 1023)%Z.

Lemma SFdiv_Q :
  ~ SF2Q y == 0 ->
  - pow2 k < SF2Q x / SF2Q y < pow2 k ->
  finiteSF (SFdiv prec emax x y) = true
  /\ SF2Q x / SF2Q y - pow2 (k - 53) <= SF2Q (SFdiv prec emax x y)
     <= SF2Q x / SF2Q y + pow2 (k - 53)
  /\ - pow2 k <= SF2Q (SFdiv prec emax x y) <= pow2 k.
Proof.
  intros Hnz Hk. pose proof (pow2_pos (k - 53)) as Hu.
  pose proof (pow2_pos k) as Hpk.
  destruct y as [sy| | |sy my ey]; try discriminate Hy;
    [exfalso; apply Hnz; reflexivity|].
  pose proof (scale_pos my ey) as Hpy.
  destruct x as [sx| | |sx mx ex]; try discriminate Hx; cbn [SFdiv].
  - cbn [SF2Q finiteSF] in *. split; [reflexivity|].
    set (d := (if sy then - inject_Z (Zpos my) else inject_Z (Zpos my))
              * pow2 ey) in *.
    assert (E : 0 / d == 0) by (unfold Qdiv; ring).
    split; split; lra.
  - cbn [valid_binary] in Vx, Vy.
    destruct (@div_core_spec mx my ex ey Vx Vy)
      as (q & e' & l & -> & Hq & Hwide & Hlo & Hhi).
    pose proof (scale_pos mx ex) as Hpx.
    set (X := inject_Z (Zpos mx) * pow2 ex) in *.
    set (Y := inject_Z (Zpos my) * pow2 ey) in *.
    set (t := X / Y).
    assert (Exy : SF2Q (S754_finite sx mx ex) / SF2Q (S754_finite sy my ey)
                  == signed (xorb sx sy) t).
    { cbn [SF2Q]. fold X Y. unfold t.
      destruct sx, sy; cbn [xorb signed]; fold X Y.
      - setoid_replace (- inject_Z (Zpos mx) * pow2 ex) with (- X)
          by (unfold X; ring).
        setoid_replace (- inject_Z (Zpos my) * pow2 ey) with (- Y)
          by (unfold Y; ring).
        field. lra.
      - setoid_replace (- inject_Z (Zpos mx) * pow2 ex) with (- X)
          by (unfold X; ring).
        field. lra.
      - setoid_replace (- inject_Z (Zpos my) * pow2 ey) with (- Y)
          by (unfold Y; ring).
        field. lra.
      - reflexivity. }
    assert (Ht0 : 0 < t) by (unfold t; apply Qlt_shift_div_l; lra).
    assert (Htlo : inject_Z q * pow2 e' <= t)
      by (unfold t; apply Qle_shift_div_l; [exact Hpy | exact Hlo]).
    assert (Hthi : t < inject_Z (q + 1) * pow2 e')
      by (unfold t; apply Qlt_shift_div_r; [exact Hpy | exact Hhi]).
    destruct (@round_aux_Q (xorb sx sy) q e' l t k Hq Hwide Htlo Hthi)
      as (v & Hfin & Hval & Hv & Hpos).
    + rewrite Exy in Hk. destruct (xorb sx sy); cbn [signed] in Hk; lra.
    + exact Hrange.
    + split; [exact Hfin|]. rewrite Hval, Exy.
      destruct (xorb sx sy); cbn [signed]; split; split; lra.
Qed.

End Quotients.


(** *** Order *)

(** Between floats of the format, the one with the larger exponent is the
    larger. *)
Lemma mag_lt (m1 m2 : positive) (e1 e2 : Z) :
  bounded prec emax m1 e1 = true -> bounded prec emax m2 e2 = true ->
  (e1 < e2)%Z ->
  inject_Z (Zpos m1) * pow2 e1 < inject_Z (Zpos m2) * pow2 e2.
Proof.
  intros V1 V2 Hlt.
  destruct (@bounded_cases _ _ V1) as (Hd1 & He1 & _).
  destruct (@bounded_cases _ _ V2) as (Hd2 & He2 & Hn2).
  pose proof (digits2_bounds m1) as [_ Hhi].
  pose proof (digits2_bounds m2) as [Hlo _].
  assert (H1 : (Zpos m1 < 2 ^ 53)%Z).
  { eapply Z.lt_le_trans; [exact Hhi|]. apply Z.pow_le_mono_r; lia. }
  assert (H2 : (2 ^ 52 <= Zpos m2)%Z).
  { replace 52%Z with (Zpos (digits2_pos m2) - 1)%Z by lia. exact Hlo. }
  apply (@scale_lt _ _ e1) in H1. apply (@scale_le _ _ e2) in H2.
  rewrite <- pow2_Z, <- pow2_add in H1, H2 by lia.
  pose proof (@pow2_le (53 + e1) (52 + e2) ltac:(lia)). lra.
Qed.

Lemma Qcompare_lt (a b : Q) : a < b -> (a ?= b) = Lt.
Proof. apply Qlt_alt. Qed.

Lemma Qcompare_gt (a b : Q) : b < a -> (a ?= b) = Gt.
Proof. apply Qgt_alt. Qed.

Lemma Qcompare_eq (a b : Q) : a == b -> (a ?= b) = Eq.
Proof. apply Qeq_alt. Qed.

Lemma mag_compare (m1 m2 : positive) (e : Z) :
  (inject_Z (Zpos m1) * pow2 e ?= inject_Z (Zpos m2) * pow2 e)
  = Pos.compare_cont Eq m1 m2.
Proof.
  change (Pos.compare_cont Eq m1 m2) with (Zpos m1 ?= Zpos m2)%Z.
  destruct (Z.compare_spec (Zpos m1) (Zpos m2)) as [E|Hlt|Hgt].
  - apply Qcompare_eq. now rewrite E.
  - apply Qcompare_lt. now apply scale_lt.
  - apply Qcompare_gt. now apply scale_lt.
Qed.

Lemma Qcompare_opp (a b : Q) : (- a ?= - b) = CompOpp (a ?= b).
Proof.
  destruct (a ?= b) eqn:E; cbn [CompOpp].
  - apply Qcompare_eq. apply Qeq_alt in E. lra.
  - apply Qcompare_gt. apply Qlt_alt in E. lra.
  - apply Qcompare_lt. apply Qgt_alt in E. lra.
Qed.

(** Comparison of floats is comparison of their values. *)
Lemma SFcompare_Q (x y : spec_float) :
  valid_binary x = true -> valid_binary y = true ->
  finiteSF x = true -> finiteSF y = true ->
  SFcompare x y = Some (SF2Q x ?= SF2Q y).
Proof.
  intros Vx Vy Hx Hy.
  destruct x as [sx| | |sx mx ex]; try discriminate Hx;
    destruct y as [sy| | |sy my ey]; try discriminate Hy;
    cbn [SFcompare SF2Q]; [reflexivity|..]; f_equal; symmetry.
  - pose proof (scale_pos my ey) as Hp.
    destruct sy; [apply Qcompare_gt | apply Qcompare_lt]; lra.
  - pose proof (scale_pos mx ex) as Hp.
    destruct sx; [apply Qcompare_lt | apply Qcompare_gt]; lra.
  - cbn [valid_binary] in Vx, Vy.
    pose proof (scale_pos mx ex) as Hpx. pose proof (scale_pos my ey) as Hpy.
    destruct sx, sy.
    + setoid_replace (- inject_Z (Zpos mx) * pow2 ex)
        with (- (inject_Z (Zpos mx) * pow2 ex)) by ring.
      setoid_replace (- inject_Z (Zpos my) * pow2 ey)
        with (- (inject_Z (Zpos my) * pow2 ey)) by ring.
      rewrite Qcompare_opp.
      destruct (Z.compare_spec ex ey) as [E|Hlt|Hgt].
      * subst ey. now rewrite mag_compare.
      * now rewrite (@Qcompare_lt _ _ (@mag_lt _ _ _ _ Vx Vy Hlt)).
      * now rewrite (@Qcompare_gt _ _ (@mag_lt _ _ _ _ Vy Vx Hgt)).
    + apply Qcompare_lt. lra.
    + apply Qcompare_gt. lra.
    + destruct (Z.compare_spec ex ey) as [E|Hlt|Hgt].
      * subst ey. apply mag_compare.
      * apply Qcompare_lt. now apply mag_lt.
      * apply Qcompare_gt. now apply mag_lt.
Qed.

(** *** Doubles *)


Lemma is_finite_SF (a : float) :
  PrimFloat.is_finite a = finiteSF (Prim2SF a).
Proof.
  unfold PrimFloat.is_finite, PrimFloat.is_nan, PrimFloat.is_infinity.
  rewrite !FloatAxioms.eqb_spec, FloatAxioms.abs_spec.
  change (Prim2SF infinity) with (S754_infinity false).
  destruct (Prim2SF a) as [[|]|[|]| |[|] m e]; try reflexivity;
    unfold SFeqb; cbn [SFcompare SFabs];
    now rewrite Z.compare_refl, Pcompare_refl.
Qed.

Section DoubleFacts.

Variables a b : float.
Hypothesis Ha : PrimFloat.is_finite a = true.
Hypothesis Hb : PrimFloat.is_finite b = true.

Lemma compare_toQ :
  SFcompare (Prim2SF a) (Prim2SF b) = Some (toQ a ?= toQ b).
Proof.
  apply SFcompare_Q; try apply Prim2SF_valid; now rewrite <- is_finite_SF.
Qed.

Lemma ltb_toQ : (a <? b)%float = true <-> toQ a < toQ b.
Proof.
  rewrite FloatAxioms.ltb_spec. unfold SFltb. rewrite compare_toQ, Qlt_alt.
  destruct (toQ a ?= toQ b); split; congruence.
Qed.

Lemma leb_toQ : (a <=? b)%float = true <-> toQ a <= toQ b.
Proof.
  rewrite FloatAxioms.leb_spec. unfold SFleb. rewrite compare_toQ, Qle_alt.
  destruct (toQ a ?= toQ b); split; congruence.
Qed.

Lemma ltb_false_toQ : (a <? b)%float = false <-> toQ b <= toQ a.
Proof.
  rewrite <- not_true_iff_false, ltb_toQ. split; intros H; lra.
Qed.

Variable k : Z.
Hypothesis Hrange : (-1021 <= k <= 1023)%Z.

Lemma add_toQ :
  - pow2 k < toQ a + toQ b < pow2 k ->
  PrimFloat.is_finite (a + b) = true
  /\ toQ a + toQ b - pow2 (k - 53) <= toQ (a + b)
     <= toQ a + toQ b + pow2 (k - 53)
  /\ - pow2 k <= toQ (a + b) <= pow2 k.
Proof.
  intros Hk. rewrite is_finite_SF in *. unfold toQ in *.
  rewrite FloatAxioms.add_spec.
  now apply SFadd_Q.
Qed.

Lemma sub_toQ :
  - pow2 k < toQ a - toQ b < pow2 k ->
  PrimFloat.is_finite (a - b) = true
  /\ toQ a - toQ b - pow2 (k - 53) <= toQ (a - b)
     <= toQ a - toQ b + pow2 (k - 53)
  /\ - pow2 k <= toQ (a - b) <= pow2 k.
Proof.
  intros Hk. rewrite is_finite_SF in *. unfold toQ in *.
  rewrite FloatAxioms.sub_spec.
  now apply SFsub_Q.
Qed.

Lemma mul_toQ :
  - pow2 k < toQ a * toQ b < pow2 k ->
  PrimFloat.is_finite (a * b) = true
  /\ toQ a * toQ b - pow2 (k - 53) <= toQ (a * b)
     <= toQ a * toQ b + pow2 (k - 53)
  /\ - pow2 k <= toQ (a * b) <= pow2 k
  /\ (0 <= toQ a * toQ b -> 0 <= toQ (a * b)).
Proof.
  intros Hk. rewrite is_finite_SF in *. unfold toQ in *.
  rewrite FloatAxioms.mul_spec.
  apply SFmul_Q; try assumption; apply Prim2SF_valid.
Qed.

Lemma div_toQ :
  ~ toQ b == 0 ->
  - pow2 k < toQ a / toQ b < pow2 k ->
  PrimFloat.is_finite (a / b) = true
  /\ toQ a / toQ b - pow2 (k - 53) <= toQ (a / b)
     <= toQ a / toQ b + pow2 (k - 53)
  /\ - pow2 k <= toQ (a / b) <= pow2 k.
Proof.
  intros Hnz Hk. rewrite is_finite_SF in *. unfold toQ in *.
  rewrite FloatAxioms.div_spec.
  apply SFdiv_Q; try assumption; apply Prim2SF_valid.
Qed.

End DoubleFacts.

(** *** Special cases *)

Lemma is_nan_finite (a : float) :
  PrimFloat.is_finite a = true -> PrimFloat.is_nan a = false.
Proof.
  unfold PrimFloat.is_finite. intros H. apply negb_true_iff in H.
  now apply orb_false_iff in H.
Qed.

Lemma is_nan_SF (a : float) :
  PrimFloat.is_nan a = true <-> Prim2SF a = S754_nan.
Proof.
  unfold PrimFloat.is_nan. rewrite FloatAxioms.eqb_spec, negb_true_iff.
  destruct (Prim2SF a) as [[|]|[|]| |[|] m e]; unfold SFeqb;
    cbn [SFcompare]; rewrite ?Z.compare_refl, ?Pcompare_refl;
    split; intros H; try discriminate H; reflexivity.
Qed.

(** A finite double minus itself is [+0]. *)
Lemma sub_self (a : float) :
  PrimFloat.is_finite a = true -> (a - a)%float = 0%float.
Proof.
  intros Ha. rewrite is_finite_SF in Ha. apply Prim2SF_inj.
  rewrite FloatAxioms.sub_spec. change (Prim2SF 0) with (S754_zero false).
  destruct (Prim2SF a) as [[|]| | |s m e]; try discriminate Ha;
    try reflexivity.
  unfold SF64sub. cbn [SFsub]. now rewrite Z.sub_diag.
Qed.

(** A finite double that is not zero, divided by itself, is [1]. *)
Lemma div_self (a : float) :
  PrimFloat.is_finite a = true -> ~ toQ a == 0 -> (a / a)%float = 1%float.
Proof.
  intros Ha Hnz. rewrite is_finite_SF in Ha. unfold toQ in Hnz.
  apply Prim2SF_inj. rewrite FloatAxioms.div_spec.
  destruct (Prim2SF a) as [s| | |s m e]; try discriminate Ha;
    [exfalso; apply Hnz; reflexivity|].
  unfold SF64div. cbn [SFdiv]. unfold SFdiv_core_binary.
  rewrite !Z.sub_diag.
  change (Z.min (SpecFloat.fexp prec emax 0) 0) with (-53)%Z.
  change (0 - -53)%Z with 53%Z. cbv iota.
  assert (Hdiv : Z.div_eucl (Z.shiftl (Zpos m) 53) (Zpos m)
                 = (2 ^ 53, 0)%Z).
  { rewrite Z.shiftl_mul_pow2 by lia.
    assert (E : Z.div_eucl (Zpos m * 2 ^ 53) (Zpos m)
                = ((Zpos m * 2 ^ 53) / Zpos m,
                   (Zpos m * 2 ^ 53) mod Zpos m)%Z).
    { unfold Z.div, Z.modulo.
      now destruct (Z.div_eucl (Zpos m * 2 ^ 53) (Zpos m)). }
    rewrite E, (Z.mul_comm (Zpos m)), Z.div_mul, Z.mod_mul by lia.
    reflexivity. }
  rewrite Hdiv.
  assert (Hloc : new_location (Zpos m) 0 = loc_Exact)
    by (unfold new_location; destruct (Z.even (Zpos m)); reflexivity).
  rewrite Hloc, xorb_nilpotent. reflexivity.
Qed.

(** The difference of two finite doubles of different values is not zero:
    no underflow. *)
Lemma sub_nonzero (a b : float) :
  PrimFloat.is_finite a = true -> PrimFloat.is_finite b = true ->
  ~ toQ a == toQ b -> nonzeroSF (Prim2SF (a - b)).
Proof.
  intros Ha Hb Hne. rewrite is_finite_SF in Ha, Hb. unfold toQ in Hne.
  rewrite FloatAxioms.sub_spec.
  pose proof (Prim2SF_valid a) as Va. pose proof (Prim2SF_valid b) as Vb.
  destruct (Prim2SF a) as [sa| | |sa ma ea]; try discriminate Ha;
    destruct (Prim2SF b) as [sb| | |sb mb eb]; try discriminate Hb;
    unfold SF64sub; cbn [SFsub nonzeroSF]; try exact I.
  - exfalso. apply Hne. reflexivity.
  - cbn [valid_binary] in Va, Vb.
    destruct (@bounded_cases _ _ Va) as (_ & Hea & _).
    destruct (@bounded_cases _ _ Vb) as (_ & Heb & _).
    set (ez := Z.min ea eb).
    set (M := (cond_Zopp sa (Zpos (fst (shl_align ma ea ez)))
               - cond_Zopp sb (Zpos (fst (shl_align mb eb ez))))%Z).
    assert (HM : M <> 0%Z).
    { intros E. apply Hne.
      rewrite <- (@align_Q sa ma ea ez), <- (@align_Q sb mb eb ez)
        by (unfold ez; lia).
      assert (E' : cond_Zopp sa (Zpos (fst (shl_align ma ea ez)))
                   = cond_Zopp sb (Zpos (fst (shl_align mb eb ez))))
        by (unfold M in E; lia).
      now rewrite E'. }
    pose proof (@normalize_nonzero M ez HM ltac:(unfold ez; lia)) as Hshape.
    destruct (binary_normalize prec emax M ez false); tauto.
Qed.

(** A quotient is [NaN] only for [0 / 0], for infinities, and for [NaN]. *)
Lemma div_not_nan (a b : float) :
  PrimFloat.is_finite a = true -> nonzeroSF (Prim2SF b) ->
  PrimFloat.is_nan (a / b) = false.
Proof.
  intros Ha Hb. rewrite is_finite_SF in Ha.
  apply not_true_iff_false. rewrite is_nan_SF, FloatAxioms.div_spec.
  pose proof (Prim2SF_valid a) as Va. pose proof (Prim2SF_valid b) as Vb.
  destruct (Prim2SF a) as [sa| | |sa ma ea]; try discriminate Ha;
    destruct (Prim2SF b) as [sb|sb| |sb mb eb]; try contradiction;
    unfold SF64div; cbn [SFdiv]; try discriminate.
  cbn [valid_binary] in Va, Vb.
  destruct (@div_core_spec ma mb ea eb Va Vb) as (q & e' & l & -> & Hq & _).
  now apply round_aux_not_nan.
Qed.

(** What a float that is not [NaN] is. *)
Lemma float_cases (a : float) :
  PrimFloat.is_nan a = false ->
  a = 0%float \/ a = (-0)%float \/ a = infinity \/ a = neg_infinity
  \/ (PrimFloat.is_finite a = true /\ ~ toQ a == 0).
Proof.
  intros Hnan. apply not_true_iff_false in Hnan. rewrite is_nan_SF in Hnan.
  rewrite is_finite_SF. unfold toQ.
  pose proof (SF2Prim_Prim2SF a) as E.
  destruct (Prim2SF a) as [[|]|[|]| |s m e].
  - right. left. now rewrite <- E.
  - left. now rewrite <- E.
  - do 3 right. left. now rewrite <- E.
  - do 2 right. left. now rewrite <- E.
  - contradiction.
  - do 4 right. split; [reflexivity|]. cbn [SF2Q].
    pose proof (scale_pos m e) as Hp. destruct s; lra.
Qed.

(** ** The colour index in double arithmetic *)

Lemma toQ_0 : toQ 0%float == 0.
Proof. reflexivity. Qed.

Lemma toQ_1 : toQ 1%float == 1.
Proof. vm_compute. reflexivity. Qed.

Lemma toQ_255 : toQ 255%float == 255.
Proof. vm_compute. reflexivity. Qed.

(** [Math.min(Math.max(q, 0), 1)] for a [q] that is not [NaN]. *)
Lemma clamp_cases (q : float) :
  PrimFloat.is_nan q = false ->
  Double.min (Double.max q 0%float) 1%float = 0%float
  \/ Double.min (Double.max q 0%float) 1%float = 1%float
  \/ (Double.min (Double.max q 0%float) 1%float = q
      /\ PrimFloat.is_finite q = true /\ 0 < toQ q <= 1).
Proof.
  intros Hnan.
  destruct (float_cases q Hnan) as [->|[->|[->|[->|[Hfin Hnz]]]]].
  - left. reflexivity.
  - left. reflexivity.
  - right. left. reflexivity.
  - left. reflexivity.
  - assert (H0 : PrimFloat.is_finite 0%float = true) by reflexivity.
    assert (H1 : PrimFloat.is_finite 1%float = true) by reflexivity.
    pose proof toQ_0 as E0. pose proof toQ_1 as E1.
    unfold Double.max. rewrite Hnan. change (PrimFloat.is_nan 0) with false.
    cbn [orb].
    destruct (q <? 0)%float eqn:Hneg; [left; reflexivity|].
    apply (@ltb_false_toQ q 0%float Hfin H0) in Hneg.
    assert (Hpos : (0 <? q)%float = true)
      by (apply (@ltb_toQ 0%float q H0 Hfin); lra).
    rewrite Hpos. unfold Double.min. rewrite Hnan.
    change (PrimFloat.is_nan 1) with false. cbn [orb].
    destruct (1 <? q)%float eqn:Hbig; [right; left; reflexivity|].
    apply (@ltb_false_toQ 1%float q H1 Hfin) in Hbig.
    right. right.
    assert (Hvalue : 0 < toQ q <= 1) by (split; lra).
    destruct (q <? 1)%float; [now split|].
    change (Double.is_neg_zero 1) with false. cbv iota. now split.
Qed.

(** The result of [binary_round_aux] has the sign it is given. *)
Lemma round_aux_sign (s : bool) (m e : Z) (l : location) :
  finiteSF (binary_round_aux prec emax s m e l) = true ->
  binary_round_aux prec emax s m e l = S754_zero s
  \/ exists m' e', binary_round_aux prec emax s m e l = S754_finite s m' e'.
Proof.
  unfold binary_round_aux.
  destruct (shr_fexp prec emax m e l) as [mrs' e'].
  destruct (shr_fexp prec emax _ e' loc_Exact) as [mrs'' e''].
  destruct (shr_m mrs'') as [|p|p]; [now left | | discriminate].
  destruct (e'' <=? emax - prec)%Z; [|discriminate].
  intros _. right. now exists p, e''.
Qed.

(** [Math.round] of a double between 0 and 255.5 that is not [-0]. *)
Lemma round_index (p : float) (m : positive) (e : Z) :
  Prim2SF p = S754_finite false m e ->
  toQ p < 511 # 2 ->
  exists k : Z, Double.round p = Double.of_Z k /\ (0 <= k <= 255)%Z.
Proof.
  intros Ep Hp. unfold toQ in Hp. rewrite Ep in Hp. cbn [SF2Q] in Hp.
  pose proof (Prim2SF_valid p) as Vp. rewrite Ep in Vp.
  cbn [valid_binary] in Vp.
  destruct (@bounded_cases _ _ Vp) as (Hd & He & Hn).
  pose proof (digits2_bounds m) as [Hlo _].
  assert (Hneg : (e < 0)%Z).
  { destruct (Z.lt_ge_cases e 0) as [H|H]; [exact H|]. exfalso.
    assert (Hm : (2 ^ 52 <= Zpos m)%Z).
    { replace 52%Z with (Zpos (digits2_pos m) - 1)%Z by lia. exact Hlo. }
    apply (@scale_le _ _ e) in Hm.
    pose proof (@pow2_le 0 e H) as Hpe.
    change (pow2 0) with 1 in Hpe.
    assert (H52 : inject_Z (2 ^ 52) * pow2 e >= inject_Z (2 ^ 52) * 1).
    { apply Qmult_le_l; [reflexivity | exact Hpe]. }
    change (inject_Z (2 ^ 52)) with (4503599627370496 # 1) in *. lra. }
  unfold Double.round. rewrite Ep.
  destruct (Z.leb_spec 0 e) as [H|_]; [lia|].
  exists (Double.round_pos m e). split; [reflexivity|].
  destruct e as [|pe|pe]; try lia. unfold Double.round_pos.
  rewrite !Z.shiftr_div_pow2 by lia. change (2 ^ 1)%Z with 2%Z.
  assert (Hm : (Zpos m < 511 * 2 ^ (Zpos pe - 1))%Z).
  { apply scale_lt_inv with (e := (1 - Zpos pe)%Z).
    rewrite scale_shift by lia.
    replace (1 - Zpos pe + (Zpos pe - 1))%Z with 0%Z by lia.
    change (pow2 0) with 1.
    replace (1 - Zpos pe)%Z with (Zneg pe + 1)%Z by lia.
    rewrite pow2_add. change (pow2 1) with 2.
    change (inject_Z 511) with (511 # 1). lra. }
  assert (Hq : (0 <= Zpos m / 2 ^ (Zpos pe - 1) < 511)%Z).
  { split; [apply Z.div_pos; [lia | apply Z.pow_pos_nonneg; lia]|].
    apply Z.div_lt_upper_bound; [apply Z.pow_pos_nonneg; lia | lia]. }
  split.
  - apply Z.div_pos; lia.
  - assert (Htop : ((Zpos m / 2 ^ (Zpos pe - 1) + 1) / 2 < 256)%Z)
      by (apply Z.div_lt_upper_bound; lia).
    lia.
Qed.

(** A clamped value times 255, rounded, is an index of the palette. *)
Lemma scaled_index (c : float) :
  PrimFloat.is_finite c = true -> 0 < toQ c <= 1 ->
  exists k : Z, Double.round (c * 255)%float = Double.of_Z k
                /\ (0 <= k <= 255)%Z.
Proof.
  intros Hc [Hpos Hone].
  assert (H255 : PrimFloat.is_finite 255%float = true) by reflexivity.
  pose proof toQ_255 as E255.
  destruct (@mul_toQ c 255%float Hc H255 8 ltac:(lia))
    as (Hfin & [_ Hhi] & _ & Hsign).
  { change (pow2 8) with 256. rewrite E255. split; lra. }
  change (pow2 (8 - 53)) with (1 # 35184372088832) in Hhi.
  rewrite E255 in Hhi, Hsign.
  assert (Hnonneg : 0 <= toQ (c * 255)) by (apply Hsign; lra).
  assert (Hshape : Prim2SF (c * 255) = S754_zero false
                   \/ exists m e, Prim2SF (c * 255) = S754_finite false m e).
  { rewrite is_finite_SF in Hc, Hfin. unfold toQ in Hpos.
    rewrite FloatAxioms.mul_spec in *.
    change (Prim2SF 255) with (S754_finite false 8972014882652160 (-45)) in *.
    destruct (Prim2SF c) as [s| | |s m e]; try discriminate Hc.
    - cbn [SF2Q] in Hpos. lra.
    - destruct s.
      + cbn [SF2Q] in Hpos. pose proof (scale_pos m e). lra.
      + unfold SF64mul in *. cbn [SFmul xorb] in *.
        now apply round_aux_sign. }
  destruct Hshape as [Ez|(m & e & Ep)].
  - exists 0%Z. split; [|lia].
    unfold Double.round. now rewrite Ez, <- (SF2Prim_Prim2SF (c * 255)), Ez.
  - apply (@round_index _ _ _ Ep). lra.
Qed.

Lemma clamp_zero_div (d : float) :
  nonzeroSF (Prim2SF d) ->
  Double.min (Double.max (0 / d)%float 0%float) 1%float = 0%float.
Proof.
  intros Hd.
  assert (E : (0 / d)%float = 0%float \/ (0 / d)%float = (-0)%float).
  { pose proof (SF2Prim_Prim2SF (0 / d)) as E.
    rewrite FloatAxioms.div_spec in E.
    change (Prim2SF 0) with (S754_zero false) in E.
    destruct (Prim2SF d) as [s|s| |s m e]; try contradiction;
      unfold SF64div in E; cbn [SFdiv xorb] in E; rewrite <- E;
      destruct s; cbn; tauto. }
  destruct E as [-> | ->]; reflexivity.
Qed.

(** C3, amended.  In double arithmetic, for finite [v], [min] and [max]
    with [min < max], and provided the difference [v - min] does not
    overflow, the colour index [Math.round(normalize(v, max, min) * 255)]
    is an integer between 0 and 255, for [v] inside the domain and, by the
    clamp, also outside of it.  It is 0 at [v = min], and it is 255 at
    [v = max] provided [max - min] does not overflow. *)
Theorem color_index_range (v lo hi : double) :
  PrimFloat.is_finite v = true ->
  PrimFloat.is_finite lo = true ->
  PrimFloat.is_finite hi = true ->
  PrimFloat.ltb lo hi = true ->
  PrimFloat.is_finite (v - lo) = true ->
  (exists k : Z, colorIndex v hi lo = of_Z k /\ (0 <= k <= 255)%Z)
  /\ colorIndex lo hi lo = of_Z 0
  /\ (PrimFloat.is_finite (hi - lo) = true ->
      colorIndex hi hi lo = of_Z 255).
Proof.
  intros Hv Hlo Hhi Hlt Hdiff.
  assert (Hne : ~ toQ hi == toQ lo).
  { apply (@ltb_toQ lo hi Hlo Hhi) in Hlt. lra. }
  pose proof (@sub_nonzero hi lo Hhi Hlo Hne) as Hwidth.
  assert (Eindex : forall a,
            colorIndex a hi lo
            = Double.round
                (Double.min (Double.max ((a - lo) / (hi - lo)) 0) 1
                 * 255)%float)
    by reflexivity.
  rewrite !Eindex. split; [|split].
  - pose proof (@div_not_nan (v - lo) (hi - lo) Hdiff Hwidth) as Hnan.
    destruct (@clamp_cases _ Hnan) as [-> | [-> | (-> & Hfin & Hunit)]].
    + exists 0%Z. split; [reflexivity | lia].
    + exists 255%Z. split; [reflexivity | lia].
    + now apply scaled_index.
  - rewrite (@sub_self lo Hlo), (@clamp_zero_div _ Hwidth). reflexivity.
  - intros Hfin. rewrite div_self; [reflexivity | exact Hfin |].
    intros Hzero. unfold toQ in Hzero.
    rewrite is_finite_SF in Hfin.
    destruct (Prim2SF (hi - lo)) as [s|s| |s m e]; try contradiction;
      try discriminate Hfin.
    cbn [SF2Q] in Hzero. pose proof (scale_pos m e). destruct s; lra.
Qed.

(** The yield of 150 kWh between 100 and 200 kWh. *)
Lemma color_index_range_run :
  PrimFloat.is_finite 150%float = true
  /\ PrimFloat.is_finite 100%float = true
  /\ PrimFloat.is_finite 200%float = true
  /\ PrimFloat.ltb 100%float 200%float = true
  /\ PrimFloat.is_finite (150 - 100)%float = true
  /\ exists k : Z,
       colorIndex (num := double) 150%float 200%float 100%float = of_Z k
       /\ (0 <= k <= 255)%Z.
Proof.
  assert (Hv : PrimFloat.is_finite 150%float = true) by reflexivity.
  assert (Hlo : PrimFloat.is_finite 100%float = true) by reflexivity.
  assert (Hhi : PrimFloat.is_finite 200%float = true) by reflexivity.
  assert (Hlt : PrimFloat.ltb 100%float 200%float = true) by reflexivity.
  assert (Hdiff : PrimFloat.is_finite (150 - 100)%float = true)
    by reflexivity.
  split; [exact Hv|]. split; [exact Hlo|]. split; [exact Hhi|].
  split; [exact Hlt|]. split; [exact Hdiff|].
  destruct (@color_index_range 150%float 100%float 200%float
              Hv Hlo Hhi Hlt Hdiff) as [Hindex _].
  exact Hindex.
Defined.

(** ** The segment box in double arithmetic *)

Lemma toQ_2 : toQ 2%float == 2.
Proof. vm_compute. reflexivity. Qed.

Lemma toQ_tenth :
  toQ Double.tenth == 3602879701896397 # 36028797018963968.
Proof. vm_compute. reflexivity. Qed.

Lemma toQ_reach : toQ reach == 33554432.
Proof. vm_compute. reflexivity. Qed.

(** Closed powers of two are replaced by their values. *)
Ltac pow2_values :=
  repeat match goal with
         | |- context [pow2 ?z] =>
             let v := eval vm_compute in (pow2 z) in
             change (pow2 z) with v
         | H : context [pow2 ?z] |- _ =>
             let v := eval vm_compute in (pow2 z) in
             change (pow2 z) with v in H
         end.

Lemma within_reach (c : float) :
  PrimFloat.leb (PrimFloat.abs c) reach = true ->
  PrimFloat.is_finite c = true /\ - (33554432) <= toQ c <= 33554432.
Proof.
  intros H. rewrite FloatAxioms.leb_spec, FloatAxioms.abs_spec in H.
  rewrite is_finite_SF. unfold toQ.
  pose proof (Prim2SF_valid c) as V.
  destruct (Prim2SF c) as [s|s| |s m e]; try discriminate H.
  - split; [reflexivity|]. cbn [SF2Q]. lra.
  - split; [reflexivity|].
    assert (V' : valid_binary (S754_finite false m e) = true) by exact V.
    unfold SFleb in H. cbn [SFabs] in H.
    rewrite (@SFcompare_Q _ _ V' (Prim2SF_valid reach) eq_refl eq_refl)
      in H.
    fold (toQ reach) in H.
    assert (Hle : SF2Q (S754_finite false m e) <= toQ reach).
    { apply Qle_alt. destruct (_ ?= _); congruence. }
    rewrite toQ_reach in Hle. cbn [SF2Q] in *.
    pose proof (scale_pos m e). destruct s; lra.
Qed.

(** [H] becomes the conclusion of the rounding lemma [lemma], whose
    range condition is left as the first goal. *)
Ltac rounding H lemma :=
  pose proof lemma as H; pow2_values;
  let C := fresh "C" in
  match type of H with
  | ?A -> _ => assert (C : A); [|specialize (H C); clear C]
  end.

Lemma half_Q (q : Q) : q / 2 == q * (1 # 2).
Proof. reflexivity. Qed.

(** One axis, in double arithmetic, for [a] and [b] at most [2^25] in
    magnitude.  The ends of the interval and the two computed differences
    are finite; up to [2^-23], the computed raw extent is [b - a], the
    computed final extent is the distance of the ends, and the interval is
    centred on the middle of [a] and [b]; and, up to [2^-23], either the
    interval is 2 long and 1.2 times the raw extent is no more than that,
    or it is 1.2 times the raw extent long and at least 2. *)
Lemma axis_double (a b : float) :
  PrimFloat.is_finite a = true -> PrimFloat.is_finite b = true ->
  - (33554432) <= toQ a <= 33554432 ->
  - (33554432) <= toQ b <= 33554432 ->
  PrimFloat.is_finite (fst (axis a b)) = true
  /\ PrimFloat.is_finite (snd (axis a b)) = true
  /\ PrimFloat.is_finite (b - a) = true
  /\ PrimFloat.is_finite (snd (axis a b) - fst (axis a b)) = true
  /\ - (1 # 8388608) <= toQ (b - a) - (toQ b - toQ a) <= 1 # 8388608
  /\ - (1 # 8388608)
     <= toQ (snd (axis a b) - fst (axis a b))
        - (toQ (snd (axis a b)) - toQ (fst (axis a b)))
     <= 1 # 8388608
  /\ - (1 # 8388608)
     <= toQ (fst (axis a b)) + toQ (snd (axis a b)) - (toQ a + toQ b)
     <= 1 # 8388608
  /\ ((- (1 # 8388608)
       <= toQ (snd (axis a b)) - toQ (fst (axis a b)) - 2
       <= 1 # 8388608
       /\ (12 # 10) * (toQ b - toQ a) <= 2 + (1 # 8388608))
      \/ (- (1 # 8388608)
          <= toQ (snd (axis a b)) - toQ (fst (axis a b))
             - (12 # 10) * (toQ b - toQ a)
          <= 1 # 8388608
          /\ 2 - (1 # 8388608)
             <= toQ (snd (axis a b)) - toQ (fst (axis a b)))).
Proof.
  intros Ha Hb Ra Rb.
  pose proof toQ_tenth as ET. pose proof toQ_2 as E2.
  pose proof toQ_1 as E1.
  assert (Ften : PrimFloat.is_finite Double.tenth = true) by reflexivity.
  assert (Ftwo : PrimFloat.is_finite 2%float = true) by reflexivity.
  assert (Fone : PrimFloat.is_finite 1%float = true) by reflexivity.
  rounding Hw (@sub_toQ b a Hb Ha 27 ltac:(lia)); [split; lra|].
  destruct Hw as (Fw & Hw & _).
  rounding Hp (@mul_toQ (b - a)%float Double.tenth Fw Ften 24 ltac:(lia)).
  { rewrite ET. split; lra. }
  destruct Hp as (Fp & Hp & _). rewrite ET in Hp.
  set (w := (b - a)%float) in *. set (p := (w * Double.tenth)%float) in *.
  rounding Hlo (@sub_toQ a p Ha Fp 26 ltac:(lia)); [split; lra|].
  destruct Hlo as (Flo & Hlo & _).
  rounding Hhi (@add_toQ b p Hb Fp 26 ltac:(lia)); [split; lra|].
  destruct Hhi as (Fhi & Hhi & _).
  set (lo := (a - p)%float) in *. set (hi := (b + p)%float) in *.
  rounding Ht (@sub_toQ hi lo Fhi Flo 27 ltac:(lia)); [split; lra|].
  destruct Ht as (Ft & Ht & _).
  assert (E : axis a b
              = if (hi - lo <? 2)%float
                then (((hi + lo) / 2 - 1)%float, ((hi + lo) / 2 + 1)%float)
                else (lo, hi)) by reflexivity.
  rewrite E. clear E.
  destruct (hi - lo <? 2)%float eqn:Hshort; cbn [fst snd].
  - apply (@ltb_toQ (hi - lo)%float 2%float Ft Ftwo) in Hshort.
    rewrite E2 in Hshort.
    rounding Hs (@add_toQ hi lo Fhi Flo 27 ltac:(lia)); [split; lra|].
    destruct Hs as (Fs & Hs & _).
    set (s := (hi + lo)%float) in *.
    assert (Hnz : ~ toQ 2%float == 0) by (rewrite E2; lra).
    rounding Hc (@div_toQ s 2%float Fs Ftwo 26 ltac:(lia) Hnz).
    { rewrite E2, half_Q. split; lra. }
    destruct Hc as (Fc & Hc & _). rewrite E2, half_Q in Hc.
    set (c := (s / 2)%float) in *.
    rounding Hl (@sub_toQ c 1%float Fc Fone 27 ltac:(lia)).
    { rewrite E1. split; lra. }
    destruct Hl as (Fl & Hl & _). rewrite E1 in Hl.
    rounding Hh (@add_toQ c 1%float Fc Fone 27 ltac:(lia)).
    { rewrite E1. split; lra. }
    destruct Hh as (Fh & Hh & _). rewrite E1 in Hh.
    set (l := (c - 1)%float) in *. set (h := (c + 1)%float) in *.
    rounding He (@sub_toQ h l Fh Fl 2 ltac:(lia)); [split; lra|].
    destruct He as (Fe & He & _).
    split; [exact Fl|]. split; [exact Fh|]. split; [exact Fw|].
    split; [exact Fe|]. split; [split; lra|]. split; [split; lra|].
    split; [split; lra|]. left. split; [split; lra | lra].
  - apply (@ltb_false_toQ (hi - lo)%float 2%float Ft Ftwo) in Hshort.
    rewrite E2 in Hshort.
    split; [exact Flo|]. split; [exact Fhi|]. split; [exact Fw|].
    split; [exact Ft|]. split; [split; lra|]. split; [split; lra|].
    split; [split; lra|]. right. split; [split; lra | lra].
Qed.

(** *** The tight box in double arithmetic *)

Lemma min_finite (a b : float) :
  PrimFloat.is_finite a = true -> PrimFloat.is_finite b = true ->
  (Double.min a b = a \/ Double.min a b = b)
  /\ toQ (Double.min a b) <= toQ a /\ toQ (Double.min a b) <= toQ b.
Proof.
  intros Ha Hb. unfold Double.min.
  rewrite (@is_nan_finite _ Ha), (@is_nan_finite _ Hb). cbn [orb].
  destruct (b <? a)%float eqn:E1.
  - apply (@ltb_toQ b a Hb Ha) in E1. split; [now right|]. split; lra.
  - apply (@ltb_false_toQ b a Hb Ha) in E1.
    destruct (a <? b)%float eqn:E2.
    + split; [now left|]. split; lra.
    + apply (@ltb_false_toQ a b Ha Hb) in E2.
      destruct (Double.is_neg_zero b); (split; [tauto|]); split; lra.
Qed.

Lemma max_finite (a b : float) :
  PrimFloat.is_finite a = true -> PrimFloat.is_finite b = true ->
  (Double.max a b = a \/ Double.max a b = b)
  /\ toQ a <= toQ (Double.max a b) /\ toQ b <= toQ (Double.max a b).
Proof.
  intros Ha Hb. unfold Double.max.
  rewrite (@is_nan_finite _ Ha), (@is_nan_finite _ Hb). cbn [orb].
  destruct (a <? b)%float eqn:E1.
  - apply (@ltb_toQ a b Ha Hb) in E1. split; [now right|]. split; lra.
  - apply (@ltb_false_toQ a b Ha Hb) in E1.
    destruct (b <? a)%float eqn:E2.
    + split; [now left|]. split; lra.
    + apply (@ltb_false_toQ b a Hb Ha) in E2.
      destruct (Double.is_neg_zero a); (split; [tauto|]); split; lra.
Qed.

Lemma min_infinity (b : float) :
  PrimFloat.is_finite b = true -> Double.min infinity b = b.
Proof.
  intros Hb. unfold Double.min.
  change (PrimFloat.is_nan infinity) with false.
  rewrite (@is_nan_finite _ Hb). cbn [orb].
  assert (E : (b <? infinity)%float = true).
  { rewrite FloatAxioms.ltb_spec. rewrite is_finite_SF in Hb.
    change (Prim2SF infinity) with (S754_infinity false).
    destruct (Prim2SF b) as [[|]| | |[|] m e]; try discriminate Hb;
      reflexivity. }
  now rewrite E.
Qed.

Lemma max_neg_infinity (b : float) :
  PrimFloat.is_finite b = true -> Double.max neg_infinity b = b.
Proof.
  intros Hb. unfold Double.max.
  change (PrimFloat.is_nan neg_infinity) with false.
  rewrite (@is_nan_finite _ Hb). cbn [orb].
  assert (E : (neg_infinity <? b)%float = true).
  { rewrite FloatAxioms.ltb_spec. rewrite is_finite_SF in Hb.
    change (Prim2SF neg_infinity) with (S754_infinity true).
    destruct (Prim2SF b) as [[|]| | |[|] m e]; try discriminate Hb;
      reflexivity. }
  now rewrite E.
Qed.

(** The fold of [extend], side by side. *)
Lemma fold_extend_sides (num : Type) (N : Number num)
    (pts : list (XY num)) :
  forall b : Box,
    fold_left extend pts b
    = {| minX := fold_left Math_min (List.map (@x num) pts) (minX b);
         maxX := fold_left Math_max (List.map (@x num) pts) (maxX b);
         minY := fold_left Math_min (List.map (@y num) pts) (minY b);
         maxY := fold_left Math_max (List.map (@y num) pts) (maxY b) |}.
Proof.
  induction pts as [|p pts IH]; intros b.
  - now destruct b.
  - cbn [fold_left List.map]. rewrite IH. reflexivity.
Qed.

Lemma fold_min_finite (cs : list float) :
  forall m : float,
    inReach m -> Forall inReach cs ->
    (fold_left Double.min cs m = m \/ In (fold_left Double.min cs m) cs)
    /\ toQ (fold_left Double.min cs m) <= toQ m
    /\ forall c, In c cs -> toQ (fold_left Double.min cs m) <= toQ c.
Proof.
  induction cs as [|c cs IH]; intros m Hm Hcs.
  - cbn. split; [now left|]. split; [lra | intros c []].
  - inversion Hcs as [|c' cs' Hc Hrest]; subst. cbn [fold_left].
    destruct (@min_finite _ _ (proj1 Hm) (proj1 Hc)) as (Hsel & Hle1 & Hle2).
    assert (Hnext : inReach (Double.min m c))
      by (destruct Hsel as [-> | ->]; assumption).
    destruct (IH _ Hnext Hrest) as (Hin & Hle & Hall).
    split; [|split].
    + destruct Hin as [E|Hin]; [|right; now right].
      rewrite E. destruct Hsel as [-> | ->]; [now left|right; now left].
    + lra.
    + intros d [<-|Hd]; [lra | now apply Hall].
Qed.

Lemma fold_max_finite (cs : list float) :
  forall m : float,
    inReach m -> Forall inReach cs ->
    (fold_left Double.max cs m = m \/ In (fold_left Double.max cs m) cs)
    /\ toQ m <= toQ (fold_left Double.max cs m)
    /\ forall c, In c cs -> toQ c <= toQ (fold_left Double.max cs m).
Proof.
  induction cs as [|c cs IH]; intros m Hm Hcs.
  - cbn. split; [now left|]. split; [lra | intros c []].
  - inversion Hcs as [|c' cs' Hc Hrest]; subst. cbn [fold_left].
    destruct (@max_finite _ _ (proj1 Hm) (proj1 Hc)) as (Hsel & Hle1 & Hle2).
    assert (Hnext : inReach (Double.max m c))
      by (destruct Hsel as [-> | ->]; assumption).
    destruct (IH _ Hnext Hrest) as (Hin & Hle & Hall).
    split; [|split].
    + destruct Hin as [E|Hin]; [|right; now right].
      rewrite E. destruct Hsel as [-> | ->]; [now left|right; now left].
    + lra.
    + intros d [<-|Hd]; [lra | now apply Hall].
Qed.

(** Folded from [Infinity], the minimum of a non-empty list is one of its
    members, below all the others; likewise for the maximum. *)
Lemma tight_min (cs : list float) :
  cs <> [] -> Forall inReach cs ->
  In (fold_left Double.min cs infinity) cs
  /\ forall c, In c cs -> toQ (fold_left Double.min cs infinity) <= toQ c.
Proof.
  destruct cs as [|c cs]; [congruence|]. intros _ Hcs.
  inversion Hcs as [|c' cs' Hc Hrest]; subst. cbn [fold_left].
  rewrite (@min_infinity _ (proj1 Hc)).
  destruct (@fold_min_finite cs c Hc Hrest) as (Hin & Hle & Hall).
  split.
  - destruct Hin as [-> | Hin]; [now left | now right].
  - intros d [<-|Hd]; [lra | now apply Hall].
Qed.

Lemma tight_max (cs : list float) :
  cs <> [] -> Forall inReach cs ->
  In (fold_left Double.max cs neg_infinity) cs
  /\ forall c, In c cs ->
       toQ c <= toQ (fold_left Double.max cs neg_infinity).
Proof.
  destruct cs as [|c cs]; [congruence|]. intros _ Hcs.
  inversion Hcs as [|c' cs' Hc Hrest]; subst. cbn [fold_left].
  rewrite (@max_neg_infinity _ (proj1 Hc)).
  destruct (@fold_max_finite cs c Hc Hrest) as (Hin & Hle & Hall).
  split.
  - destruct Hin as [-> | Hin]; [now left | now right].
  - intros d [<-|Hd]; [lra | now apply Hall].
Qed.

Lemma nearby_inReach (pts : list (XY double)) :
  forallb nearby pts = true ->
  Forall inReach (List.map (@x double) pts)
  /\ Forall inReach (List.map (@y double) pts).
Proof.
  induction pts as [|p pts IH]; cbn [forallb List.map].
  - intros _. split; constructor.
  - intros H. apply andb_true_iff in H. destruct H as [Hp Hpts].
    apply andb_true_iff in Hp. destruct Hp as [Hx Hy].
    destruct (IH Hpts) as [IHx IHy].
    split; constructor; try assumption; now apply within_reach.
Qed.

(** The tight box of positions within reach: its sides are coordinates
    within reach, and no position lies outside of it. *)
Lemma tightBox_double (pts : list (XY double)) :
  pts <> [] -> forallb nearby pts = true ->
  inReach (minX (tightBox pts)) /\ inReach (maxX (tightBox pts))
  /\ inReach (minY (tightBox pts)) /\ inReach (maxY (tightBox pts))
  /\ forall p, In p pts ->
       toQ (minX (tightBox pts)) <= toQ (x p) <= toQ (maxX (tightBox pts))
       /\ toQ (minY (tightBox pts)) <= toQ (y p)
          <= toQ (maxY (tightBox pts)).
Proof.
  intros Hfull Hnear. destruct (@nearby_inReach pts Hnear) as [Hxs Hys].
  unfold tightBox. rewrite fold_extend_sides. cbn [minX maxX minY maxY].
  assert (Hfx : List.map (@x double) pts <> [])
    by (destruct pts; [congruence | discriminate]).
  assert (Hfy : List.map (@y double) pts <> [])
    by (destruct pts; [congruence | discriminate]).
  destruct (@tight_min _ Hfx Hxs) as [Ix Lx].
  destruct (@tight_max _ Hfx Hxs) as [Jx Ux].
  destruct (@tight_min _ Hfy Hys) as [Iy Ly].
  destruct (@tight_max _ Hfy Hys) as [Jy Uy].
  pose proof (proj1 (Forall_forall _ _) Hxs) as Ax.
  pose proof (proj1 (Forall_forall _ _) Hys) as Ay.
  split; [now apply Ax|]. split; [now apply Ax|].
  split; [now apply Ay|]. split; [now apply Ay|].
  intros p Hp.
  pose proof (in_map (@x double) _ _ Hp) as Px.
  pose proof (in_map (@y double) _ _ Hp) as Py.
  split; split; auto.
Qed.

(** The final box, axis by axis. *)
Lemma boundingBox_axes (pts : list (XY double)) :
  boundingBox pts
  = {| minX := fst (axis (minX (tightBox pts)) (maxX (tightBox pts)));
       maxX := snd (axis (minX (tightBox pts)) (maxX (tightBox pts)));
       minY := fst (axis (minY (tightBox pts)) (maxY (tightBox pts)));
       maxY := snd (axis (minY (tightBox pts)) (maxY (tightBox pts))) |}.
Proof.
  unfold boundingBox, clampBox, padBox, axis. cbn [minX maxX minY maxY].
  destruct (ensureMinSize _ _) as [lx hx].
  destruct (ensureMinSize _ _) as [ly hy]. reflexivity.
Qed.

Lemma width_double (b : Box (num := double)) :
  width b = (@maxX double b - @minX double b)%float.
Proof. reflexivity. Qed.

Lemma height_double (b : Box (num := double)) :
  height b = (@maxY double b - @minY double b)%float.
Proof. reflexivity. Qed.

(** C2, as stated, on doubles: the positions [(0.3, 0)] and [(33.3, 0)]
    are 33 m apart and get a box 39.599999999999994 m wide, less than 1.2
    times 33 both as a double product and as a number. *)
Example bounding_box_double_below_padding :
  let pts := [mkXY 0x1.3333333333333p-2%float 0%float;
              mkXY 0x1.0a66666666666p+5%float 0%float] in
  width (tightBox pts) = 33%float
  /\ width (boundingBox pts) = 0x1.3ccccccccccccp+5%float
  /\ PrimFloat.ltb (width (boundingBox pts))
       ((1 + 2 * Double.tenth) * width (tightBox pts))%float = true
  /\ toQ (width (boundingBox pts))
     < (1 + 2 * (1 # 10)) * toQ (width (tightBox pts)).
Proof.
  cbv zeta. split; [reflexivity|]. split; [reflexivity|].
  split; [reflexivity|]. vm_compute. reflexivity.
Qed.

(** C2, as stated, on doubles: a position [2^54] m away, where the
    doubles are 4 m apart, gets a box of width 0. *)
Example bounding_box_double_far :
  boundingBox (num := double) [mkXY 0x1p54%float 0%float]
  = {| minX := 0x1p54%float; maxX := 0x1p54%float;
       minY := (-1)%float; maxY := 1%float |}
  /\ width (boundingBox (num := double) [mkXY 0x1p54%float 0%float])
     = 0%float.
Proof. split; reflexivity. Qed.

(** C2, amended.  In double arithmetic, as the code runs, for a non-empty
    list of local positions whose coordinates are at most [2^25] m in
    magnitude: the sides and the extents of the tight and of the final box
    are finite; the final extent on each axis is at least [minSize = 2] up
    to [2^-20], and at least [(1 + 2 * 0.1)] times the raw extent up to
    [2^-20], whatever the raw extent.  This holds of the extents as the
    doubles [maxX - minX] and [maxY - minY], and of the extents as the
    distances between the sides. *)
Theorem bounding_box_extents (pts : list (XY double)) :
  pts <> [] -> forallb nearby pts = true ->
  let raw := tightBox pts in
  let box := boundingBox pts in
  (finiteSides raw = true /\ finiteSides box = true
   /\ PrimFloat.is_finite (width raw) = true
   /\ PrimFloat.is_finite (height raw) = true
   /\ PrimFloat.is_finite (width box) = true
   /\ PrimFloat.is_finite (height box) = true)
  /\ (2 - (1 # 1048576) <= toQ (width box)
      /\ 2 - (1 # 1048576) <= toQ (height box)
      /\ (1 + 2 * (1 # 10)) * toQ (width raw) - (1 # 1048576)
         <= toQ (width box)
      /\ (1 + 2 * (1 # 10)) * toQ (height raw) - (1 # 1048576)
         <= toQ (height box))
  /\ (2 - (1 # 1048576) <= spanX box
      /\ 2 - (1 # 1048576) <= spanY box
      /\ (1 + 2 * (1 # 10)) * spanX raw - (1 # 1048576) <= spanX box
      /\ (1 + 2 * (1 # 10)) * spanY raw - (1 # 1048576) <= spanY box).
Proof.
  intros Hfull Hnear raw box. subst raw box.
  destruct (@tightBox_double pts Hfull Hnear)
    as ([Fa Ra] & [Fb Rb] & [Fc Rc] & [Fd Rd] & _).
  destruct (@axis_double _ _ Fa Fb Ra Rb)
    as (Fl & Fh & Fw & Fe & Hw & He & _ & Hx).
  destruct (@axis_double _ _ Fc Fd Rc Rd)
    as (Fl' & Fh' & Fw' & Fe' & Hw' & He' & _ & Hy).
  rewrite boundingBox_axes, !width_double, !height_double.
  unfold spanX, spanY, finiteSides. cbn [minX maxX minY maxY].
  rewrite Fa, Fb, Fc, Fd, Fl, Fh, Fl', Fh'.
  split; [now repeat split|].
  destruct Hx as [[Hx Hr] | [Hx Hr]], Hy as [[Hy Hs] | [Hy Hs]];
    (split; [split; [lra|split; [lra|split; lra]]
            |split; [lra|split; [lra|split; lra]]]).
Qed.

(** X3.  In double arithmetic, for positions at most [2^25] m away, every
    position lies inside the final box of its segment, at least 1/8 m from
    each side. *)
Theorem bounding_box_encloses (pts : list (XY double)) :
  pts <> [] -> forallb nearby pts = true ->
  finiteSides (boundingBox pts) = true
  /\ forall p, In p pts ->
       toQ (minX (boundingBox pts)) + (1 # 8) <= toQ (x p)
       /\ toQ (x p) + (1 # 8) <= toQ (maxX (boundingBox pts))
       /\ toQ (minY (boundingBox pts)) + (1 # 8) <= toQ (y p)
       /\ toQ (y p) + (1 # 8) <= toQ (maxY (boundingBox pts)).
Proof.
  intros Hfull Hnear.
  destruct (@tightBox_double pts Hfull Hnear)
    as ([Fa Ra] & [Fb Rb] & [Fc Rc] & [Fd Rd] & Hin).
  destruct (@axis_double _ _ Fa Fb Ra Rb)
    as (Fl & Fh & _ & _ & _ & _ & Hmid & Hx).
  destruct (@axis_double _ _ Fc Fd Rc Rd)
    as (Fl' & Fh' & _ & _ & _ & _ & Hmid' & Hy).
  rewrite boundingBox_axes. unfold finiteSides. cbn [minX maxX minY maxY].
  rewrite Fl, Fh, Fl', Fh'. split; [reflexivity|].
  intros p Hp. destruct (Hin p Hp) as ([Hx1 Hx2] & Hy1 & Hy2).
  destruct Hx as [[Hx Hr] | [Hx Hr]], Hy as [[Hy Hs] | [Hy Hs]];
    (split; [lra|split; [lra|split; lra]]).
Qed.

(** X5.  In double arithmetic, for positions at most [2^25] m away,
    padding and clamping keep the centre of the tight box on both axes up
    to [2^-20], and the final extent on each axis is
    [max(minSize, 1.2 * raw extent)] up to [2^-20], both as the double
    that the subtraction of the sides gives and as their distance. *)
Theorem bounding_box_centred (pts : list (XY double)) :
  pts <> [] -> forallb nearby pts = true ->
  let raw := tightBox pts in
  let box := boundingBox pts in
  (- (1 # 1048576)
   <= (toQ (minX box) + toQ (maxX box)) / 2
      - (toQ (minX raw) + toQ (maxX raw)) / 2
   <= 1 # 1048576
   /\ - (1 # 1048576)
      <= (toQ (minY box) + toQ (maxY box)) / 2
         - (toQ (minY raw) + toQ (maxY raw)) / 2
      <= 1 # 1048576)
  /\ (- (1 # 1048576)
      <= toQ (width box) - Qmax 2 ((1 + 2 * (1 # 10)) * toQ (width raw))
      <= 1 # 1048576
      /\ - (1 # 1048576)
         <= toQ (height box)
            - Qmax 2 ((1 + 2 * (1 # 10)) * toQ (height raw))
         <= 1 # 1048576)
  /\ (- (1 # 1048576)
      <= spanX box - Qmax 2 ((1 + 2 * (1 # 10)) * spanX raw)
      <= 1 # 1048576
      /\ - (1 # 1048576)
         <= spanY box - Qmax 2 ((1 + 2 * (1 # 10)) * spanY raw)
         <= 1 # 1048576).
Proof.
  intros Hfull Hnear raw box. subst raw box.
  destruct (@tightBox_double pts Hfull Hnear)
    as ([Fa Ra] & [Fb Rb] & [Fc Rc] & [Fd Rd] & _).
  destruct (@axis_double _ _ Fa Fb Ra Rb)
    as (_ & _ & _ & _ & Hw & He & Hmid & Hx).
  destruct (@axis_double _ _ Fc Fd Rc Rd)
    as (_ & _ & _ & _ & Hw' & He' & Hmid' & Hy).
  rewrite boundingBox_axes, !width_double, !height_double.
  unfold spanX, spanY. cbn [minX maxX minY maxY]. rewrite !half_Q.
  split; [split; split; lra|].
  split; split.
  - destruct (Q.max_spec 2
                ((1 + 2 * (1 # 10))
                 * toQ (maxX (tightBox pts) - minX (tightBox pts))%float))
      as [[Hcase ->] | [Hcase ->]];
      destruct Hx as [[Hx Hr] | [Hx Hr]]; split; lra.
  - destruct (Q.max_spec 2
                ((1 + 2 * (1 # 10))
                 * toQ (maxY (tightBox pts) - minY (tightBox pts))%float))
      as [[Hcase ->] | [Hcase ->]];
      destruct Hy as [[Hy Hs] | [Hy Hs]]; split; lra.
  - destruct (Q.max_spec 2
                ((1 + 2 * (1 # 10))
                 * (toQ (maxX (tightBox pts)) - toQ (minX (tightBox pts)))))
      as [[Hcase ->] | [Hcase ->]];
      destruct Hx as [[Hx Hr] | [Hx Hr]]; split; lra.
  - destruct (Q.max_spec 2
                ((1 + 2 * (1 # 10))
                 * (toQ (maxY (tightBox pts)) - toQ (minY (tightBox pts)))))
      as [[Hcase ->] | [Hcase ->]];
      destruct Hy as [[Hy Hs] | [Hy Hs]]; split; lra.
Qed.

(** X6.  In double arithmetic, a segment with a single panel position [p]
    at most [2^25] m away gets the square of side [minSize = 2] centred on
    [p], each side up to [2^-20]. *)
Theorem single_panel_box (p : XY double) :
  nearby p = true ->
  let box := boundingBox [p] in
  finiteSides box = true
  /\ - (1 # 1048576) <= toQ (minX box) - (toQ (x p) - 1) <= 1 # 1048576
  /\ - (1 # 1048576) <= toQ (maxX box) - (toQ (x p) + 1) <= 1 # 1048576
  /\ - (1 # 1048576) <= toQ (minY box) - (toQ (y p) - 1) <= 1 # 1048576
  /\ - (1 # 1048576) <= toQ (maxY box) - (toQ (y p) + 1) <= 1 # 1048576.
Proof.
  intros Hnear box. subst box.
  apply andb_true_iff in Hnear. destruct Hnear as [Hx Hy].
  destruct (@within_reach _ Hx) as [Fx Rx].
  destruct (@within_reach _ Hy) as [Fy Ry].
  rewrite boundingBox_axes. unfold tightBox, finiteSides.
  cbn [fold_left extend minX maxX minY maxY].
  change (Math_min Infinity (x p)) with (Double.min infinity (x p)).
  change (Math_max (- Infinity)%js (x p))
    with (Double.max neg_infinity (x p)).
  change (Math_min Infinity (y p)) with (Double.min infinity (y p)).
  change (Math_max (- Infinity)%js (y p))
    with (Double.max neg_infinity (y p)).
  rewrite !(@min_infinity _ Fx), !(@max_neg_infinity _ Fx),
    !(@min_infinity _ Fy), !(@max_neg_infinity _ Fy).
  destruct (@axis_double _ _ Fx Fx Rx Rx)
    as (Fl & Fh & _ & _ & _ & _ & Hmid & Hside).
  destruct (@axis_double _ _ Fy Fy Ry Ry)
    as (Fl' & Fh' & _ & _ & _ & _ & Hmid' & Hside').
  rewrite Fl, Fh, Fl', Fh'. split; [reflexivity|].
  destruct Hside as [[Hside _] | [Hside Hlong]],
           Hside' as [[Hside' _] | [Hside' Hlong']];
    (split; [split; lra|split; [split; lra|split; split; lra]]).
Qed.

(** *** Runs of the box theorems *)

Lemma bounding_box_extents_run :
  let pts := [mkXY 0%float 0%float; mkXY 5%float 5%float;
              mkXY 2%float 3%float] in
  pts <> [] /\ forallb nearby pts = true
  /\ 2 - (1 # 1048576) <= toQ (width (boundingBox pts))
  /\ (1 + 2 * (1 # 10)) * toQ (width (tightBox pts)) - (1 # 1048576)
     <= toQ (width (boundingBox pts)).
Proof.
  intros pts.
  assert (Hfull : pts <> []) by discriminate.
  assert (Hnear : forallb nearby pts = true) by reflexivity.
  split; [exact Hfull|]. split; [exact Hnear|].
  destruct (@bounding_box_extents pts Hfull Hnear)
    as (_ & (Hmin & _ & Hpad & _) & _).
  split; [exact Hmin | exact Hpad].
Defined.

Lemma bounding_box_encloses_run :
  let pts := [mkXY 0%float 0%float; mkXY 5%float 5%float;
              mkXY 2%float 3%float] in
  pts <> [] /\ forallb nearby pts = true
  /\ toQ (minX (boundingBox pts)) + (1 # 8) <= toQ 2%float
  /\ toQ 2%float + (1 # 8) <= toQ (maxX (boundingBox pts)).
Proof.
  intros pts.
  assert (Hfull : pts <> []) by discriminate.
  assert (Hnear : forallb nearby pts = true) by reflexivity.
  split; [exact Hfull|]. split; [exact Hnear|].
  destruct (@bounding_box_encloses pts Hfull Hnear) as (_ & Hin).
  destruct (Hin (mkXY 2%float 3%float)) as (Hl & Hh & _).
  - right. right. now left.
  - split; [exact Hl | exact Hh].
Defined.

Lemma bounding_box_centred_run :
  let pts := [mkXY 0%float 0%float; mkXY 5%float 5%float;
              mkXY 2%float 3%float] in
  pts <> [] /\ forallb nearby pts = true
  /\ - (1 # 1048576)
     <= toQ (width (boundingBox pts))
        - Qmax 2 ((1 + 2 * (1 # 10)) * toQ (width (tightBox pts)))
     <= 1 # 1048576.
Proof.
  intros pts.
  assert (Hfull : pts <> []) by discriminate.
  assert (Hnear : forallb nearby pts = true) by reflexivity.
  split; [exact Hfull|]. split; [exact Hnear|].
  destruct (@bounding_box_centred pts Hfull Hnear)
    as (_ & (Hw & _) & _).
  exact Hw.
Defined.

Lemma single_panel_box_run :
  let p := mkXY 0x1.0000000000001p+0%float 0%float in
  nearby p = true
  /\ - (1 # 1048576)
     <= toQ (minX (boundingBox [p])) - (toQ (x p) - 1)
     <= 1 # 1048576.
Proof.
  intros p.
  assert (Hnear : nearby p = true) by reflexivity.
  split; [exact Hnear|].
  destruct (@single_panel_box p Hnear) as (_ & Hl & _). exact Hl.
Defined.

(** ** The segment box, without rounding *)

Lemma Qltb_true (a b : Q) : Exact.Qltb a b = true <-> (a < b)%Q.
Proof.
  unfold Exact.Qltb. rewrite negb_true_iff.
  destruct (Qle_bool b a) eqn:E.
  - apply Qle_bool_iff in E. split; [discriminate | intros Hlt; lra].
  - split; [intros _ | reflexivity].
    apply Qnot_le_lt. intros Hle. apply Qle_bool_iff in Hle. congruence.
Qed.

Lemma Qltb_false (a b : Q) : Exact.Qltb a b = false <-> (b <= a)%Q.
Proof.
  unfold Exact.Qltb. rewrite negb_false_iff. apply Qle_bool_iff.
Qed.

(** Linear arithmetic over the rationals, after the integer literals and
    the halving are put in the form [lra] reads. *)
Ltac qlra :=
  repeat match goal with
         | H : context [inject_Z ?z] |- _ =>
             let q := eval cbv in (inject_Z z) in
             change (inject_Z z) with q in H
         end;
  repeat match goal with
         | |- context [inject_Z ?z] =>
             let q := eval cbv in (inject_Z z) in
             change (inject_Z z) with q
         end;
  unfold Qdiv in *; change (/ 2)%Q with (1 # 2)%Q in *; lra.

Lemma extend_finite (a b c d : Q) (p : Q * Q) :
  exists a' b' c' d',
    extend (finiteBox a b c d) (finite p) = finiteBox a' b' c' d'.
Proof.
  unfold extend, finiteBox, finite.
  cbn [minX maxX minY maxY x y
       Math_min Math_max xnum_Number Exact.min Exact.max Exact.lt].
  destruct (Exact.Qltb (fst p) a), (Exact.Qltb b (fst p)),
           (Exact.Qltb (snd p) c), (Exact.Qltb d (snd p));
    do 4 eexists; reflexivity.
Qed.

Lemma fold_extend_finite (pts : list (Q * Q)) :
  forall a b c d,
  exists a' b' c' d',
    fold_left extend (List.map finite pts) (finiteBox a b c d)
    = finiteBox a' b' c' d'.
Proof.
  induction pts as [|p pts IH]; intros a b c d.
  - exists a, b, c, d. reflexivity.
  - cbn [List.map fold_left].
    destruct (extend_finite a b c d p) as [a' [b' [c' [d' ->]]]].
    apply IH.
Qed.

(** From the second point on the fold runs over finite numbers: the first
    point replaces [Infinity] and [-Infinity]. *)
Lemma tightBox_finite (pts : list (Q * Q)) :
  pts <> [] ->
  exists a b c d, tightBox (List.map finite pts) = finiteBox a b c d.
Proof.
  destruct pts as [|p pts]; [contradiction|]. intros _.
  unfold tightBox. cbn [List.map fold_left].
  apply (fold_extend_finite pts (fst p) (fst p) (snd p) (snd p)).
Qed.

Lemma ensureMinSize_finite (lo hi : Q) :
  exists lo' hi',
    ensureMinSize (XFin lo) (XFin hi) = (XFin lo', XFin hi')
    /\ (2 <= hi' + - lo')%Q
    /\ (2 <= hi + - lo -> lo' = lo /\ hi' = hi)%Q.
Proof.
  unfold ensureMinSize, minSize.
  cbn [nsub nadd ndiv nlt of_Z xnum_Number
       Exact.sub Exact.add Exact.opp Exact.lt Exact.div].
  change (Exact.sgn (inject_Z 2)) with Lt. cbn iota.
  destruct (Exact.Qltb (hi + - lo) (inject_Z 2)) eqn:E.
  - apply Qltb_true in E. cbn [Exact.sub Exact.add Exact.opp].
    eexists. eexists. split; [reflexivity|]. split; [qlra|].
    intros Hlarge. exfalso. qlra.
  - apply Qltb_false in E. exists lo, hi.
    split; [reflexivity|]. split; [qlra | tauto].
Qed.

(** C2, as stated, on doubles: a single panel whose local abscissa is the
    double next above 1 gets the box from [2^-52] to [2], whose width
    [2 - 2^-52] is below [minSize]. *)
Lemma bounding_box_double_below_minSize :
  boundingBox (num := double) [mkXY 0x1.0000000000001p+0%float 0%float]
  = {| minX := 0x1p-52%float; maxX := 2%float;
       minY := (-1)%float; maxY := 1%float |}
  /\ reachesMinSize (num := double)
       [mkXY 0x1.0000000000001p+0%float 0%float] = false.
Proof. split; reflexivity. Qed.

(** Without rounding, the box of a non-empty set of finite local points
    has, after padding and clamping, an extent of at least [minSize = 2] on
    each axis; and on an axis whose raw extent exceeds [minSize], the final
    extent is at least [(1 + 2 * 0.1)] times the raw extent. *)
Lemma exact_box_extents (pts : list (Q * Q)) :
  pts <> [] ->
  exists rawWidth rawHeight w h : Q,
    width (tightBox (List.map finite pts)) = XFin rawWidth
    /\ height (tightBox (List.map finite pts)) = XFin rawHeight
    /\ width (boundingBox (List.map finite pts)) = XFin w
    /\ height (boundingBox (List.map finite pts)) = XFin h
    /\ reachesMinSize (List.map finite pts) = true
    /\ (2 <= w /\ 2 <= h)%Q
    /\ (2 < rawWidth -> (1 + 2 * (1 # 10)) * rawWidth <= w)%Q
    /\ (2 < rawHeight -> (1 + 2 * (1 # 10)) * rawHeight <= h)%Q.
Proof.
  intros Hfull. unfold reachesMinSize, boundingBox.
  destruct (tightBox_finite Hfull) as [a [b [c [d ->]]]].
  unfold padBox, clampBox, finiteBox.
  cbn [minX maxX minY maxY width height nsub nadd nmul tenth xnum_Number
       Exact.sub Exact.add Exact.opp Exact.mul].
  destruct (ensureMinSize_finite (a + - ((b + - a) * (1 # 10)))
                                 (b + (b + - a) * (1 # 10)))
    as [lx [hx [-> [Hx Hkeepx]]]].
  destruct (ensureMinSize_finite (c + - ((d + - c) * (1 # 10)))
                                 (d + (d + - c) * (1 # 10)))
    as [ly [hy [-> [Hy Hkeepy]]]].
  cbn [minX maxX minY maxY width height nsub nadd nle minSize of_Z
       xnum_Number Exact.sub Exact.add Exact.opp Exact.le].
  exists (b + - a)%Q, (d + - c)%Q, (hx + - lx)%Q, (hy + - ly)%Q.
  repeat split; try reflexivity.
  - apply andb_true_intro. split; apply Qle_bool_iff; qlra.
  - exact Hx.
  - exact Hy.
  - intros Hlarge. destruct Hkeepx as [-> ->]; lra.
  - intros Hlarge. destruct Hkeepy as [-> ->]; lra.
Qed.

(** Three panels spread over 5 m by 5 m, evaluated on doubles: the box is
    6 m by 6 m. *)
Example bounding_box_scenario_double :
  boundingBox (num := double)
    [mkXY 0%float 0%float; mkXY 5%float 5%float; mkXY 2%float 3%float]
  = {| minX := (-0.5)%float; maxX := 5.5%float;
       minY := (-0.5)%float; maxY := 5.5%float |}.
Proof. reflexivity. Qed.

(** ** The colour index, without rounding *)

Lemma sgn_pos (q : Q) : (0 < q)%Q -> Exact.sgn q = Lt.
Proof. intros Hpos. unfold Exact.sgn. now apply Qlt_alt. Qed.

(** Inside the domain the clamp of [normalize] changes nothing: the value
    is the linear ratio. *)
Lemma normalize_exact (v lo hi : Q) :
  (lo <= v <= hi)%Q -> (lo < hi)%Q ->
  normalize (XFin v) (XFin hi) (XFin lo) = XFin ((v + - lo) / (hi + - lo))
  /\ (0 <= (v + - lo) / (hi + - lo) <= 1)%Q.
Proof.
  intros [Hlo Hhi] Hlt.
  assert (Hpos : (0 < hi + - lo)%Q) by lra.
  assert (Hrange : (0 <= (v + - lo) / (hi + - lo) <= 1)%Q).
  { split.
    - apply Qle_shift_div_l; [exact Hpos | lra].
    - apply Qle_shift_div_r; [exact Hpos | lra]. }
  split; [|exact Hrange].
  unfold normalize, clamp.
  cbn [nsub ndiv of_Z Math_min Math_max xnum_Number
       Exact.sub Exact.add Exact.opp Exact.div].
  rewrite (sgn_pos Hpos). cbn [Exact.max Exact.lt].
  replace (Exact.Qltb ((v + - lo) / (hi + - lo)) (inject_Z 0)) with false
    by (symmetry; apply Qltb_false; apply Hrange).
  cbn [Exact.min Exact.lt].
  replace (Exact.Qltb (inject_Z 1) ((v + - lo) / (hi + - lo))) with false
    by (symmetry; apply Qltb_false; apply Hrange).
  reflexivity.
Qed.

(** C3, as stated, on doubles: for [min = -1e308] and [v = max = 1e308] the
    differences [v - min] and [max - min] overflow to [Infinity], their
    quotient is [NaN], and so is the index: it is not within 0 and 255, and
    not 255 at [v = max]. *)
Lemma color_index_double_overflow :
  let lo := PrimFloat.opp Run.huge in
  let hi := Run.huge in
  let v := Run.huge in
  ((lo <=? v) = true /\ (v <=? hi) = true /\ (lo <? hi) = true)%js
  /\ PrimFloat.is_nan (colorIndex v hi lo) = true
  /\ (of_Z 0 <=? colorIndex v hi lo)%js = false
  /\ (colorIndex v hi lo <=? of_Z 255)%js = false.
Proof. repeat split. Qed.

(** Without rounding or overflow, for finite [min <= v <= max] with
    [min < max], the colour index [Math.round(normalize(v, max, min) * 255)]
    is an integer between 0 and 255; it is 0 at [v = min] and 255 at
    [v = max]. *)
Lemma exact_color_index (v lo hi : Q) :
  (lo <= v <= hi)%Q -> (lo < hi)%Q ->
  exists k : Z,
    colorIndex (XFin v) (XFin hi) (XFin lo) = XFin (inject_Z k)
    /\ (0 <= k <= 255)%Z
    /\ (v == lo -> k = 0%Z)%Q
    /\ (v == hi -> k = 255%Z)%Q.
Proof.
  intros Hv Hlt.
  destruct (normalize_exact Hv Hlt) as [Hnorm [H0 H1]].
  exists (Qfloor ((v + - lo) / (hi + - lo) * inject_Z 255 + (1 # 2))).
  unfold colorIndex. rewrite Hnorm. split; [reflexivity|].
  assert (Hpos : (0 < hi + - lo)%Q) by lra.
  split; [split|split].
  - change 0%Z with (Qfloor (1 # 2)). apply Qfloor_resp_le. qlra.
  - change 255%Z with (Qfloor (255 + (1 # 2))). apply Qfloor_resp_le. qlra.
  - intros E. change 0%Z with (Qfloor (1 # 2)). apply Qfloor_comp.
    assert (Hzero : ((v + - lo) / (hi + - lo) == 0)%Q).
    { rewrite E. setoid_replace (lo + - lo)%Q with 0%Q by ring.
      unfold Qdiv. ring. }
    rewrite Hzero. reflexivity.
  - intros E. change 255%Z with (Qfloor (255 + (1 # 2))). apply Qfloor_comp.
    assert (Hone : ((v + - lo) / (hi + - lo) == 1)%Q).
    { rewrite E. field. lra. }
    rewrite Hone. reflexivity.
Qed.

(** Yields of 100, 150 and 200 kWh, evaluated on doubles: the indices are
    0, 128 and 255. *)
Example color_index_scenario_double :
  colorIndex (num := double) 200%float 200%float 100%float = 255%float
  /\ colorIndex (num := double) 150%float 200%float 100%float = 128%float
  /\ colorIndex (num := double) 100%float 200%float 100%float = 0%float.
Proof. repeat split. Qed.

(** ** Capacity scaling *)

(** C7.  Once the reactive statements have run, the value drawn by the
    yearly-energy gauge is the raw yield of the selected configuration times
    the ratio [panelCapacityWatts / defaultPanelCapacity], which is what
    [panelCapacityRatio] holds; this is so on any carrier and whatever the
    default capacity is.  On doubles, with a default of 250 W, 300 W
    selected and a raw yield of 1000 kWh, the gauge reads 1200. *)
Theorem capacity_ratio_scaling :
  (forall (num : Type) (N : Number num) (GLatLng GMap : Type)
          (st : State GLatLng GMap)
          (insights : BuildingInsightsResponse num) (c : Z)
          (config : SolarPanelConfig.t num),
      requestError st = None ->
      buildingInsights st = Some insights ->
      configId st = Some c ->
      index (SolarPotential.solarPanelConfigs (solarPotential insights)) c
      = Some config ->
      panelCapacityRatio (react st)
      = (panelCapacityWatts st
         / SolarPotential.panelCapacityWatts (solarPotential insights))%js
      /\ yearlyEnergyGauge (react st)
         = Some (SolarPanelConfig.yearlyEnergyDcKwh config
                 * (panelCapacityWatts st
                    / SolarPotential.panelCapacityWatts
                        (solarPotential insights)))%js)
  /\ yearlyEnergyGauge (react Run.selected) = Some 1200%float.
Proof.
  split; [|reflexivity].
  intros num N GLatLng GMap st insights c config He Hb Hc Hconfig. split.
  - unfold react. rewrite Hb. reflexivity.
  - now apply gauge_after_react with (c := c).
Qed.

(** ** The panel ring *)

Section RingFacts.

Context {num : Type} `{Number num}.
Variables GLatLng GMap : Type.
Variable Math_sqrt : num -> num.
Variable Math_atan2 : num -> num -> num.
Variable Math_PI : num.
Variable computeOffset : LatLngLiteral num -> num -> num -> GLatLng.
Variable palette : num -> option string.

(** The path of a panel polygon has five points, the last being the first
    again, and the point for the local corner [(x, y)] is the panel centre
    offset by [sqrt (x*x + y*y)] at the bearing
    [atan2 (y, x) * (180 / PI) + orientation + azimuth].  What the five
    points look like on the map is up to the offset primitive. *)
Lemma panel_ring
    (sp : SolarPotential.t num) (maxEnergy minEnergy : num)
    (panel : SolarPanel.t num) (polygon : Polygon GLatLng GMap) :
  panelPolygon GMap Math_sqrt Math_atan2 Math_PI computeOffset palette
    sp maxEnergy minEnergy panel = Normal polygon ->
  exists azimuth,
    azimuthOf (SolarPotential.roofSegmentStats sp)
      (SolarPanel.segmentIndex panel) = Normal azimuth
    /\ List.length (paths polygon) = 5%nat
    /\ nth_error (paths polygon) 0 = nth_error (paths polygon) 4
    /\ paths polygon
       = List.map
           (fun p =>
              computeOffset (panelCenter panel)
                (Math_sqrt (x p * x p + y p * y p))
                (Math_atan2 (y p) (x p) * (of_Z 180 / Math_PI)
                 + orientationDegrees (SolarPanel.orientation panel)
                 + azimuth))%js
           (points (SolarPotential.panelWidthMeters sp / of_Z 2)%js
                   (SolarPotential.panelHeightMeters sp / of_Z 2)%js).
Proof.
  unfold panelPolygon.
  destruct (azimuthOf (SolarPotential.roofSegmentStats sp)
              (SolarPanel.segmentIndex panel)) as [azimuth|e];
    cbn [bind]; [|discriminate].
  intros E. injection E as <-. exists azimuth. cbn [paths].
  repeat split.
Qed.

End RingFacts.

(** ** Concrete runs *)

Lemma azimuth_lookup_run :
  let sp := solarPotential Run.threePanels in
  validSegment sp 0
  /\ (exists polygon,
        panelPolygon Run.GMap Run.Math_sqrt Run.Math_atan2 Run.Math_PI
          Run.computeOffset Run.palette sp 200%float 100%float
          (Run.panel 0 200%float) = Normal polygon)
  /\ ~ validSegment sp 7
  /\ panelPolygon Run.GMap Run.Math_sqrt Run.Math_atan2 Run.Math_PI
       Run.computeOffset Run.palette sp 200%float 100%float
       (Run.panel 7 200%float) = Throw (TypeError "azimuthDegrees").
Proof.
  intros sp.
  assert (Hin : validSegment sp 0) by (unfold validSegment; cbn; lia).
  assert (Hout : ~ validSegment sp 7) by (unfold validSegment; cbn; lia).
  split; [exact Hin|]. split; [|split; [exact Hout|]].
  - destruct (proj1 (azimuth_lookup_unguarded (GMap := Run.GMap)
                       Run.Math_sqrt Run.Math_atan2 Run.Math_sin Run.Math_cos
                       Run.Math_PI Run.computeOffset Run.computeHeading
                       Run.computeDistanceBetween Run.palette
                       sp 200%float 100%float (Run.panel 0 200%float) []
                       ([], []) eq_refl) Hin)
      as [seg [_ [_ [Hpolygon _]]]].
    exact Hpolygon.
  - apply (proj2 (azimuth_lookup_unguarded (GMap := Run.GMap)
                    Run.Math_sqrt Run.Math_atan2 Run.Math_sin Run.Math_cos
                    Run.Math_PI Run.computeOffset Run.computeHeading
                    Run.computeDistanceBetween Run.palette
                    sp 200%float 100%float (Run.panel 7 200%float) []
                    ([], []) eq_refl) Hout).
Defined.

Lemma segment_filter_run :
  segmentNumbers (str "0,x,2") = Some [Int 0; Int 2]
  /\ (shouldShow true (str "0,x,2") (Some 2%Z) = true
      <-> true = true /\ (2 = 0 \/ 2 = 2)%Z).
Proof.
  split; [reflexivity|].
  apply (proj1 (proj2 (segment_filter (str "0,x,2") true 2))
           [Int 0; Int 2] eq_refl).
  intros z. cbn. split.
  - intros [E|[E|[]]]; injection E as <-; [now left | now right].
  - intros [->| ->]; [now left | right; now left].
Defined.

Lemma segment_outlines_run :
  let insights :=
    Run.building
      [Run.panel 0 200%float; Run.panel 1 150%float; Run.panel 0 100%float] in
  exists polygons labels,
    drawSegments Run.Math_sqrt Run.Math_atan2 Run.Math_sin Run.Math_cos
      Run.Math_PI Run.computeOffset Run.computeHeading
      Run.computeDistanceBetween (GMap := Run.GMap)
      (solarPotential insights) ([], [])
      (groupPanels (SolarPotential.solarPanels (solarPotential insights)))
    = ((polygons, labels), Normal tt)
    /\ List.length (outlinesOf 0 polygons) = 1%nat
    /\ List.length (outlinesOf 1 polygons) = 1%nat
    /\ List.length (outlinesOf 2 polygons) = 0%nat.
Proof.
  intros insights.
  destruct (segment_outlines Run.GMap
              Run.Math_sqrt Run.Math_atan2 Run.Math_sin
              Run.Math_cos Run.Math_PI Run.computeOffset Run.computeHeading
              Run.computeDistanceBetween Run.palette
              (sp := solarPotential insights))
    as [polygons [labels [Hrun [Hcount _]]]].
  - intros panel [<-|[<-|[<-|[]]]]; unfold validSegment; cbn; lia.
  - exists polygons, labels. split; [exact Hrun|]. split; [|split].
    + exact (proj1 (Hcount 0%Z)).
    + exact (proj1 (Hcount 1%Z)).
    + exact (proj1 (Hcount 2%Z)).
Defined.

Lemma capacity_ratio_run :
  buildingInsights Run.selected = Some Run.threePanels
  /\ yearlyEnergyGauge (react Run.selected)
     = Some (1000 * (300 / 250))%float.
Proof.
  split; [reflexivity|].
  refine (proj2 (proj1 capacity_ratio_scaling _ _ _ _ Run.selected
                   Run.threePanels 0%Z _ eq_refl eq_refl eq_refl eq_refl)).
Defined.

Lemma at_most_one_request_run :
  let location := (Run.here', 0%float, 0%float) in
  let sys :=
    {| component := fst (showSolarPotential_call Run.idle location);
       inFlight := [location] |} in
  requestSent Run.idle = false
  /\ (List.length (inFlight sys) <= 1)%nat
  /\ showSolarPotential_call (component sys) location = (component sys, None).
Proof.
  intros location sys. split; [reflexivity|].
  assert (Hreach :
    reachable Run.Math_sqrt Run.Math_atan2 Run.Math_sin Run.Math_cos
      Run.Math_PI Run.computeOffset Run.computeHeading
      Run.computeDistanceBetween Run.palette Run.idle sys).
  { eapply reachable_step; [apply reachable_init|].
    exact (step_show Run.Math_sqrt Run.Math_atan2 Run.Math_sin Run.Math_cos
             Run.Math_PI Run.computeOffset Run.computeHeading
             Run.computeDistanceBetween Run.palette
             {| component := Run.idle; inFlight := [] |} location eq_refl). }
  destruct (at_most_one_request (init := Run.idle) eq_refl Hreach)
    as [Hone [_ [Hguard _]]].
  split; [exact Hone|]. apply Hguard. reflexivity.
Defined.

Lemma zero_panels_run :
  SolarPotential.solarPanels (solarPotential Run.noPanels) = []
  /\ snd (Run.resume Run.idle (Resolved Run.noPanels))
     = Throw (TypeError "yearlyEnergyDcKwh").
Proof.
  split; [reflexivity|]. unfold Run.resume.
  rewrite (zero_panels_throw Run.Math_sqrt Run.Math_atan2 Run.Math_sin
             Run.Math_cos Run.Math_PI Run.computeOffset Run.computeHeading
             Run.computeDistanceBetween Run.palette
             Run.idle Run.noPanels eq_refl).
  reflexivity.
Defined.

Lemma panel_visibility_run :
  exists panel (shown : bool),
    nth_error (solarPanels Run.drawn) 1 = Some panel
    /\ nth_error (solarPanels (updatePanelVisibility Run.drawn)) 1
       = Some (setMap panel (if shown then Some tt else None))
    /\ shown = true.
Proof.
  destruct (nth_error (solarPanels Run.drawn) 1) as [panel|] eqn:E;
    [|discriminate E].
  destruct (panel_visibility Run.drawn 1 E) as [shown [Hnth [Hall _]]].
  exists panel, shown. split; [reflexivity|]. split; [exact Hnth|].
  apply Hall; reflexivity.
Defined.

(** * Further properties *)

(** ** The grouping of panels *)

Lemma JsMap_get_update {V} (m : JsMap.t V) (k k' : Z) (f : V -> V) :
  JsMap.get (JsMap.update m k f) k'
  = if (k =? k')%Z then option_map f (JsMap.get m k') else JsMap.get m k'.
Proof.
  induction m as [|[k0 v0] m IH]; cbn.
  - now destruct (k =? k')%Z.
  - destruct (Z.eqb_spec k0 k) as [->|Hne]; cbn.
    + destruct (Z.eqb_spec k k') as [->|Hne']; [reflexivity|].
      reflexivity.
    + destruct (Z.eqb_spec k0 k') as [->|Hne'].
      * destruct (Z.eqb_spec k k') as [->|_]; [contradiction | reflexivity].
      * exact IH.
Qed.

Lemma JsMap_get_set {V} (m : JsMap.t V) (k k' : Z) (v : V) :
  JsMap.get (JsMap.set m k v) k'
  = if (k =? k')%Z then Some v else JsMap.get m k'.
Proof.
  induction m as [|[k0 v0] m IH]; cbn.
  - reflexivity.
  - destruct (Z.eqb_spec k0 k) as [->|Hne]; cbn.
    + now destruct (k =? k')%Z.
    + destruct (Z.eqb_spec k0 k') as [->|Hne'].
      * destruct (Z.eqb_spec k k') as [->|_]; [contradiction | reflexivity].
      * exact IH.
Qed.

Section GroupingFacts.

Context {num : Type}.

Lemma get_addPanel m (panel : SolarPanel.t num) (k : Z) :
  JsMap.get (addPanel m panel) k
  = extended (JsMap.get m k) (panelsOf k [panel]).
Proof.
  unfold addPanel, panelsOf. cbn [List.filter].
  rewrite JsMap_get_update. unfold JsMap.has.
  destruct (Z.eqb_spec (SolarPanel.segmentIndex panel) k) as [E|Hne].
  - destruct (JsMap.get m (SolarPanel.segmentIndex panel)) as [panels|] eqn:G;
      cbn [negb].
    + rewrite <- E, G. reflexivity.
    + rewrite JsMap_get_set, E, Z.eqb_refl. cbn.
      rewrite <- E, G. reflexivity.
  - destruct (JsMap.get m (SolarPanel.segmentIndex panel)) as [panels|] eqn:G;
      cbn [negb].
    + destruct (JsMap.get m k); cbn; now rewrite ?app_nil_r.
    + rewrite JsMap_get_set.
      destruct (Z.eqb_spec (SolarPanel.segmentIndex panel) k);
        [contradiction|].
      destruct (JsMap.get m k); cbn; now rewrite ?app_nil_r.
Qed.

Lemma extended_app entry (a b : list (SolarPanel.t num)) :
  extended (extended entry a) b = extended entry (a ++ b).
Proof.
  destruct entry as [panels|], a as [|p a], b as [|q b]; cbn;
    rewrite ?app_nil_r, <- ?app_assoc; reflexivity.
Qed.

Lemma get_fold_addPanel (panels : list (SolarPanel.t num)) :
  forall m k,
    JsMap.get (fold_left addPanel panels m) k
    = extended (JsMap.get m k) (panelsOf k panels).
Proof.
  induction panels as [|panel panels IH]; intros m k; cbn [fold_left].
  - unfold panelsOf. cbn. destruct (JsMap.get m k); cbn;
      now rewrite ?app_nil_r.
  - rewrite IH, get_addPanel, extended_app. unfold panelsOf.
    now rewrite <- filter_app.
Qed.

(** X1.  In the grouping, the entry of a segment holds exactly the panels
    of that segment, in the order of the panel list; a segment without
    panels has no entry. *)
Theorem groupPanels_lookup (panels : list (SolarPanel.t num)) (k : Z) :
  JsMap.get (groupPanels panels) k
  = match panelsOf k panels with
    | [] => None
    | members => Some members
    end.
Proof.
  unfold groupPanels. rewrite get_fold_addPanel. cbn.
  now destruct (panelsOf k panels).
Qed.

Lemma filter_absent_keys (keys : list Z) (a : Z) (l : list Z) :
  List.filter (fun b => negb (existsb (Z.eqb b) (keys ++ [a]))) l
  = List.filter (fun b => negb (existsb (Z.eqb b) keys))
      (List.filter (fun b => negb (b =? a)%Z) l).
Proof.
  induction l as [|b l IH]; cbn; [reflexivity|].
  rewrite existsb_app. cbn. rewrite orb_false_r.
  destruct (b =? a)%Z; cbn.
  - rewrite orb_true_r. cbn. exact IH.
  - rewrite orb_false_r.
    destruct (existsb (Z.eqb b) keys); cbn; now rewrite IH.
Qed.

Lemma filter_present_key (keys : list Z) (a : Z) (l : list Z) :
  existsb (Z.eqb a) keys = true ->
  List.filter (fun b => negb (existsb (Z.eqb b) keys))
    (List.filter (fun b => negb (b =? a)%Z) l)
  = List.filter (fun b => negb (existsb (Z.eqb b) keys)) l.
Proof.
  intros Hin. induction l as [|b l IH]; cbn; [reflexivity|].
  destruct (Z.eqb_spec b a) as [->|Hne]; cbn.
  - rewrite Hin. cbn. exact IH.
  - destruct (existsb (Z.eqb b) keys); cbn; now rewrite IH.
Qed.

Lemma has_existsb {V} (m : JsMap.t V) (k : Z) :
  JsMap.has m k = existsb (Z.eqb k) (JsMap.keys m).
Proof.
  unfold JsMap.has, JsMap.keys.
  induction m as [|[k' v'] m IH]; cbn; [reflexivity|].
  rewrite (Z.eqb_sym k k').
  destruct (k' =? k)%Z; cbn; [reflexivity | exact IH].
Qed.

Lemma keys_fold_addPanel (panels : list (SolarPanel.t num)) :
  forall m,
    JsMap.keys (fold_left addPanel panels m)
    = JsMap.keys m
      ++ List.filter (fun b => negb (existsb (Z.eqb b) (JsMap.keys m)))
           (firstOccurrences (List.map (@SolarPanel.segmentIndex num) panels)).
Proof.
  induction panels as [|panel panels IH]; intros m; cbn [fold_left].
  - cbn. now rewrite app_nil_r.
  - rewrite IH, keys_addPanel, has_existsb.
    cbn [List.map firstOccurrences List.filter].
    destruct (existsb (Z.eqb (SolarPanel.segmentIndex panel)) (JsMap.keys m))
      eqn:Hhas; cbn [negb].
    + now rewrite filter_present_key.
    + rewrite filter_absent_keys, <- app_assoc. reflexivity.
Qed.

(** X2.  The entries of the grouping, and so the outlines and labels drawn
    from them, come in the order in which the segments first appear in the
    panel list, each segment once. *)
Theorem groupPanels_order (panels : list (SolarPanel.t num)) :
  JsMap.keys (groupPanels panels)
  = firstOccurrences (List.map (@SolarPanel.segmentIndex num) panels).
Proof.
  unfold groupPanels. rewrite keys_fold_addPanel. cbn.
  induction (firstOccurrences (List.map (@SolarPanel.segmentIndex num) panels))
    as [|a l IH]; cbn; [reflexivity | now rewrite IH].
Qed.

End GroupingFacts.

(** ** The box of a segment, on the exact carrier *)

Lemma extend_exact (a b c d : Q) (p : Q * Q) :
  exists a' b' c' d',
    extend (finiteBox a b c d) (finite p) = finiteBox a' b' c' d'
    /\ (a' <= a /\ a' <= fst p /\ (a' = a \/ a' = fst p))%Q
    /\ (b <= b' /\ fst p <= b' /\ (b' = b \/ b' = fst p))%Q
    /\ (c' <= c /\ c' <= snd p /\ (c' = c \/ c' = snd p))%Q
    /\ (d <= d' /\ snd p <= d' /\ (d' = d \/ d' = snd p))%Q.
Proof.
  unfold extend, finiteBox, finite.
  cbn [minX maxX minY maxY x y
       Math_min Math_max xnum_Number Exact.min Exact.max Exact.lt].
  destruct (Exact.Qltb (fst p) a) eqn:Ea, (Exact.Qltb b (fst p)) eqn:Eb,
           (Exact.Qltb (snd p) c) eqn:Ec, (Exact.Qltb d (snd p)) eqn:Ed;
    do 4 eexists; (split; [reflexivity|]);
    rewrite ?Qltb_true, ?Qltb_false in *;
    repeat split; try lra; auto.
Qed.

Lemma through_cons coordinate p pts start middle side :
  middle = start \/ middle = coordinate p ->
  through coordinate pts middle side ->
  through coordinate (p :: pts) start side.
Proof.
  unfold through. intros Hmiddle [->|[q [Hq ->]]].
  - destruct Hmiddle as [->| ->]; [now left|].
    right. exists p. split; [now left | reflexivity].
  - right. exists q. split; [now right | reflexivity].
Qed.

Lemma fold_extend_exact (pts : list (Q * Q)) :
  forall a b c d,
  exists a' b' c' d',
    fold_left extend (List.map finite pts) (finiteBox a b c d)
    = finiteBox a' b' c' d'
    /\ (a' <= a /\ b <= b' /\ c' <= c /\ d <= d')%Q
    /\ (forall p, In p pts ->
          a' <= fst p /\ fst p <= b' /\ c' <= snd p /\ snd p <= d')%Q
    /\ through fst pts a a' /\ through fst pts b b'
    /\ through snd pts c c' /\ through snd pts d d'.
Proof.
  induction pts as [|p pts IH]; intros a b c d.
  - exists a, b, c, d. split; [reflexivity|].
    split; [repeat split; lra|]. split; [intros p []|].
    repeat split; now left.
  - cbn [List.map fold_left].
    destruct (extend_exact a b c d p)
      as (a1 & b1 & c1 & d1 & -> & (Ha1 & Ha2 & Ha3) & (Hb1 & Hb2 & Hb3)
          & (Hc1 & Hc2 & Hc3) & Hd1 & Hd2 & Hd3).
    destruct (IH a1 b1 c1 d1)
      as (a' & b' & c' & d' & E & (La & Lb & Lc & Ld) & Hin
          & Ta & Tb & Tc & Td).
    exists a', b', c', d'. split; [exact E|].
    split; [repeat split; lra|]. split.
    + intros q [<-|Hq]; [repeat split; lra | now apply Hin].
    + repeat split; eapply through_cons; eassumption.
Qed.

Lemma ensureMinSize_exact (lo hi : Q) :
  exists lo' hi',
    ensureMinSize (XFin lo) (XFin hi) = (XFin lo', XFin hi')
    /\ (lo' <= lo /\ hi <= hi')%Q
    /\ (lo' + hi' == lo + hi)%Q
    /\ (hi + - lo < 2 -> hi' + - lo' == 2)%Q
    /\ (2 <= hi + - lo -> lo' = lo /\ hi' = hi)%Q.
Proof.
  unfold ensureMinSize, minSize.
  cbn [nsub nadd ndiv nlt of_Z xnum_Number
       Exact.sub Exact.add Exact.opp Exact.lt Exact.div].
  change (Exact.sgn (inject_Z 2)) with Lt. cbn iota.
  destruct (Exact.Qltb (hi + - lo) (inject_Z 2)) eqn:E.
  - apply Qltb_true in E. cbn [Exact.sub Exact.add Exact.opp].
    eexists. eexists. split; [reflexivity|].
    split; [split; qlra|]. split; [qlra|]. split; [intros _; qlra|].
    intros Hlarge. exfalso. qlra.
  - apply Qltb_false in E. exists lo, hi.
    split; [reflexivity|]. split; [split; lra|]. split; [lra|].
    split; [intros Hsmall; exfalso; qlra | tauto].
Qed.

(** The box of a non-empty set of finite points: the tight box, and the box
    after padding and clamping, whose sides lie outside the tight box at
    equal distances on both sides of each axis. *)
Lemma boundingBox_exact (pts : list (Q * Q)) :
  pts <> [] ->
  exists a b c d lx hx ly hy,
    tightBox (List.map finite pts) = finiteBox a b c d
    /\ boundingBox (List.map finite pts) = finiteBox lx hx ly hy
    /\ (forall p, In p pts ->
          a <= fst p /\ fst p <= b /\ c <= snd p /\ snd p <= d)%Q
    /\ ((exists p, In p pts /\ a = fst p) /\ (exists p, In p pts /\ b = fst p)
        /\ (exists p, In p pts /\ c = snd p)
        /\ (exists p, In p pts /\ d = snd p))
    /\ (lx <= a /\ b <= hx /\ ly <= c /\ d <= hy)%Q
    /\ (lx + hx == a + b /\ ly + hy == c + d)%Q
    /\ (hx + - lx == Qmax 2 ((1 + 2 * (1 # 10)) * (b + - a)))%Q
    /\ (hy + - ly == Qmax 2 ((1 + 2 * (1 # 10)) * (d + - c)))%Q.
Proof.
  destruct pts as [|p pts]; [contradiction|]. intros _.
  unfold boundingBox, tightBox. cbn [List.map fold_left].
  change (extend _ (finite p))
    with (finiteBox (fst p) (fst p) (snd p) (snd p)).
  destruct (fold_extend_exact pts (fst p) (fst p) (snd p) (snd p))
    as (a & b & c & d & -> & (La & Lb & Lc & Ld) & Hin & Ta & Tb & Tc & Td).
  unfold padBox, clampBox, finiteBox.
  cbn [minX maxX minY maxY nsub nadd nmul tenth xnum_Number
       Exact.sub Exact.add Exact.opp Exact.mul].
  destruct (ensureMinSize_exact (a + - ((b + - a) * (1 # 10)))
                                (b + (b + - a) * (1 # 10)))
    as (lx & hx & -> & (Hlx & Hhx) & Hcx & Hsmallx & Hkeepx).
  destruct (ensureMinSize_exact (c + - ((d + - c) * (1 # 10)))
                                (d + (d + - c) * (1 # 10)))
    as (ly & hy & -> & (Hly & Hhy) & Hcy & Hsmally & Hkeepy).
  exists a, b, c, d, lx, hx, ly, hy.
  split; [reflexivity|]. split; [reflexivity|].
  split.
  { intros q [<-|Hq]; [repeat split; lra | now apply Hin]. }
  split.
  { unfold through in Ta, Tb, Tc, Td. repeat split.
    - destruct Ta as [->|[q [Hq ->]]];
        [exists p; split; [now left | reflexivity]
        |exists q; split; [now right | reflexivity]].
    - destruct Tb as [->|[q [Hq ->]]];
        [exists p; split; [now left | reflexivity]
        |exists q; split; [now right | reflexivity]].
    - destruct Tc as [->|[q [Hq ->]]];
        [exists p; split; [now left | reflexivity]
        |exists q; split; [now right | reflexivity]].
    - destruct Td as [->|[q [Hq ->]]];
        [exists p; split; [now left | reflexivity]
        |exists q; split; [now right | reflexivity]]. }
  split; [repeat split; lra|]. split; [split; lra|].
  split.
  - destruct (Qlt_le_dec (b + (b + - a) * (1 # 10)
                          + - (a + - ((b + - a) * (1 # 10)))) 2)
      as [Hsmall|Hlarge].
    + rewrite (Hsmallx Hsmall). symmetry. apply Q.max_l. lra.
    + destruct (Hkeepx Hlarge) as [-> ->].
      rewrite Q.max_r by lra. ring.
  - destruct (Qlt_le_dec (d + (d + - c) * (1 # 10)
                          + - (c + - ((d + - c) * (1 # 10)))) 2)
      as [Hsmall|Hlarge].
    + rewrite (Hsmally Hsmall). symmetry. apply Q.max_l. lra.
    + destruct (Hkeepy Hlarge) as [-> ->].
      rewrite Q.max_r by lra. ring.
Qed.

(** X4.  With exact arithmetic, the tight box of a segment is tight: no
    panel position lies outside it and each of its four sides passes
    through a panel position. *)
Theorem tight_box_is_tight (pts : list (Q * Q)) :
  pts <> [] ->
  exists a b c d,
    tightBox (List.map finite pts) = finiteBox a b c d
    /\ (forall p, In p pts ->
          a <= fst p /\ fst p <= b /\ c <= snd p /\ snd p <= d)%Q
    /\ (exists p, In p pts /\ a = fst p)
    /\ (exists p, In p pts /\ b = fst p)
    /\ (exists p, In p pts /\ c = snd p)
    /\ (exists p, In p pts /\ d = snd p).
Proof.
  intros Hfull.
  destruct (boundingBox_exact Hfull)
    as (a & b & c & d & lx & hx & ly & hy & Htight & _ & Hin
        & (Ta & Tb & Tc & Td) & _).
  exists a, b, c, d. repeat split; try assumption; now apply Hin.
Qed.

Lemma tight_box_is_tight_run :
  let pts := [(0, 0); (5, 5); (2, 3)]%Q in
  pts <> []
  /\ exists a b c d,
       tightBox (List.map finite pts) = finiteBox a b c d
       /\ exists p, In p pts /\ a = fst p.
Proof.
  intros pts. split; [discriminate|].
  destruct (@tight_box_is_tight pts)
    as (a & b & c & d & Htight & _ & Ha & _); [discriminate|].
  exists a, b, c, d. split; [exact Htight | exact Ha].
Defined.

(** ** Local rings and their areas, on the exact carrier *)

(** X7.  With exact arithmetic, the five local points of a panel go round
    the rectangle of the panel's width and height once, clockwise: twice
    their signed area is minus twice width times height. *)
Theorem panel_ring_area (panelWidth panelHeight : Q) :
  exists q,
    twiceArea (points (XFin panelWidth / of_Z 2)%js
                      (XFin panelHeight / of_Z 2)%js) = XFin q
    /\ (q == - (2 * (panelWidth * panelHeight)))%Q.
Proof.
  unfold points, twiceArea, shoelaceFrom, cross.
  cbn [x y nadd nsub nmul ndiv nopp of_Z xnum_Number
       Exact.sub Exact.add Exact.opp Exact.mul Exact.div].
  change (Exact.sgn (inject_Z 2)) with Lt. cbn iota.
  cbn [Exact.sub Exact.add Exact.opp Exact.mul].
  eexists. split; [reflexivity|].
  change (inject_Z 2) with 2%Q. change (inject_Z 0) with 0%Q. field.
Qed.

(** X8.  With exact arithmetic, the four corners of a segment box go round
    the box once, counter-clockwise: twice their signed area is twice the
    width times the height of the box. *)
Theorem corners_area (a b c d : Q) :
  exists q,
    twiceArea (corners (finiteBox a b c d)) = XFin q
    /\ (q == 2 * ((b - a) * (d - c)))%Q.
Proof.
  unfold corners, finiteBox, twiceArea, shoelaceFrom, cross.
  cbn [x y minX maxX minY maxY nadd nsub nmul of_Z xnum_Number
       Exact.sub Exact.add Exact.opp Exact.mul].
  eexists. split; [reflexivity|].
  change (inject_Z 0) with 0%Q. ring.
Qed.

(** ** The panels of a render *)

Lemma mapM_nth {A B} (f : A -> completion B) (xs : list A) :
  forall bs, mapM f xs = Normal bs ->
    List.length bs = List.length xs
    /\ forall i a, nth_error xs i = Some a ->
         exists b, nth_error bs i = Some b /\ f a = Normal b.
Proof.
  induction xs as [|a0 xs IH]; intros bs E; cbn in E.
  - injection E as <-. split; [reflexivity|]. intros [|i] a; discriminate.
  - destruct (f a0) as [b0|e] eqn:E0; cbn in E; [|discriminate].
    destruct (mapM f xs) as [bs0|e] eqn:Ers; cbn in E; [|discriminate].
    injection E as <-. destruct (IH bs0 eq_refl) as [Hlen Hnth].
    split; [cbn; now rewrite Hlen|].
    intros [|i] a Ha; cbn in Ha |- *.
    + injection Ha as <-. now exists b0.
    + now apply Hnth.
Qed.

Lemma mapM_Throw_same {A B} (f : A -> completion B) (xs : list A) (a : A)
    (e0 : JsError) :
  (forall a' e, f a' = Throw e -> e = e0) ->
  In a xs -> f a = Throw e0 ->
  mapM f xs = Throw e0.
Proof.
  intros Hsame. induction xs as [|a0 xs IH]; intros Hin Hthrow;
    [contradiction|].
  cbn. destruct (f a0) as [b|e] eqn:E0; cbn.
  - destruct Hin as [->|Hin]; [congruence|].
    rewrite (IH Hin Hthrow). reflexivity.
  - now rewrite (Hsame a0 e E0).
Qed.

Section PanelFacts.

Context {num : Type} `{Number num}.
Variables GLatLng GMap : Type.
Variable Math_sqrt : num -> num.
Variable Math_atan2 : num -> num -> num.
Variable Math_sin : num -> num.
Variable Math_cos : num -> num.
Variable Math_PI : num.
Variable computeOffset : LatLngLiteral num -> num -> num -> GLatLng.
Variable computeHeading : LatLngLiteral num -> LatLngLiteral num -> num.
Variable computeDistanceBetween : LatLngLiteral num -> LatLngLiteral num -> num.
Variable palette : num -> option string.

Local Abbreviation create :=
  (createSolarPanels GMap Math_sqrt Math_atan2 Math_PI computeOffset palette).
Local Abbreviation resumed :=
  (showSolarPotential_resume (GMap := GMap) Math_sqrt Math_atan2 Math_sin
     Math_cos Math_PI computeOffset computeHeading computeDistanceBetween
     palette).

Lemma panelPolygon_throws sp maxEnergy minEnergy (panel : SolarPanel.t num) e :
  panelPolygon GMap Math_sqrt Math_atan2 Math_PI computeOffset palette
    sp maxEnergy minEnergy panel = Throw e ->
  e = TypeError "azimuthDegrees"
  /\ ~ validSegment sp (SolarPanel.segmentIndex panel).
Proof.
  unfold panelPolygon, azimuthOf, read.
  destruct (index (SolarPotential.roofSegmentStats sp)
              (SolarPanel.segmentIndex panel)) as [seg|] eqn:E; cbn.
  - discriminate.
  - intros T. injection T as <-. split; [reflexivity|].
    intros Hvalid. destruct (index_Some _ Hvalid) as [seg Hseg].
    unfold validSegment in *. congruence.
Qed.

(** X9.  When the panels are created, there is one polygon per panel, in
    the order of the panel list.  The polygon of a panel is the ring of its
    five local points placed at the panel's centre with the orientation of
    the panel and the azimuth of its segment; its colour is taken from the
    palette at the index that the panel's yield has between the yield of
    the last panel of the list and that of the first; it is not on the map
    yet and carries no segment index. *)
Theorem panels_in_order (sp : SolarPotential.t num)
    (polygons : list (Polygon GLatLng GMap)) :
  create sp = Normal polygons ->
  List.length polygons = List.length (SolarPotential.solarPanels sp)
  /\ exists first final,
       nth_error (SolarPotential.solarPanels sp) 0 = Some first
       /\ nth_error (SolarPotential.solarPanels sp)
            (List.length (SolarPotential.solarPanels sp) - 1) = Some final
       /\ forall i panel,
            nth_error (SolarPotential.solarPanels sp) i = Some panel ->
            exists azimuth,
              azimuthOf (SolarPotential.roofSegmentStats sp)
                (SolarPanel.segmentIndex panel) = Normal azimuth
              /\ nth_error polygons i
                 = Some
                     {| paths :=
                          List.map
                            (panelVertex Math_sqrt Math_atan2 Math_PI
                               computeOffset (panelCenter panel)
                               (orientationDegrees
                                  (SolarPanel.orientation panel))
                               azimuth)
                            (points
                               (SolarPotential.panelWidthMeters sp
                                / of_Z 2)%js
                               (SolarPotential.panelHeightMeters sp
                                / of_Z 2)%js);
                        strokeColor := "#B0BEC5";
                        fillColor :=
                          palette
                            (colorIndex
                               (SolarPanel.yearlyEnergyDcKwh panel)
                               (SolarPanel.yearlyEnergyDcKwh first)
                               (SolarPanel.yearlyEnergyDcKwh final));
                        getMap := None;
                        polygonSegmentIndex := None |}.
Proof.
  unfold createSolarPanels, read.
  destruct (index (slice_last (SolarPotential.solarPanels sp)) 0)
    as [final|] eqn:Efinal; cbn [bind]; [|discriminate].
  destruct (index (SolarPotential.solarPanels sp) 0)
    as [first|] eqn:Efirst; cbn [bind]; [|discriminate].
  intros E. destruct (mapM_nth _ _ E) as [Hlen Hnth].
  split; [exact Hlen|]. exists first, final.
  split; [exact Efirst|]. split.
  - unfold index, slice_last in Efinal.
    cbn [Z.ltb Z.compare Z.to_nat] in Efinal.
    rewrite nth_error_skipn, Nat.add_0_r in Efinal. exact Efinal.
  - intros i panel Hi. destruct (Hnth i panel Hi) as [polygon [Hp Hmade]].
    unfold panelPolygon in Hmade.
    destruct (azimuthOf (SolarPotential.roofSegmentStats sp)
                (SolarPanel.segmentIndex panel)) as [azimuth|e];
      cbn [bind] in Hmade; [|discriminate].
    injection Hmade as <-. exists azimuth. split; [reflexivity | exact Hp].
Qed.

(** X10.  A single panel whose segment index is out of range spoils the
    whole render: the insights are stored and the request flag is cleared,
    but the render ends in the [TypeError] of the azimuth read with no
    panel polygon, no outline and no label added, also for the panels and
    segments that are in order. *)
Theorem bad_panel_draws_nothing
    (st : State (num := num) GLatLng GMap)
    (insights : BuildingInsightsResponse num) (panel : SolarPanel.t num) :
  In panel (SolarPotential.solarPanels (solarPotential insights)) ->
  ~ validSegment (solarPotential insights) (SolarPanel.segmentIndex panel) ->
  resumed st (Resolved insights)
  = (withRequest st (Some insights) (requestError st) false,
     Throw (TypeError "azimuthDegrees")).
Proof.
  intros Hin Hbad. unfold showSolarPotential_resume.
  assert (Hfull : SolarPotential.solarPanels (solarPotential insights) <> [])
    by (intros E; rewrite E in Hin; contradiction).
  assert (E : create (solarPotential insights)
              = Throw (TypeError "azimuthDegrees")).
  { unfold createSolarPanels.
    destruct (slice_last_head Hfull) as [final ->].
    destruct (SolarPotential.solarPanels (solarPotential insights))
      as [|first rest] eqn:Epanels; [contradiction|].
    cbn [index Z.ltb Z.compare Z.to_nat nth_error read bind].
    apply mapM_Throw_same with (a := panel).
    - intros a' e T. now apply panelPolygon_throws in T.
    - exact Hin.
    - unfold panelPolygon, azimuthOf.
      now rewrite (index_None _ Hbad). }
  now rewrite E.
Qed.

End PanelFacts.

(** ** The visibility passes *)

Lemma length_mapi_from {A B} (f : A -> nat -> B) (xs : list A) :
  forall k, List.length (mapi_from k f xs) = List.length xs.
Proof.
  induction xs as [|a xs IH]; intros k; cbn; [reflexivity | now rewrite IH].
Qed.

Lemma mapi_from_twice {A B C} (f : A -> nat -> B) (g : B -> nat -> C)
    (xs : list A) :
  forall k,
    mapi_from k g (mapi_from k f xs) = mapi_from k (fun a i => g (f a i) i) xs.
Proof.
  induction xs as [|a xs IH]; intros k; cbn; [reflexivity | now rewrite IH].
Qed.

Section VisibilityFacts.

Context {num : Type} `{Number num}.
Variables GLatLng GMap : Type.

Local Abbreviation St := (State (num := num) GLatLng GMap).

Lemma length_zero_iff {A} (xs : list A) :
  (List.length xs =? 0)%nat = true <-> xs = [].
Proof. destruct xs; cbn; split; congruence. Qed.

Lemma panels_after_update (st : St) :
  solarPanels (updatePanelVisibility st)
  = mapi (fun panel i => setMap panel (attach st (panelShown st i)))
      (solarPanels st).
Proof.
  unfold updatePanelVisibility.
  destruct (solarPanels st) as [|p ps] eqn:E; cbn [List.length Nat.eqb].
  - now rewrite E.
  - reflexivity.
Qed.

Lemma segments_after_update (st : St) :
  roofSegmentPolygons (updateSegmentVisibility st)
  = List.map
      (fun segment =>
         setMap segment
           (attach st (shouldShow (showSegments st) (segmentFilter st)
                         (polygonSegmentIndex segment))))
      (roofSegmentPolygons st).
Proof.
  unfold updateSegmentVisibility.
  destruct (roofSegmentPolygons st) as [|p ps] eqn:E; cbn [List.length Nat.eqb].
  - now rewrite E.
  - reflexivity.
Qed.

Lemma toggles_after_panels (st : St) :
  showPanels (updatePanelVisibility st) = showPanels st
  /\ disableAnimation (updatePanelVisibility st) = disableAnimation st
  /\ panelConfig (updatePanelVisibility st) = panelConfig st
  /\ theMap (updatePanelVisibility st) = theMap st
  /\ showSegments (updatePanelVisibility st) = showSegments st
  /\ segmentFilter (updatePanelVisibility st) = segmentFilter st
  /\ roofSegmentPolygons (updatePanelVisibility st) = roofSegmentPolygons st
  /\ roofSegmentLabels (updatePanelVisibility st) = roofSegmentLabels st.
Proof.
  unfold updatePanelVisibility.
  destruct (List.length (solarPanels st) =? 0)%nat; repeat split.
Qed.

Lemma toggles_after_segments (st : St) :
  showPanels (updateSegmentVisibility st) = showPanels st
  /\ disableAnimation (updateSegmentVisibility st) = disableAnimation st
  /\ panelConfig (updateSegmentVisibility st) = panelConfig st
  /\ theMap (updateSegmentVisibility st) = theMap st
  /\ showSegments (updateSegmentVisibility st) = showSegments st
  /\ segmentFilter (updateSegmentVisibility st) = segmentFilter st
  /\ solarPanels (updateSegmentVisibility st) = solarPanels st.
Proof.
  unfold updateSegmentVisibility.
  destruct (List.length (roofSegmentPolygons st) =? 0)%nat; repeat split.
Qed.

Lemma mapi_from_ext {A B} (f g : A -> nat -> B) (xs : list A) :
  (forall a i, f a i = g a i) ->
  forall k, mapi_from k f xs = mapi_from k g xs.
Proof.
  intros Hfg. induction xs as [|a xs IH]; intros k; cbn; [reflexivity|].
  now rewrite Hfg, IH.
Qed.

Lemma updatePanelVisibility_cases (st : St) :
  (solarPanels st = [] /\ updatePanelVisibility st = st)
  \/ (solarPanels st <> []
      /\ updatePanelVisibility st
         = withShapes st
             (mapi (fun panel i => setMap panel (attach st (panelShown st i)))
                (solarPanels st))
             (roofSegmentPolygons st) (roofSegmentLabels st)).
Proof.
  unfold updatePanelVisibility.
  destruct (solarPanels st) as [|p ps]; [left | right]; split;
    (reflexivity || discriminate).
Qed.

Lemma updateSegmentVisibility_cases (st : St) :
  (roofSegmentPolygons st = [] /\ updateSegmentVisibility st = st)
  \/ (roofSegmentPolygons st <> []
      /\ updateSegmentVisibility st
         = withShapes st (solarPanels st)
             (List.map
                (fun segment =>
                   setMap segment
                     (attach st
                        (shouldShow (showSegments st) (segmentFilter st)
                           (polygonSegmentIndex segment))))
                (roofSegmentPolygons st))
             (List.map
                (fun label =>
                   setMarkerMap label
                     (attach st
                        (shouldShow (showSegments st) (segmentFilter st)
                           (markerSegmentIndex label))))
                (roofSegmentLabels st))).
Proof.
  unfold updateSegmentVisibility.
  destruct (roofSegmentPolygons st) as [|p ps]; [left | right]; split;
    (reflexivity || discriminate).
Qed.

Lemma mapi_nil {A B} (f : A -> nat -> B) (xs : list A) :
  mapi f xs = [] <-> xs = [].
Proof. destruct xs; cbn; split; congruence. Qed.

Lemma map_nil {A B} (f : A -> B) (xs : list A) :
  List.map f xs = [] <-> xs = [].
Proof. destruct xs; cbn; split; congruence. Qed.

(** X11.  Each visibility pass can be repeated without effect; the form
    runs a pass from the handler of a switch and again from the reactive
    statement on the variable the switch is bound to. *)
Theorem passes_idempotent (st : St) :
  updatePanelVisibility (updatePanelVisibility st) = updatePanelVisibility st
  /\ updateSegmentVisibility (updateSegmentVisibility st)
     = updateSegmentVisibility st.
Proof.
  split.
  - destruct (updatePanelVisibility_cases st) as [[_ E]|[Hfull E]].
    + now rewrite !E.
    + rewrite E.
      destruct (updatePanelVisibility_cases
                  (withShapes st
                     (mapi (fun panel i =>
                              setMap panel (attach st (panelShown st i)))
                        (solarPanels st))
                     (roofSegmentPolygons st) (roofSegmentLabels st)))
        as [[Hnil _]|[_ ->]].
      * cbn [solarPanels withShapes] in Hnil. apply mapi_nil in Hnil.
        contradiction.
      * unfold withShapes. cbn. f_equal. unfold mapi.
        rewrite mapi_from_twice. apply mapi_from_ext. reflexivity.
  - destruct (updateSegmentVisibility_cases st) as [[_ E]|[Hfull E]].
    + now rewrite !E.
    + rewrite E.
      match goal with
      | |- updateSegmentVisibility ?s = _ =>
          destruct (updateSegmentVisibility_cases s) as [[Hnil _]|[_ ->]]
      end.
      * cbn [roofSegmentPolygons withShapes] in Hnil. apply map_nil in Hnil.
        contradiction.
      * unfold withShapes. cbn. f_equal; rewrite map_map; reflexivity.
Qed.

(** X12.  The two passes do not interfere: the panel pass leaves outlines
    and labels alone, the segment pass leaves the panels alone, and they
    give the same state in either order. *)
Theorem passes_commute (st : St) :
  updatePanelVisibility (updateSegmentVisibility st)
  = updateSegmentVisibility (updatePanelVisibility st)
  /\ roofSegmentPolygons (updatePanelVisibility st) = roofSegmentPolygons st
  /\ roofSegmentLabels (updatePanelVisibility st) = roofSegmentLabels st
  /\ solarPanels (updateSegmentVisibility st) = solarPanels st.
Proof.
  split; [|split; [|split]];
    try apply (toggles_after_panels st); try apply (toggles_after_segments st).
  destruct (updatePanelVisibility_cases st) as [[Pnil Ep]|[Pfull Ep]],
           (updateSegmentVisibility_cases st) as [[Snil Es]|[Sfull Es]].
  - rewrite Ep, Es. exact Ep.
  - rewrite Ep, Es.
    match goal with
    | |- updatePanelVisibility ?s = _ =>
        destruct (updatePanelVisibility_cases s) as [[_ ->]|[Hfull _]]
    end; [reflexivity|].
    cbn [solarPanels withShapes] in Hfull. congruence.
  - rewrite Es, Ep.
    match goal with
    | |- _ = updateSegmentVisibility ?s =>
        destruct (updateSegmentVisibility_cases s) as [[_ ->]|[Hfull _]]
    end; [reflexivity|].
    cbn [roofSegmentPolygons withShapes] in Hfull. congruence.
  - rewrite Es, Ep.
    match goal with
    | |- updatePanelVisibility ?s = _ =>
        destruct (updatePanelVisibility_cases s) as [[Hnil _]|[_ ->]]
    end; [cbn [solarPanels withShapes] in Hnil; congruence|].
    match goal with
    | |- _ = updateSegmentVisibility ?s =>
        destruct (updateSegmentVisibility_cases s) as [[Hnil _]|[_ ->]]
    end; [cbn [roofSegmentPolygons withShapes] in Hnil; congruence|].
    reflexivity.
Qed.

Lemma attached_below (st : St) (threshold : nat)
    (xs : list (Polygon GLatLng GMap)) :
  forall k,
    List.length
      (List.filter (fun p => onMap (getMap p))
         (mapi_from k
            (fun panel i =>
               setMap panel (attach st (i <? threshold)%nat)) xs))
    = Nat.min (List.length xs) (threshold - k).
Proof.
  induction xs as [|p xs IH]; intros k; cbn [mapi_from List.filter].
  - reflexivity.
  - cbn [getMap setMap]. unfold attach at 1.
    destruct (Nat.ltb_spec k threshold) as [Hlt|Hge]; cbn [onMap List.length].
    + rewrite IH. lia.
    + rewrite IH. cbn [List.length]. lia.
Qed.

(** X13.  After the panel pass, the panels on the map are: none when
    [showPanels] is off; all of them when it is on and the animation is
    disabled; and, when the animation is enabled, as many as the selected
    configuration counts, all of them if it counts more, none if no
    configuration is selected. *)
Theorem attached_panel_count (st : St) :
  List.length (attachedPanels (updatePanelVisibility st))
  = if showPanels st then
      if disableAnimation st then List.length (solarPanels st)
      else match panelConfig st with
           | Some config =>
               Nat.min (List.length (solarPanels st))
                 (Z.to_nat (SolarPanelConfig.panelsCount config))
           | None => 0%nat
           end
    else 0%nat.
Proof.
  unfold attachedPanels. rewrite panels_after_update. unfold mapi.
  set (threshold :=
         if showPanels st then
           if disableAnimation st then List.length (solarPanels st)
           else match panelConfig st with
                | Some config => Z.to_nat (SolarPanelConfig.panelsCount config)
                | None => 0%nat
                end
         else 0%nat).
  assert (Hshown : forall i, (i < List.length (solarPanels st))%nat ->
                             panelShown st i = (i <? threshold)%nat).
  { intros i Hi. unfold panelShown, threshold.
    destruct (showPanels st), (disableAnimation st); cbn [andb];
      try (symmetry; apply Nat.ltb_lt; exact Hi);
      try (symmetry; apply Nat.ltb_ge; lia).
    destruct (panelConfig st) as [config|];
      [|symmetry; apply Nat.ltb_ge; lia].
    destruct (Z.ltb_spec (Z.of_nat i) (SolarPanelConfig.panelsCount config));
      symmetry; [apply Nat.ltb_lt | apply Nat.ltb_ge]; lia. }
  assert (Hsame : forall (xs : list (Polygon GLatLng GMap)) k,
             (k + List.length xs <= List.length (solarPanels st))%nat ->
             mapi_from k
               (fun panel i => setMap panel (attach st (panelShown st i))) xs
             = mapi_from k
                 (fun panel i => setMap panel (attach st (i <? threshold)%nat))
                 xs).
  { induction xs as [|p xs IH]; intros k Hk; cbn; [reflexivity|].
    cbn in Hk. rewrite Hshown by lia. rewrite IH by lia. reflexivity. }
  rewrite Hsame by (cbn; lia). rewrite attached_below.
  unfold threshold.
  destruct (showPanels st), (disableAnimation st);
    try destruct (panelConfig st); lia.
Qed.

(** X14.  When outlines and labels are paired, the segment pass keeps them
    paired and puts a label on the map exactly when its outline is. *)
Theorem labels_follow_outlines (st : St) :
  paired st ->
  paired (updateSegmentVisibility st)
  /\ List.map (@getMap _ _) (roofSegmentPolygons (updateSegmentVisibility st))
     = List.map (@markerMap _ _)
         (roofSegmentLabels (updateSegmentVisibility st)).
Proof.
  unfold paired. intros Hpaired.
  destruct (updateSegmentVisibility_cases st) as [[Hnil ->]|[_ ->]].
  - split; [exact Hpaired|]. rewrite Hnil in *. cbn in Hpaired.
    symmetry in Hpaired. apply map_nil in Hpaired. now rewrite Hpaired.
  - cbn [roofSegmentPolygons roofSegmentLabels withShapes].
    rewrite !map_map. cbn [polygonSegmentIndex markerSegmentIndex
                           getMap markerMap setMap setMarkerMap].
    split; [exact Hpaired|].
    rewrite <- (map_map (@polygonSegmentIndex _ _)
                  (fun tag => attach st (shouldShow (showSegments st)
                                           (segmentFilter st) tag))),
            <- (map_map (@markerSegmentIndex _ _)
                  (fun tag => attach st (shouldShow (showSegments st)
                                           (segmentFilter st) tag))).
    now rewrite Hpaired.
Qed.

(** X15.  With [showSegments] off, the segment pass takes every outline
    and every label off the map, whatever the filter says. *)
Theorem segments_off (st : St) :
  paired st ->
  showSegments st = false ->
  Forall (fun p => getMap p = None)
    (roofSegmentPolygons (updateSegmentVisibility st))
  /\ Forall (fun k => markerMap k = None)
       (roofSegmentLabels (updateSegmentVisibility st)).
Proof.
  unfold paired. intros Hpaired Hoff.
  destruct (updateSegmentVisibility_cases st) as [[Hnil ->]|[_ ->]].
  - rewrite Hnil in *. cbn in Hpaired. symmetry in Hpaired.
    apply map_nil in Hpaired. rewrite Hpaired. split; constructor.
  - cbn [roofSegmentPolygons roofSegmentLabels withShapes].
    unfold shouldShow. rewrite Hoff. cbn.
    split; apply Forall_map, Forall_forall; reflexivity.
Qed.

Lemma attached_hidden (st : St) :
  showPanels st = false -> attachedPanels (updatePanelVisibility st) = [].
Proof.
  intros Hoff. unfold attachedPanels. rewrite panels_after_update.
  unfold mapi.
  assert (Hnone : forall i, attach st (panelShown st i) = None).
  { intros i. unfold attach, panelShown. rewrite Hoff.
    now destruct (disableAnimation st). }
  generalize 0%nat.
  induction (solarPanels st) as [|p xs IH]; intros k;
    cbn [mapi_from List.filter]; [reflexivity|].
  cbn [getMap setMap]. rewrite Hnone. cbn [onMap]. apply IH.
Qed.

(** X16.  A click on the animation switch while the panels are hidden
    changes nothing: the switch is disabled.  A click that switches the
    panels off takes every panel off the map, and a click that switches
    the segments off takes every outline off the map. *)
Theorem switch_clicks (st : St) (selected : bool) :
  (showPanels st = false -> click st AnimationSwitch selected = st)
  /\ attachedPanels (click st PanelsSwitch false) = []
  /\ Forall (fun p => getMap p = None)
       (roofSegmentPolygons (click st SegmentsSwitch false)).
Proof.
  split; [|split].
  - intros Hoff. unfold click, InputBool.onClick, switch.
    cbn [InputBool.disabled]. now rewrite Hoff.
  - unfold click, InputBool.onClick, switch. cbn [InputBool.disabled].
    now apply attached_hidden.
  - unfold click, InputBool.onClick, switch. cbn [InputBool.disabled].
    rewrite segments_after_update. unfold shouldShow.
    cbn [showSegments assign andb].
    apply Forall_map, Forall_forall. reflexivity.
Qed.

End VisibilityFacts.

(** ** The life of a request *)

Section LifeCycleFacts.

Context {num : Type} `{Number num}.
Variables GLatLng GMap : Type.
Variable Math_sqrt : num -> num.
Variable Math_atan2 : num -> num -> num.
Variable Math_sin : num -> num.
Variable Math_cos : num -> num.
Variable Math_PI : num.
Variable computeOffset : LatLngLiteral num -> num -> num -> GLatLng.
Variable computeHeading : LatLngLiteral num -> LatLngLiteral num -> num.
Variable computeDistanceBetween : LatLngLiteral num -> LatLngLiteral num -> num.
Variable palette : num -> option string.

Local Abbreviation St := (State (num := num) GLatLng GMap).
Local Abbreviation called :=
  (showSolarPotential_call (num := num) (GLatLng := GLatLng) (GMap := GMap)).
Local Abbreviation resumed :=
  (showSolarPotential_resume (GMap := GMap) Math_sqrt Math_atan2 Math_sin
     Math_cos Math_PI computeOffset computeHeading computeDistanceBetween
     palette).
Local Abbreviation reached :=
  (reachable (GMap := GMap) Math_sqrt Math_atan2 Math_sin Math_cos Math_PI
     computeOffset computeHeading computeDistanceBetween palette).
Local Abbreviation stepped :=
  (step (GMap := GMap) Math_sqrt Math_atan2 Math_sin Math_cos Math_PI
     computeOffset computeHeading computeDistanceBetween palette).

Lemma call_quiet (st : St) (location : GLatLng) :
  requestSent st = false ->
  exists st',
    called st location = (st', Some location)
    /\ requestSent st' = true /\ quiet st'
    /\ buildingInsights st' = None
    /\ showPanels st' = showPanels st
    /\ showSegments st' = showSegments st
    /\ segmentFilter st' = segmentFilter st
    /\ disableAnimation st' = disableAnimation st
    /\ configId st' = configId st.
Proof.
  intros Hidle. unfold showSolarPotential_call. rewrite Hidle.
  eexists. split; [reflexivity|]. cbn. unfold quiet. cbn. repeat split.
Qed.

(** X17.  A request that fails leaves the component idle with the error
    card on display and nothing drawn; a further call then clears the
    error, shows the spinner and issues a new request, for the location it
    is given. *)
Theorem failed_request_retry
    (st : St) (location location' : GLatLng) (e : RequestError) :
  requestSent st = false ->
  exists st1 st2 st3,
    called st location = (st1, Some location)
    /\ resumed st1 (Rejected e) = (st2, Normal tt)
    /\ view st2 = ErrorCard e
    /\ requestSent st2 = false
    /\ (solarPanels st2 = [] /\ roofSegmentPolygons st2 = []
        /\ roofSegmentLabels st2 = [])
    /\ called st2 location' = (st3, Some location')
    /\ view st3 = Spinner.
Proof.
  intros Hidle.
  destruct (call_quiet st location Hidle)
    as (st1 & Hcall & _ & (Hp & Hs & Hl & He) & Hb & _).
  exists st1. eexists. eexists.
  split; [exact Hcall|]. split; [reflexivity|].
  cbn [view requestError withRequest requestSent solarPanels
       roofSegmentPolygons roofSegmentLabels].
  split; [reflexivity|]. split; [reflexivity|].
  split; [repeat split; assumption|].
  unfold showSolarPotential_call. cbn [requestSent withRequest].
  split; reflexivity.
Qed.

Lemma drawSegment_pairs sp (shapes shapes' : Shapes (num := num) GLatLng GMap)
    entry :
  drawSegment (GMap := GMap) Math_sqrt Math_atan2 Math_sin Math_cos Math_PI
    computeOffset computeHeading computeDistanceBetween sp shapes entry
  = Normal shapes' ->
  exists tags,
    List.map (@polygonSegmentIndex _ _) (fst shapes')
    = List.map (@polygonSegmentIndex _ _) (fst shapes) ++ tags
    /\ List.map (@markerSegmentIndex _ _) (snd shapes')
       = List.map (@markerSegmentIndex _ _) (snd shapes) ++ tags.
Proof.
  destruct entry as [segmentIndex panels]. unfold drawSegment, read.
  destruct (index (SolarPotential.roofSegmentStats sp) segmentIndex)
    as [seg|]; cbn [bind]; [|discriminate].
  destruct (0 <? List.length (List.map panelCenter panels))%nat;
    cbn [bind]; intros E; injection E as <-.
  - exists [Some segmentIndex]. cbn [fst snd]. rewrite !map_app.
    split; reflexivity.
  - exists []. now rewrite !app_nil_r.
Qed.

Lemma drawSegments_pairs sp entries :
  forall shapes : Shapes (num := num) GLatLng GMap,
    List.map (@polygonSegmentIndex _ _) (fst shapes)
    = List.map (@markerSegmentIndex _ _) (snd shapes) ->
    let shapes' :=
      fst (drawSegments (GMap := GMap) Math_sqrt Math_atan2 Math_sin Math_cos
             Math_PI computeOffset computeHeading computeDistanceBetween
             sp shapes entries) in
    List.map (@polygonSegmentIndex _ _) (fst shapes')
    = List.map (@markerSegmentIndex _ _) (snd shapes').
Proof.
  induction entries as [|entry entries IH]; intros shapes Hpaired;
    cbn [drawSegments].
  - exact Hpaired.
  - destruct (drawSegment _ _ _ _ _ _ _ _ sp shapes entry)
      as [shapes1|e] eqn:E; [|exact Hpaired].
    apply IH. destruct (drawSegment_pairs _ _ _ E) as [tags [-> ->]].
    now rewrite Hpaired.
Qed.

Lemma paired_after_segment_pass (st : St) :
  paired st -> paired (updateSegmentVisibility st).
Proof.
  unfold paired, updateSegmentVisibility. intros Hpaired.
  destruct (List.length (roofSegmentPolygons st) =? 0)%nat; [exact Hpaired|].
  cbn [roofSegmentPolygons roofSegmentLabels withShapes].
  now rewrite !map_map.
Qed.

Lemma panel_pass_nothing (st : St) :
  solarPanels st = [] -> updatePanelVisibility st = st.
Proof. intros Hp. unfold updatePanelVisibility. now rewrite Hp. Qed.

Lemma segment_pass_nothing (st : St) :
  roofSegmentPolygons st = [] -> updateSegmentVisibility st = st.
Proof. intros Hs. unfold updateSegmentVisibility. now rewrite Hs. Qed.

Lemma error_after_panel_pass (st : St) :
  requestError (updatePanelVisibility st) = requestError st
  /\ buildingInsights (updatePanelVisibility st) = buildingInsights st.
Proof.
  unfold updatePanelVisibility.
  destruct (List.length (solarPanels st) =? 0)%nat; split; reflexivity.
Qed.

Lemma error_after_segment_pass (st : St) :
  requestError (updateSegmentVisibility st) = requestError st
  /\ buildingInsights (updateSegmentVisibility st) = buildingInsights st.
Proof.
  unfold updateSegmentVisibility.
  destruct (List.length (roofSegmentPolygons st) =? 0)%nat; split;
    reflexivity.
Qed.

Lemma settled_step sys sys' :
  settled sys -> stepped sys sys' -> settled sys'.
Proof.
  intros (Hone & Hquiet & Herr & Hpaired) Hstep.
  pose proof (oneRequest_step Hone Hstep) as Hone'.
  split; [exact Hone'|].
  destruct Hstep as [sys location st issued Hcall
                    |sys before location after r st outcome Hfly Hresume
                    |sys i|sys|sys|sys]; cbn [component] in *.
  - destruct (requestSent (component sys)) eqn:Hsent.
    + rewrite (call_while_sent _ location Hsent) in Hcall.
      injection Hcall as <- <-. rewrite Hsent. now split.
    + destruct (call_quiet _ location Hsent)
        as (st' & Hc & _ & Hq & _). rewrite Hc in Hcall.
      injection Hcall as <- <-.
      split; [intros _; exact Hq|].
      destruct Hq as (_ & Hs & Hl & He).
      split; [intros Hne; congruence|]. unfold paired. now rewrite Hs, Hl.
  - assert (Hsent : requestSent (component sys) = true).
    { destruct Hone as [[Hs _]|[_ Hnone]]; [exact Hs|].
      rewrite Hnone in Hfly. destruct before; discriminate. }
    destruct (Hquiet Hsent) as (Hp & Hs & Hl & He).
    pose proof (resume_clears_flag Math_sqrt Math_atan2 Math_sin Math_cos
                  Math_PI computeOffset computeHeading computeDistanceBetween
                  palette (component sys) r) as Hclear.
    rewrite Hresume in Hclear. cbn [fst] in Hclear.
    split; [intros Hs'; congruence|].
    unfold showSolarPotential_resume in Hresume.
    destruct r as [insights|e].
    + destruct (createSolarPanels _ _ _ _ _ _ (solarPotential insights))
        as [panels|e].
      * cbn [roofSegmentPolygons roofSegmentLabels withShapes withRequest]
          in Hresume.
        rewrite Hs, Hl in Hresume.
        pose proof (drawSegments_pairs (solarPotential insights)
                      (groupPanels (SolarPotential.solarPanels
                                      (solarPotential insights)))
                      ([], []) eq_refl) as Hpairs.
        cbn zeta in Hpairs.
        destruct (drawSegments _ _ _ _ _ _ _ _ _ _ _) as [shapes outcome'].
        injection Hresume as <- _.
        split.
        -- unfold errorAlone.
           cbn [requestError withShapes withRequest]. congruence.
        -- unfold paired.
           cbn [roofSegmentPolygons roofSegmentLabels withShapes].
           exact Hpairs.
      * injection Hresume as <- _. split.
        -- unfold errorAlone. cbn [requestError withRequest]. congruence.
        -- unfold paired.
           cbn [roofSegmentPolygons roofSegmentLabels withRequest].
           now rewrite Hs, Hl.
    + injection Hresume as <- _. split.
      * unfold errorAlone.
        cbn [requestError solarPanels roofSegmentPolygons
             roofSegmentLabels withRequest].
        intros _. now repeat split.
      * unfold paired.
        cbn [roofSegmentPolygons roofSegmentLabels withRequest].
        now rewrite Hs, Hl.
  - destruct i; cbn; (split; [exact Hquiet|]); (split; [exact Herr|]);
      exact Hpaired.
  - unfold react. destruct (buildingInsights (component sys));
      (split; [exact Hquiet|]); (split; [exact Herr | exact Hpaired]).
  - split; [|split].
    + rewrite requestSent_updatePanelVisibility. intros Hsent.
      destruct (Hquiet Hsent) as (Hp & Hrest).
      rewrite (panel_pass_nothing _ Hp). now apply Hquiet.
    + unfold errorAlone in *.
      destruct (error_after_panel_pass (component sys)) as [-> _].
      intros Hne. destruct (Herr Hne) as (Hp & Hrest).
      rewrite (panel_pass_nothing _ Hp). now apply Herr.
    + unfold paired, updatePanelVisibility.
      destruct (List.length (solarPanels (component sys)) =? 0)%nat;
        exact Hpaired.
  - split; [|split].
    + rewrite requestSent_updateSegmentVisibility. intros Hsent.
      destruct (Hquiet Hsent) as (_ & Hs & Hrest).
      rewrite (segment_pass_nothing _ Hs). now apply Hquiet.
    + unfold errorAlone in *.
      destruct (error_after_segment_pass (component sys)) as [-> _].
      intros Hne. destruct (Herr Hne) as (_ & Hs & Hrest).
      rewrite (segment_pass_nothing _ Hs). now apply Herr.
    + now apply paired_after_segment_pass.
Qed.

Lemma settled_fresh (m : GMap) (watts : num) (show : bool) sys :
  reached (initialState GLatLng m watts show) sys -> settled sys.
Proof.
  intros Hreach. induction Hreach as [|sys sys' _ IH Hstep].
  - split; [right; now split|]. cbn [component].
    split; [intros Hs; discriminate Hs|].
    split; [intros Hne; now contradiction Hne | reflexivity].
  - eapply settled_step; eassumption.
Qed.

(** X18.  In a component that started fresh, whatever the parent writes
    to the exported properties, while a request is pending nothing is
    drawn and no error card is on display; the spinner is, unless the
    parent has written insights of its own in the meantime. *)
Theorem loading_is_quiet (m : GMap) (watts : num) (show : bool)
    (sys : System (num := num) GLatLng GMap) :
  reached (initialState GLatLng m watts show) sys ->
  requestSent (component sys) = true ->
  solarPanels (component sys) = []
  /\ roofSegmentPolygons (component sys) = []
  /\ roofSegmentLabels (component sys) = []
  /\ requestError (component sys) = None
  /\ (forall e, view (component sys) <> ErrorCard e)
  /\ (buildingInsights (component sys) = None ->
      view (component sys) = Spinner).
Proof.
  intros Hreach Hsent.
  destruct (settled_fresh Hreach) as (_ & Hquiet & _).
  destruct (Hquiet Hsent) as (Hp & Hs & Hl & He).
  split; [exact Hp|]. split; [exact Hs|]. split; [exact Hl|].
  split; [exact He|]. unfold view. rewrite He. split.
  - intros e. destruct (buildingInsights (component sys)); [|discriminate].
    destruct (configId (component sys)), (panelConfig (component sys));
      discriminate.
  - intros Hb. now rewrite Hb.
Qed.

(** X19.  In a component that started fresh, outlines and labels always
    come in pairs: the n-th label carries the segment index of the n-th
    outline, also after a render that ended in an exception half-way. *)
Theorem outlines_have_labels (m : GMap) (watts : num) (show : bool)
    (sys : System (num := num) GLatLng GMap) :
  reached (initialState GLatLng m watts show) sys ->
  List.map (@polygonSegmentIndex _ _) (roofSegmentPolygons (component sys))
  = List.map (@markerSegmentIndex _ _) (roofSegmentLabels (component sys))
  /\ List.length (roofSegmentPolygons (component sys))
     = List.length (roofSegmentLabels (component sys)).
Proof.
  intros Hreach. destruct (settled_fresh Hreach) as (_ & _ & _ & Hpaired).
  split; [exact Hpaired|].
  unfold paired in Hpaired. apply (f_equal (@List.length _)) in Hpaired.
  now rewrite !length_map in Hpaired.
Qed.

(** X20.  In a component that started fresh, whatever the parent writes
    to the exported properties, whenever the error card is on display
    there is no panel, outline or label and no request is pending: the
    shapes of an earlier building never stay behind an error. *)
Theorem error_card_alone (m : GMap) (watts : num) (show : bool)
    (sys : System (num := num) GLatLng GMap) (e : RequestError) :
  reached (initialState GLatLng m watts show) sys ->
  view (component sys) = ErrorCard e ->
  solarPanels (component sys) = []
  /\ roofSegmentPolygons (component sys) = []
  /\ roofSegmentLabels (component sys) = []
  /\ requestSent (component sys) = false.
Proof.
  intros Hreach Hview.
  destruct (settled_fresh Hreach) as (_ & Hquiet & Herr & _).
  assert (Hne : requestError (component sys) <> None).
  { unfold view in Hview. destruct (requestError (component sys)) as [e'|];
      [discriminate|].
    destruct (buildingInsights (component sys)); [|discriminate].
    destruct (configId (component sys)), (panelConfig (component sys));
      discriminate. }
  destruct (Herr Hne) as (Hp & Hs & Hl).
  repeat split; try assumption.
  destruct (requestSent (component sys)); [|reflexivity].
  destruct (Hquiet eq_refl) as (_ & _ & _ & He). contradiction.
Qed.

(** X21.  Once the reactive statements have run on insights that arrived
    without error, the controls are on display exactly when the selected
    configuration index is within the list of configurations, and then the
    maximum of the yearly-energy gauge is read without exception; with an
    index out of range the section shows nothing at all. *)
Theorem controls_need_a_configuration
    (st : St) (insights : BuildingInsightsResponse num) (c : Z) :
  requestError st = None ->
  buildingInsights st = Some insights ->
  configId st = Some c ->
  match index (SolarPotential.solarPanelConfigs (solarPotential insights)) c
  with
  | Some config =>
      view (react st) = Controls config
      /\ exists energy, yearlyEnergyGaugeMax (react st) = Normal energy
  | None => view (react st) = Blank
  end.
Proof.
  intros He Hb Hc. unfold react, view, yearlyEnergyGaugeMax.
  rewrite Hb, Hc.
  cbn [requestError buildingInsights configId panelConfig
       panelCapacityRatio withDerived].
  rewrite He, Hb, Hc.
  destruct (index (SolarPotential.solarPanelConfigs (solarPotential insights))
              c) as [config|] eqn:Econfig; [|reflexivity].
  split; [reflexivity|]. cbn [read bind].
  assert (Hfull : SolarPotential.solarPanelConfigs (solarPotential insights)
                  <> []).
  { intros Hnil. rewrite Hnil in Econfig. unfold index in Econfig.
    destruct (c <? 0)%Z; [discriminate|].
    destruct (Z.to_nat c); discriminate. }
  destruct (slice_last_head Hfull) as [final ->]. cbn [read bind].
  eexists. reflexivity.
Qed.

End LifeCycleFacts.

(** ** Segment numbers typed into the filter *)

(** A decimal digit is not white space, not a comma and not a sign. *)
Lemma digit_enumerate (c : N) :
  (48 <= c <= 57)%N ->
  (c = 48 \/ c = 49 \/ c = 50 \/ c = 51 \/ c = 52 \/ c = 53 \/ c = 54
   \/ c = 55 \/ c = 56 \/ c = 57)%N.
Proof. lia. Qed.

Ltac each_digit H :=
  apply digit_enumerate in H;
  destruct H as [->|[->|[->|[->|[->|[->|[->|[->|[->| ->]]]]]]]]].

Lemma digit10_decimal (n : Z) :
  (0 <= n)%Z -> digit10 (Z.to_N (48 + n mod 10)) = Some (n mod 10)%Z.
Proof.
  intros Hn. pose proof (Z.mod_pos_bound n 10 eq_refl) as Hd.
  unfold digit10.
  destruct (N.leb_spec 48 (Z.to_N (48 + n mod 10))) as [_|Hlo]; [|lia].
  destruct (N.leb_spec (Z.to_N (48 + n mod 10)) 57) as [_|Hhi]; [|lia].
  cbn [andb]. f_equal. rewrite Z2N.id; lia.
Qed.

Lemma decimalDigits_chars (fuel : nat) :
  forall (n : Z) (tail : jsstring),
    (0 <= n)%Z ->
    Forall (fun c => (48 <= c <= 57)%N) tail ->
    Forall (fun c => (48 <= c <= 57)%N) (decimalDigits fuel n tail).
Proof.
  induction fuel as [|fuel IH]; intros n tail Hn Htail; cbn; [exact Htail|].
  pose proof (Z.mod_pos_bound n 10 eq_refl) as Hd.
  assert (Hc : (48 <= Z.to_N (48 + n mod 10) <= 57)%N) by lia.
  destruct (n <? 10)%Z; [now constructor|].
  apply IH; [apply Z.div_pos; lia | now constructor].
Qed.

Lemma decimalDigits_tail (fuel : nat) :
  forall (n : Z) (tail : jsstring),
    tail <> [] -> decimalDigits fuel n tail <> [].
Proof.
  induction fuel as [|fuel IH]; intros n tail Htail; cbn; [exact Htail|].
  destruct (n <? 10)%Z; [discriminate|]. apply IH. discriminate.
Qed.

Lemma decimalDigits_full (fuel : nat) (n : Z) (tail : jsstring) :
  decimalDigits (S fuel) n tail <> [].
Proof.
  cbn. destruct (n <? 10)%Z; [discriminate|].
  apply decimalDigits_tail. discriminate.
Qed.

(** Reading the digits of a number back gives the number. *)
Lemma digits_decimalDigits (fuel : nat) :
  forall (n : Z) (tail : jsstring),
    (0 <= n < 2 ^ Z.of_nat (S fuel))%Z ->
    digits digit10 10 (decimalDigits (S fuel) n tail) None
    = digits digit10 10 tail (Some n).
Proof.
  induction fuel as [|fuel IH]; intros n tail Hn.
  - cbn [decimalDigits].
    assert (Hsmall : (n <? 10)%Z = true) by (apply Z.ltb_lt; cbn in Hn; lia).
    rewrite Hsmall. cbn [digits]. rewrite digit10_decimal by lia.
    do 2 f_equal. rewrite Z.mod_small; lia.
  - change (decimalDigits (S (S fuel)) n tail)
      with (if (n <? 10)%Z then Z.to_N (48 + n mod 10) :: tail
            else decimalDigits (S fuel) (n / 10)
                   (Z.to_N (48 + n mod 10) :: tail)).
    destruct (Z.ltb_spec n 10) as [Hsmall|Hbig].
    + cbn [digits]. rewrite digit10_decimal by lia.
      do 2 f_equal. rewrite Z.mod_small; lia.
    + rewrite IH.
      * cbn [digits]. rewrite digit10_decimal by lia.
        do 2 f_equal. symmetry. apply Z.div_mod. discriminate.
      * split; [apply Z.div_pos; lia|].
        apply Z.div_lt_upper_bound; [lia|].
        rewrite Nat2Z.inj_succ, Z.pow_succ_r in Hn by lia. lia.
Qed.

Lemma bit_length (n : Z) :
  (0 <= n)%Z -> (0 <= n < 2 ^ Z.of_nat (S (Z.to_nat (Z.log2 n))))%Z.
Proof.
  intros Hn. split; [exact Hn|].
  rewrite Nat2Z.inj_succ, Z2Nat.id by apply Z.log2_nonneg.
  destruct (Z.eq_dec n 0) as [->|Hpos]; [reflexivity|].
  apply Z.log2_spec. lia.
Qed.

Ltac parse_digits Hall :=
  match type of Hall with
  | Forall _ (?c :: ?rest) =>
      let Hc := fresh "Hc" in
      let Hrest := fresh "Hrest" in
      let Hd := fresh "Hd" in
      inversion Hall as [|? ? Hc Hrest]; subst;
      destruct rest as [|d rest];
      [ each_digit Hc; reflexivity
      | inversion Hrest as [|? ? Hd _]; subst;
        each_digit Hc; each_digit Hd; cbn;
        match goal with
        | |- context [digits digit10 10 rest ?acc] =>
            destruct (digits digit10 10 rest acc) as [[| |]|]; reflexivity
        end ]
  end.

(** [parseInt] on a run of decimal digits, and on one behind a minus. *)
Lemma parseInt_digits (body : jsstring) :
  body <> [] -> Forall (fun c => (48 <= c <= 57)%N) body ->
  parseInt body
  = match digits digit10 10 body None with
    | Some n => Int n
    | None => NaN
    end.
Proof.
  intros Hfull Hall. destruct body as [|c rest]; [contradiction|].
  clear Hfull. parse_digits Hall.
Qed.

Lemma parseInt_minus (body : jsstring) :
  body <> [] -> Forall (fun c => (48 <= c <= 57)%N) body ->
  parseInt (45%N :: body)
  = match digits digit10 10 body None with
    | Some n => Int (- n)
    | None => NaN
    end.
Proof.
  intros Hfull Hall. destruct body as [|c rest]; [contradiction|].
  clear Hfull. parse_digits Hall.
Qed.

Lemma parseInt_toDecimal (n : Z) : parseInt (toDecimal n) = Int n.
Proof.
  unfold toDecimal. destruct (Z.ltb_spec n 0) as [Hneg|Hpos].
  - rewrite parseInt_minus.
    + rewrite digits_decimalDigits by (apply bit_length; lia).
      cbn [digits]. f_equal. lia.
    + apply decimalDigits_full.
    + apply decimalDigits_chars; [lia | constructor].
  - rewrite parseInt_digits.
    + now rewrite digits_decimalDigits by (apply bit_length; lia).
    + apply decimalDigits_full.
    + apply decimalDigits_chars; [lia | constructor].
Qed.

(** The characters of a filter made of numbers and commas. *)
Lemma toDecimal_chars (n : Z) :
  Forall (fun c => (48 <= c <= 57)%N \/ c = 45%N) (toDecimal n).
Proof.
  assert (Hdigits : forall m, (0 <= m)%Z ->
            Forall (fun c => (48 <= c <= 57)%N \/ c = 45%N)
              (decimalDigits (S (Z.to_nat (Z.log2 m))) m [])).
  { intros m Hm.
    apply (Forall_impl _ (P := fun c => (48 <= c <= 57)%N));
      [intros c Hc; now left|].
    apply decimalDigits_chars; [exact Hm | constructor]. }
  unfold toDecimal. destruct (Z.ltb_spec n 0) as [Hneg|Hpos].
  - constructor; [now right | apply Hdigits; lia].
  - now apply Hdigits.
Qed.

Lemma plain_not_white (c : N) :
  (48 <= c <= 57)%N \/ c = 45%N \/ c = comma -> isWhiteSpace c = false.
Proof.
  intros [Hc|[->| ->]]; [each_digit Hc; reflexivity | reflexivity..].
Qed.

Lemma trimStart_clean (s : jsstring) :
  Forall (fun c => isWhiteSpace c = false) s -> trimStart s = s.
Proof.
  intros Hs. destruct Hs as [|c s Hc _]; [reflexivity|].
  cbn. now rewrite Hc.
Qed.

Lemma trim_clean (s : jsstring) :
  Forall (fun c => isWhiteSpace c = false) s -> trim s = s.
Proof.
  intros Hs. unfold trim, trimEnd. rewrite (trimStart_clean Hs).
  rewrite trimStart_clean by now apply Forall_rev.
  apply rev_involutive.
Qed.

Lemma trim_toDecimal (n : Z) : trim (toDecimal n) = toDecimal n.
Proof.
  apply trim_clean.
  apply (Forall_impl _ (P := fun c => (48 <= c <= 57)%N \/ c = 45%N));
    [|apply toDecimal_chars].
  intros c [Hc| ->]; apply plain_not_white; [now left | right; now left].
Qed.

Lemma toDecimal_no_comma (n : Z) : ~ In comma (toDecimal n).
Proof.
  intros Hin. pose proof (toDecimal_chars n) as Hall.
  rewrite Forall_forall in Hall. destruct (Hall _ Hin) as [Hc|Hc].
  - unfold comma in Hc. lia.
  - discriminate Hc.
Qed.

Lemma toDecimal_full (n : Z) : toDecimal n <> [].
Proof.
  unfold toDecimal. destruct (n <? 0)%Z; [discriminate|].
  apply decimalDigits_full.
Qed.

Lemma split_joinComma (token : jsstring) (tokens : list jsstring) :
  Forall (fun t => ~ In comma t) (token :: tokens) ->
  split_comma (joinComma (token :: tokens)) = token :: tokens.
Proof.
  revert token. induction tokens as [|next tokens IH]; intros token Hall.
  - apply split_comma_token. now inversion Hall.
  - change (joinComma (token :: next :: tokens))
      with (token ++ comma :: joinComma (next :: tokens)).
    inversion Hall as [|? ? Hfree Hrest]; subst.
    rewrite split_comma_app, (@split_comma_token _ Hfree), (IH _ Hrest).
    reflexivity.
Qed.

Lemma joinComma_clean (tokens : list jsstring) :
  Forall (Forall (fun c => isWhiteSpace c = false)) tokens ->
  Forall (fun c => isWhiteSpace c = false) (joinComma tokens).
Proof.
  induction tokens as [|token [|next tokens] IH]; intros Hall.
  - constructor.
  - now inversion Hall.
  - change (joinComma (token :: next :: tokens))
      with (token ++ comma :: joinComma (next :: tokens)).
    inversion Hall as [|? ? Htoken Hrest]; subst.
    apply Forall_app. split; [exact Htoken|].
    constructor; [reflexivity | now apply IH].
Qed.

Lemma joinComma_full (token : jsstring) (tokens : list jsstring) :
  token <> [] -> joinComma (token :: tokens) <> [].
Proof.
  intros Hfull. destruct tokens as [|next tokens]; [exact Hfull|].
  change (joinComma (token :: next :: tokens))
    with (token ++ comma :: joinComma (next :: tokens)).
  intros E. apply app_eq_nil in E. now destruct E.
Qed.

Lemma segmentNumbers_joinComma (n : Z) (l : list Z) :
  segmentNumbers (joinComma (List.map toDecimal (n :: l)))
  = Some (List.map Int (n :: l)).
Proof.
  unfold segmentNumbers. rewrite trim_clean.
  - pose proof (@joinComma_full (toDecimal n) (List.map toDecimal l)
                  (toDecimal_full n)) as Hfull.
    change (toDecimal n :: List.map toDecimal l)
      with (List.map toDecimal (n :: l)) in Hfull.
    destruct (joinComma (List.map toDecimal (n :: l))) eqn:Ejoin;
      [contradiction|]. rewrite <- Ejoin. clear Ejoin Hfull.
    change (List.map toDecimal (n :: l))
      with (toDecimal n :: List.map toDecimal l).
    rewrite split_joinComma.
    + change (toDecimal n :: List.map toDecimal l)
        with (List.map toDecimal (n :: l)).
      rewrite map_map. f_equal.
      induction (n :: l) as [|a rest IH]; [reflexivity|].
      cbn [List.map List.filter].
      rewrite trim_toDecimal, parseInt_toDecimal. cbn [isNaN negb].
      now rewrite IH.
    + change (toDecimal n :: List.map toDecimal l)
        with (List.map toDecimal (n :: l)).
      apply Forall_forall. intros t Hin. apply in_map_iff in Hin.
      destruct Hin as (z & <- & _). apply toDecimal_no_comma.
  - apply joinComma_clean. apply Forall_forall. intros t Hin.
    apply in_map_iff in Hin. destruct Hin as (z & <- & _).
    apply (Forall_impl _ (P := fun c => (48 <= c <= 57)%N \/ c = 45%N));
      [|apply toDecimal_chars].
    intros c [Hc| ->]; apply plain_not_white; [now left | right; now left].
Qed.

(** X22.  Segment indices written the way the labels print them, and
    typed into the filter separated by commas, select exactly these
    segments: the filter parses to the list of the numbers, in order, and a
    shape is shown iff the switch is on and its index is one of them.  The
    numbers stay within the range in which a JavaScript number is an exact
    integer and prints in plain decimal notation. *)
Theorem filter_selects_typed_segments
    (n : Z) (l : list Z) (showSegments : bool) (segmentIndex : Z) :
  Forall (fun z => (Z.abs z < 2 ^ 53)%Z) (n :: l) ->
  segmentNumbers (joinComma (List.map toDecimal (n :: l)))
  = Some (List.map Int (n :: l))
  /\ (shouldShow showSegments (joinComma (List.map toDecimal (n :: l)))
        (Some segmentIndex) = true
      <-> showSegments = true /\ In segmentIndex (n :: l)).
Proof.
  intros _. split; [apply segmentNumbers_joinComma|].
  unfold shouldShow. rewrite segmentNumbers_joinComma.
  rewrite andb_true_iff, includes_In, in_map_iff.
  split; intros [Hshow Hin]; (split; [exact Hshow|]).
  - destruct Hin as (z & E & Hin). injection E as <-. exact Hin.
  - now exists segmentIndex.
Qed.

(** X23.  A filter that is not blank but none of whose tokens parses to a
    number hides every outline and label, whatever the switch says: the
    list of numbers is empty, not absent. *)
Theorem unreadable_filter_hides_all
    (filter : jsstring) (showSegments : bool) (segmentIndex : option Z) :
  trim filter <> [] ->
  (forall token, In token (split_comma filter) ->
                 parseInt (trim token) = NaN) ->
  segmentNumbers filter = Some []
  /\ shouldShow showSegments filter segmentIndex = false.
Proof.
  intros Hfull Hnone.
  assert (Hnumbers : segmentNumbers filter = Some []).
  { unfold segmentNumbers. destruct (trim filter); [contradiction|].
    f_equal. revert Hnone.
    induction (split_comma filter) as [|token tokens IH]; intros Hnone;
      [reflexivity|].
    cbn [List.map List.filter]. rewrite (Hnone token) by now left.
    cbn [isNaN negb]. apply IH. intros t Hin. apply Hnone. now right. }
  split; [exact Hnumbers|].
  unfold shouldShow. rewrite Hnumbers.
  destruct segmentIndex; cbn; apply andb_false_r.
Qed.

(** ** Concrete runs of the further properties *)

Ltac first_request :=
  eapply reachable_step;
  [ apply reachable_init
  | exact (step_show Run.Math_sqrt Run.Math_atan2 Run.Math_sin Run.Math_cos
             Run.Math_PI Run.computeOffset Run.computeHeading
             Run.computeDistanceBetween Run.palette
             Trace.start Trace.location eq_refl) ].

Ltac first_answer r :=
  eapply reachable_step;
  [ first_request
  | exact (step_settle Run.Math_sqrt Run.Math_atan2 Run.Math_sin
             Run.Math_cos Run.Math_PI Run.computeOffset Run.computeHeading
             Run.computeDistanceBetween Run.palette
             Trace.loading [] Trace.location [] r eq_refl
             (surjective_pairing _)) ].

Lemma panels_in_order_run :
  exists polygons,
    createSolarPanels Run.GMap Run.Math_sqrt Run.Math_atan2 Run.Math_PI
      Run.computeOffset Run.palette (solarPotential Run.threePanels)
    = Normal polygons
    /\ List.length polygons = 3%nat.
Proof.
  destruct (createSolarPanels Run.GMap Run.Math_sqrt Run.Math_atan2
              Run.Math_PI Run.computeOffset Run.palette
              (solarPotential Run.threePanels)) as [polygons|e] eqn:E;
    [|discriminate E].
  exists polygons. split; [reflexivity|].
  exact (proj1 (panels_in_order Run.Math_sqrt Run.Math_atan2 Run.Math_PI
                  Run.computeOffset Run.palette
                  (solarPotential Run.threePanels) E)).
Defined.

Lemma bad_panel_draws_nothing_run :
  In (Run.panel 7 150%float)
     (SolarPotential.solarPanels (solarPotential Trace.strayPanel))
  /\ ~ validSegment (solarPotential Trace.strayPanel) 7
  /\ Run.resume Run.idle (Resolved Trace.strayPanel)
     = (withRequest Run.idle (Some Trace.strayPanel) None false,
        Throw (TypeError "azimuthDegrees")).
Proof.
  assert (Hin : In (Run.panel 7 150%float)
                  (SolarPotential.solarPanels
                     (solarPotential Trace.strayPanel)))
    by (right; left; reflexivity).
  assert (Hout : ~ validSegment (solarPotential Trace.strayPanel) 7)
    by (unfold validSegment; cbn; lia).
  split; [exact Hin|]. split; [exact Hout|].
  exact (bad_panel_draws_nothing Run.Math_sqrt Run.Math_atan2 Run.Math_sin
           Run.Math_cos Run.Math_PI Run.computeOffset Run.computeHeading
           Run.computeDistanceBetween Run.palette
           Run.idle Trace.strayPanel (Run.panel 7 150%float) Hin Hout).
Defined.

Lemma labels_follow_outlines_run :
  let st := component Trace.rendered in
  paired st
  /\ List.map (@getMap _ _) (roofSegmentPolygons (updateSegmentVisibility st))
     = List.map (@markerMap _ _)
         (roofSegmentLabels (updateSegmentVisibility st)).
Proof.
  intros st.
  assert (Hpaired : paired st) by (vm_compute; reflexivity).
  split; [exact Hpaired|].
  exact (proj2 (labels_follow_outlines Hpaired)).
Defined.

Lemma segments_off_run :
  paired Trace.hidden
  /\ showSegments Trace.hidden = false
  /\ Forall (fun p => getMap p = None)
       (roofSegmentPolygons (updateSegmentVisibility Trace.hidden)).
Proof.
  assert (Hpaired : paired Trace.hidden) by (vm_compute; reflexivity).
  split; [exact Hpaired|]. split; [reflexivity|].
  exact (proj1 (segments_off Hpaired eq_refl)).
Defined.

Lemma switch_clicks_run :
  let st := assign (component Trace.rendered) (SetShowPanels false) in
  showPanels st = false /\ click st AnimationSwitch true = st.
Proof.
  intros st. split; [reflexivity|].
  exact (proj1 (switch_clicks st true) eq_refl).
Defined.

Lemma failed_request_retry_run :
  requestSent Run.idle = false
  /\ exists st2 st3,
       Run.resume (component Trace.loading) (Rejected Trace.failure)
       = (st2, Normal tt)
       /\ view st2 = ErrorCard Trace.failure
       /\ showSolarPotential_call st2 Trace.location
          = (st3, Some Trace.location)
       /\ view st3 = Spinner.
Proof.
  split; [reflexivity|].
  destruct (failed_request_retry Run.Math_sqrt Run.Math_atan2 Run.Math_sin
              Run.Math_cos Run.Math_PI Run.computeOffset Run.computeHeading
              Run.computeDistanceBetween Run.palette
              Run.idle Trace.location Trace.location Trace.failure eq_refl)
    as (st1 & st2 & st3 & Hcall & Hfail & Hcard & _ & _ & Hretry & Hspin).
  exists st2, st3.
  assert (E : st1 = component Trace.loading)
    by exact (eq_sym (f_equal fst Hcall)).
  rewrite <- E. unfold Run.resume.
  split; [exact Hfail|]. split; [exact Hcard|].
  split; [exact Hretry | exact Hspin].
Defined.

Lemma loading_is_quiet_run :
  requestSent (component Trace.overwritten) = true
  /\ buildingInsights (component Trace.overwritten) = Some Run.threePanels
  /\ solarPanels (component Trace.overwritten) = []
  /\ requestError (component Trace.overwritten) = None.
Proof.
  split; [reflexivity|]. split; [reflexivity|].
  assert (Hreach :
    reachable Run.Math_sqrt Run.Math_atan2 Run.Math_sin Run.Math_cos
      Run.Math_PI Run.computeOffset Run.computeHeading
      Run.computeDistanceBetween Run.palette
      (initialState Run.GLatLng tt 250%float true) Trace.overwritten).
  { eapply reachable_step; [first_request|].
    exact (step_input Run.Math_sqrt Run.Math_atan2 Run.Math_sin Run.Math_cos
             Run.Math_PI Run.computeOffset Run.computeHeading
             Run.computeDistanceBetween Run.palette Trace.loading
             (SetBuildingInsights (Some Run.threePanels))). }
  destruct (loading_is_quiet Hreach eq_refl) as (Hp & _ & _ & He & _).
  split; [exact Hp | exact He].
Defined.

Lemma outlines_have_labels_run :
  List.length (roofSegmentPolygons (component Trace.rendered)) = 1%nat
  /\ List.length (roofSegmentPolygons (component Trace.rendered))
     = List.length (roofSegmentLabels (component Trace.rendered)).
Proof.
  split; [reflexivity|].
  assert (Hreach :
    reachable Run.Math_sqrt Run.Math_atan2 Run.Math_sin Run.Math_cos
      Run.Math_PI Run.computeOffset Run.computeHeading
      Run.computeDistanceBetween Run.palette
      (initialState Run.GLatLng tt 250%float true) Trace.rendered)
    by first_answer (Resolved Run.threePanels).
  exact (proj2 (outlines_have_labels Hreach)).
Defined.

Lemma error_card_alone_run :
  view (component Trace.failed) = ErrorCard Trace.failure
  /\ solarPanels (component Trace.failed) = []
  /\ requestSent (component Trace.failed) = false.
Proof.
  split; [reflexivity|].
  assert (Hreach :
    reachable Run.Math_sqrt Run.Math_atan2 Run.Math_sin Run.Math_cos
      Run.Math_PI Run.computeOffset Run.computeHeading
      Run.computeDistanceBetween Run.palette
      (initialState Run.GLatLng tt 250%float true) Trace.failed)
    by first_answer (Rejected (num := double) Trace.failure).
  destruct (error_card_alone (e := Trace.failure) Hreach eq_refl)
    as (Hnone & _ & _ & Hidle).
  split; [exact Hnone | exact Hidle].
Defined.

Lemma controls_need_a_configuration_run :
  requestError Run.selected = None
  /\ buildingInsights Run.selected = Some Run.threePanels
  /\ configId Run.selected = Some 0%Z
  /\ view (react Run.selected)
     = Controls
         {| SolarPanelConfig.panelsCount := 3;
            SolarPanelConfig.yearlyEnergyDcKwh := 1000%float |}.
Proof.
  split; [reflexivity|]. split; [reflexivity|]. split; [reflexivity|].
  exact (proj1 (controls_need_a_configuration Run.selected
                  (insights := Run.threePanels) (c := 0%Z)
                  eq_refl eq_refl eq_refl)).
Defined.

Lemma filter_selects_typed_segments_run :
  Forall (fun z => (Z.abs z < 2 ^ 53)%Z) [0; 2; 11]%Z
  /\ joinComma (List.map toDecimal [0; 2; 11]%Z) = str "0,2,11"
  /\ segmentNumbers (str "0,2,11") = Some [Int 0; Int 2; Int 11]
  /\ (shouldShow true (str "0,2,11") (Some 11%Z) = true
      <-> true = true /\ In 11%Z [0; 2; 11]%Z).
Proof.
  assert (Hsmall : Forall (fun z => (Z.abs z < 2 ^ 53)%Z) [0; 2; 11]%Z)
    by (repeat constructor).
  split; [exact Hsmall|]. split; [reflexivity|].
  exact (filter_selects_typed_segments true 11 Hsmall).
Defined.

Lemma unreadable_filter_hides_all_run :
  trim (str "a, b") <> []
  /\ (forall token, In token (split_comma (str "a, b")) ->
                    parseInt (trim token) = NaN)
  /\ shouldShow true (str "a, b") (Some 0%Z) = false.
Proof.
  assert (Hfull : trim (str "a, b") <> []) by discriminate.
  assert (Hnone : forall token, In token (split_comma (str "a, b")) ->
                                parseInt (trim token) = NaN)
    by (intros token [<-|[<-|[]]]; reflexivity).
  split; [exact Hfull|]. split; [exact Hnone|].
  exact (proj2 (@unreadable_filter_hides_all (str "a, b") true (Some 0%Z)
                  Hfull Hnone)).
Defined.
